(** * Connection pool adapter, metadata tracker and encoder-pool registry

    A shallow embedding of

    - [pool/meta.go]: [Meta], [MetaInfo], [ReadMeta];
    - [pool/conn.go]: the connection adapter [pConn];
    - the encoder file of [logit]: [RegisterEncoderPool], [GetEncoderPool].

    Go values are modelled as follows.  A [uint64] or [int64] is a [Z] whose
    arithmetic is wrapped explicitly.  A [time.Time] is the number of
    nanoseconds elapsed since the zero [time.Time]; a [time.Duration] is an
    [int64] number of nanoseconds.  An [error] is an [option]: [None] is
    [nil].  Reads of the clock and calls that leave the adapter (methods of
    the wrapped [net.Conn], [connCheck], the pool's [Put]) are effects of a
    small state monad: the clock is a function from the number of earlier
    readings to the reading, the environment answers each outgoing call, and
    every call is appended to a log together with its answer.  There is one
    time line: the wall clock and the monotonic clock of [time.Now()] agree.
    The mutexes are not modelled: every method body is one atomic step.  The
    receiver of a method of the adapter or of the tracker is a non-nil
    pointer; the items of [ReadMeta] include the nil pointers. *)

From Stdlib Require Import ZArith List String Bool Lia.
From Stdlib Require DecimalString HexadecimalString.
Import ListNotations.
Local Open Scope Z_scope.
Set Warnings "-register-all".

(** ** Fixed-width integers *)

Module GoInt.

Definition maxInt64 : Z := 2 ^ 63 - 1.
Definition minInt64 : Z := - 2 ^ 63.
Definition maxUint64 : Z := 2 ^ 64 - 1.

(** [x + y] on [uint64] is [wrap_uint64 (x + y)]. *)
Definition wrap_uint64 (z : Z) : Z := z mod 2 ^ 64.

(** [x + y] on [int64] is [wrap_int64 (x + y)] (two's complement). *)
Definition wrap_int64 (z : Z) : Z := (z + 2 ^ 63) mod 2 ^ 64 - 2 ^ 63.

Definition is_int64 (z : Z) : Prop := minInt64 <= z <= maxInt64.
Definition is_uint64 (z : Z) : Prop := 0 <= z <= maxUint64.

End GoInt.

(** ** [time.Time] and [time.Duration] *)

Module GoTime.

Definition Time : Type := Z.
Definition Duration : Type := Z.

(** [time.Time{}]. *)
Definition zeroTime : Time := 0.

Definition minDuration : Duration := GoInt.minInt64.
Definition maxDuration : Duration := GoInt.maxInt64.

(** [t.Sub(u)]: the difference, or the minimum or maximum [Duration] when
    the difference does not fit. *)
Definition Sub (t u : Time) : Duration :=
  if t - u <? minDuration then minDuration
  else if maxDuration <? t - u then maxDuration
  else t - u.

End GoTime.

Import GoInt GoTime.

(** ** Data model *)

(** The package-level error values.  [errCloseInRW] is declared in
    [conn.go]; the three exported ones are declared elsewhere in the package
    and are only compared by identity.  [ErrExternal] stands for any error
    produced outside the package (by the transport, by the pool). *)
Inductive error : Type :=
| ErrBadValue
| ErrOutOfMaxIdleTime
| ErrOutOfMaxLife
| errCloseInRW
| ErrExternal (msg : string).

(** [type Meta struct]. *)
Record Meta : Type := mkMeta {
  CreateTime : Time;
  LastUseTime : Time;
  UsedTimes : Z;            (* uint64 *)
  UsedDuration : Duration   (* int64 *)
}.

(** [type MetaInfo struct]; the pointer [meta] is never shared, so the
    pointee is stored in place. *)
Record MetaInfo : Type := mkMetaInfo {
  meta : Meta;
  using_ : bool       (* the field [using] *)
}.

(** The two fields of [Option] that [MetaInfo.Active] reads; the struct is
    declared elsewhere in the package, next to the sizing parameters of the
    pool. *)
Record Option : Type := mkOption {
  MaxIdleTime : Duration;
  MaxLifeTime : Duration
}.

Definition Option_wf (opt : Option) : Prop :=
  is_int64 (MaxIdleTime opt) /\ is_int64 (MaxLifeTime opt).

(** A [net.Conn] interface value, as far as the adapter inspects it: an
    identity, whether the dynamic type implements [PEActiver], and the result
    of its [Raw() net.Conn] method when the dynamic type has one. *)
Inductive NetConn : Type :=
| Conn (fd : nat) (isPEActiver : bool) (rawMethod : option NetConn).

Definition conn_fd (c : NetConn) : nat :=
  match c with Conn fd _ _ => fd end.
Definition conn_isPEActiver (c : NetConn) : bool :=
  match c with Conn _ a _ => a end.
Definition conn_Raw (c : NetConn) : option NetConn :=
  match c with Conn _ _ r => r end.

(** What the adapter uses of its owning pool ([NewElementNeed]): the pool's
    identity, for [Put], and the value of [Option()]. *)
Record NewElementNeed : Type := mkPool {
  pool_id : nat;
  pool_Option : Option
}.

Definition statInit : Z := 0.
Definition statStart : Z := 1.
Definition statDone : Z := 2.

(** [type pConn struct]. *)
Record pConn : Type := mkPConn {
  metaInfo : MetaInfo;      (* the embedded *MetaInfo *)
  pool : NewElementNeed;
  raw : NetConn;
  lastErr : option error;
  readStat : Z;             (* uint8 *)
  writeStat : Z             (* uint8 *)
}.

Definition set_metaInfo (m : MetaInfo) (c : pConn) : pConn :=
  mkPConn m (pool c) (raw c) (lastErr c) (readStat c) (writeStat c).
Definition set_lastErr (e : option error) (c : pConn) : pConn :=
  mkPConn (metaInfo c) (pool c) (raw c) e (readStat c) (writeStat c).
Definition set_readStat (s : Z) (c : pConn) : pConn :=
  mkPConn (metaInfo c) (pool c) (raw c) (lastErr c) s (writeStat c).
Definition set_writeStat (s : Z) (c : pConn) : pConn :=
  mkPConn (metaInfo c) (pool c) (raw c) (lastErr c) (readStat c) s.

(** A [*pConn] seen as a [net.Conn]: it implements [PEActiver], and its
    [Raw()] returns the connection it wraps. *)
Definition asNetConn (fd : nat) (c : pConn) : NetConn :=
  Conn fd true (Some (raw c)).

(** ** Effects *)

Inductive Method : Type :=
| MRead
| MWrite
| MSetDeadline (t : Time)
| MSetReadDeadline (t : Time)
| MSetWriteDeadline (t : Time)
| MClose
| MPEActive.

(** The calls that leave the adapter. *)
Inductive Call : Type :=
| RawCall (target : NetConn) (m : Method)      (* target.m(...) *)
| ConnCheck (target : NetConn)                 (* connCheck(target) *)
| PoolPut (p : NewElementNeed) (c : pConn).    (* p.Put(c) *)

(** The answer to a call: the byte count (of [Read] and [Write], otherwise
    unused) and the error. *)
Record Resp : Type := mkResp {
  resp_n : Z;
  resp_err : option error
}.

Record World : Type := mkWorld {
  ticks : nat;                   (* number of clock readings so far *)
  log : list (Call * Resp)       (* outgoing calls so far, oldest first *)
}.

Definition M (A : Type) : Type := World -> A * World.

Definition ret {A : Type} (a : A) : M A := fun w => (a, w).

Definition bind {A B : Type} (m : M A) (k : A -> M B) : M B :=
  fun w => let (a, w') := m w in k a w'.

Declare Scope go_scope.
Delimit Scope go_scope with go.
Notation "x <- m ;; k" := (bind m (fun x => k))
  (at level 100, m at next level, right associativity) : go_scope.
Notation "' pat <- m ;; k" := (bind m (fun x => match x with pat => k end))
  (at level 100, pat pattern, m at next level, right associativity) : go_scope.
Local Open Scope go_scope.

Section Runtime.

(** [clock n] is what the [n]-th call of [time.Now()] returns. *)
Variable clock : nat -> Time.

(** The answer of the environment to a call, in a given world. *)
Variable env : World -> Call -> Resp.

(** [time.Now()]. *)
Definition Now : M Time :=
  fun w => (clock (ticks w), mkWorld (S (ticks w)) (log w)).

(** [time.Since(t)]. *)
Definition Since (t : Time) : M Duration :=
  now <- Now ;; ret (Sub now t).

Definition call (c : Call) : M Resp :=
  fun w => let r := env w c in (r, mkWorld (ticks w) (log w ++ [(c, r)])).

(** [a && b], where [b] is evaluated only when [a] holds. *)
Definition andalso (a : bool) (b : M bool) : M bool :=
  if a then b else ret false.

(** *** [meta.go] *)

Definition NewMetaInfo : M MetaInfo :=
  now <- Now ;;
  ret (mkMetaInfo (mkMeta now zeroTime 0 0) false).

Definition PEMarkUsing (w : MetaInfo) : M MetaInfo :=
  now <- Now ;;
  let m := meta w in
  ret (mkMetaInfo
         (mkMeta (CreateTime m) now
                 (wrap_uint64 (UsedTimes m + 1)) (UsedDuration m))
         true).

Definition PEMarkIdle (w : MetaInfo) : M MetaInfo :=
  now <- Now ;;
  let m := meta w in
  ret (mkMetaInfo
         (mkMeta (CreateTime m) now (UsedTimes m)
                 (wrap_int64 (UsedDuration m + Sub now (LastUseTime m))))
         false).

Definition Active (w : MetaInfo) (opt : Option) : M (option error) :=
  let lastUse := LastUseTime (meta w) in
  idle <- andalso (0 <? MaxIdleTime opt)
                  (d <- Since lastUse ;; ret (MaxIdleTime opt <=? d)) ;;
  if idle then ret (Some ErrOutOfMaxIdleTime)
  else
    life <- andalso (0 <? MaxLifeTime opt)
                    (d <- Since (CreateTime (meta w)) ;;
                     ret (MaxLifeTime opt <=? d)) ;;
    if life then ret (Some ErrOutOfMaxLife) else ret None.

Definition PEMeta (w : MetaInfo) : Meta := meta w.

(** *** [conn.go] *)

Definition newPConn (rawc : NetConn) (p : NewElementNeed) : M pConn :=
  mi <- NewMetaInfo ;;
  ret (mkPConn mi p rawc None statInit statInit).

Definition setErr (err : option error) (c : pConn) : pConn :=
  match err with
  | Some e => set_lastErr (Some e) c
  | None => c
  end.

Definition withLock (fn : pConn -> pConn) (c : pConn) : pConn := fn c.

Definition Read (c : pConn) : M (pConn * (Z * option error)) :=
  let c := withLock (set_readStat statStart) c in
  r <- call (RawCall (raw c) MRead) ;;
  let c := setErr (resp_err r) c in
  let c := withLock (set_readStat statDone) c in
  ret (c, (resp_n r, resp_err r)).

Definition Write (c : pConn) : M (pConn * (Z * option error)) :=
  let c := withLock (set_writeStat statStart) c in
  r <- call (RawCall (raw c) MWrite) ;;
  let c := setErr (resp_err r) c in
  let c := withLock (set_writeStat statDone) c in
  ret (c, (resp_n r, resp_err r)).

Definition SetDeadline (t : Time) (c : pConn) : M (pConn * option error) :=
  r <- call (RawCall (raw c) (MSetDeadline t)) ;;
  ret (setErr (resp_err r) c, resp_err r).

Definition SetReadDeadline (t : Time) (c : pConn)
  : M (pConn * option error) :=
  r <- call (RawCall (raw c) (MSetReadDeadline t)) ;;
  ret (setErr (resp_err r) c, resp_err r).

Definition SetWriteDeadline (t : Time) (c : pConn)
  : M (pConn * option error) :=
  r <- call (RawCall (raw c) (MSetWriteDeadline t)) ;;
  ret (setErr (resp_err r) c, resp_err r).

Definition PEReset (c : pConn) : M pConn :=
  '(c, _) <- SetDeadline zeroTime c ;;
  '(c, _) <- SetReadDeadline zeroTime c ;;
  '(c, _) <- SetWriteDeadline zeroTime c ;;
  ret (withLock (fun c => set_writeStat statInit (set_readStat statInit c))
                c).

Definition isDoing (c : pConn) : bool :=
  (readStat c =? statStart) || (writeStat c =? statStart).

Definition isNil {A : Type} (e : option A) : bool :=
  match e with None => true | Some _ => false end.

(** [Close] returns the adapter in the state in which it is handed to
    [Put], and the result of [Put]. *)
Definition Close (c : pConn) : M (pConn * option error) :=
  let c := withLock (fun c => if isNil (lastErr c) && isDoing c
                              then set_lastErr (Some errCloseInRW) c
                              else c) c in
  r <- call (PoolPut (pool c) c) ;;
  ret (c, resp_err r).

Definition Raw (c : pConn) : NetConn := raw c.

Definition PERawClose (c : pConn) : M (option error) :=
  r <- call (RawCall (raw c) MClose) ;;
  ret (resp_err r).

Definition getRawConn (c : pConn) : NetConn :=
  match conn_Raw (raw c) with
  | Some cr => cr
  | None => raw c
  end.

(** [connCheck] is defined elsewhere in the package and probes the socket:
    it is a call answered by the environment. *)
Definition connCheck (target : NetConn) : M (option error) :=
  r <- call (ConnCheck target) ;;
  ret (resp_err r).

(** The nested check of [PEActive]: [None] when the wrapped connection is
    not a [PEActiver], otherwise the result of its [PEActive()]. *)
Definition nestedPEActive (c : pConn) : M (option (option error)) :=
  if conn_isPEActiver (raw c)
  then r <- call (RawCall (raw c) MPEActive) ;; ret (Some (resp_err r))
  else ret None.

Definition PEActive (c : pConn) : M (option error) :=
  if negb (isNil (lastErr c)) || isDoing c then ret (Some ErrBadValue)
  else
    ea <- Active (metaInfo c) (pool_Option (pool c)) ;;
    match ea with
    | Some e => ret (Some e)
    | None =>
        ra <- nestedPEActive c ;;
        match ra with
        | Some (Some e) => ret (Some e)
        | _ =>
            err <- connCheck (getRawConn c) ;;
            match err with
            | Some e => ret (Some e)
            | None => ret None
            end
        end
    end.

End Runtime.

(** ** Sequences of operations *)

Section Runs.

Variable clock : nat -> Time.
Variable env : World -> Call -> Resp.

(** The two transitions of the metadata tracker. *)
Inductive MetaOp : Type :=
| OpMarkUsing
| OpMarkIdle.

Definition stepMeta (o : MetaOp) (w : MetaInfo) : M MetaInfo :=
  match o with
  | OpMarkUsing => PEMarkUsing clock w
  | OpMarkIdle => PEMarkIdle clock w
  end.

Fixpoint runMeta (ops : list MetaOp) (w : MetaInfo) : M MetaInfo :=
  match ops with
  | [] => ret w
  | o :: ops' => w' <- stepMeta o w ;; runMeta ops' w'
  end.

(** [k] complete cycles: mark-using, then the matching mark-idle. *)
Fixpoint useCycles (k : nat) (w : MetaInfo) : M MetaInfo :=
  match k with
  | O => ret w
  | S k' =>
      w1 <- PEMarkUsing clock w ;;
      w2 <- PEMarkIdle clock w1 ;;
      useCycles k' w2
  end.

(** The methods of the adapter, as operations on its state; the methods
    promoted from the embedded [*MetaInfo] act on [metaInfo]. *)
Inductive Op : Type :=
| OpRead
| OpWrite
| OpSetDeadline (t : Time)
| OpSetReadDeadline (t : Time)
| OpSetWriteDeadline (t : Time)
| OpPEReset
| OpClose
| OpPEActive
| OpPERawClose
| OpPEMarkUsing
| OpPEMarkIdle.

Definition step (o : Op) (c : pConn) : M pConn :=
  match o with
  | OpRead => '(c', _) <- Read env c ;; ret c'
  | OpWrite => '(c', _) <- Write env c ;; ret c'
  | OpSetDeadline t => '(c', _) <- SetDeadline env t c ;; ret c'
  | OpSetReadDeadline t => '(c', _) <- SetReadDeadline env t c ;; ret c'
  | OpSetWriteDeadline t => '(c', _) <- SetWriteDeadline env t c ;; ret c'
  | OpPEReset => PEReset env c
  | OpClose => '(c', _) <- Close env c ;; ret c'
  | OpPEActive => _ <- PEActive clock env c ;; ret c
  | OpPERawClose => _ <- PERawClose env c ;; ret c
  | OpPEMarkUsing =>
      m <- PEMarkUsing clock (metaInfo c) ;; ret (set_metaInfo m c)
  | OpPEMarkIdle =>
      m <- PEMarkIdle clock (metaInfo c) ;; ret (set_metaInfo m c)
  end.

Fixpoint run (ops : list Op) (c : pConn) : M pConn :=
  match ops with
  | [] => ret c
  | o :: ops' => c' <- step o c ;; run ops' c'
  end.

End Runs.

(** ** Notions used to state the properties *)

(** The fully unwrapped connection: [Raw()] is followed for as long as the
    dynamic type has it. *)
Fixpoint innermost (c : NetConn) : NetConn :=
  match c with
  | Conn _ _ (Some inner) => innermost inner
  | Conn _ _ None => c
  end.

(** Number of [Raw()] levels above the innermost connection. *)
Fixpoint wrapDepth (c : NetConn) : nat :=
  match c with
  | Conn _ _ (Some inner) => S (wrapDepth inner)
  | Conn _ _ None => O
  end.

(** Identity of interface values. *)
Fixpoint NetConn_eqb (a b : NetConn) : bool :=
  match a, b with
  | Conn fa pa ra, Conn fb pb rb =>
      Nat.eqb fa fb && Bool.eqb pa pb &&
      match ra, rb with
      | Some ia, Some ib => NetConn_eqb ia ib
      | None, None => true
      | _, _ => false
      end
  end.

(** The deadlines (read, write) in force on [target] when it honours every
    deadline call of the log that it answered with [nil]; [init] are the
    deadlines before the log. *)
Definition applyDeadline (target : NetConn) (d : Time * Time)
  (e : Call * Resp) : Time * Time :=
  match e with
  | (RawCall c m, mkResp _ None) =>
      if NetConn_eqb c target then
        match m with
        | MSetDeadline t => (t, t)
        | MSetReadDeadline t => (t, snd d)
        | MSetWriteDeadline t => (fst d, t)
        | _ => d
        end
      else d
  | _ => d
  end.

Definition deadlinesAfter (target : NetConn) (init : Time * Time)
  (l : list (Call * Resp)) : Time * Time :=
  fold_left (applyDeadline target) l init.

(** The calls of a log. *)
Definition calls (l : list (Call * Resp)) : list Call := map fst l.

(** Sum of the [k] durations between the mark-using and the mark-idle of
    [k] consecutive cycles whose first clock reading is the [n]-th. *)
Fixpoint cycleDurations (clock : nat -> Time) (n : nat) (k : nat) : Z :=
  match k with
  | O => 0
  | S k' => Sub (clock (S n)) (clock n) + cycleDurations clock (S (S n)) k'
  end.

(** The same sum with exact differences. *)
Fixpoint cycleElapsed (clock : nat -> Time) (n : nat) (k : nat) : Z :=
  match k with
  | O => 0
  | S k' => (clock (S n) - clock n) + cycleElapsed clock (S (S n)) k'
  end.

Definition monotone (clock : nat -> Time) : Prop :=
  forall i j : nat, (i <= j)%nat -> clock i <= clock j.

(** The counters of a [Meta] are values of their types. *)
Definition Meta_wf (m : Meta) : Prop :=
  is_uint64 (UsedTimes m) /\ is_int64 (UsedDuration m).

(** The transition [o], taken from [w] in world [wd], does not overflow:
    the increment of [UsedTimes] fits [uint64] and the addition into
    [UsedDuration] fits [int64]. *)
Definition stepFits (clock : nat -> Time) (o : MetaOp) (w : MetaInfo)
  (wd : World) : Prop :=
  match o with
  | OpMarkUsing => UsedTimes (meta w) + 1 <= maxUint64
  | OpMarkIdle =>
      UsedDuration (meta w)
      + Sub (clock (ticks wd)) (LastUseTime (meta w)) <= maxInt64
  end.

(** No transition of the sequence overflows. *)
Fixpoint noWrap (clock : nat -> Time) (ops : list MetaOp) (w : MetaInfo)
  (wd : World) : Prop :=
  match ops with
  | [] => True
  | o :: ops' =>
      stepFits clock o w wd
      /\ noWrap clock ops' (fst (stepMeta clock o w wd))
                (snd (stepMeta clock o w wd))
  end.

(** No addition into [UsedDuration] along the sequence overflows [int64]. *)
Fixpoint durationFits (clock : nat -> Time) (ops : list MetaOp)
  (w : MetaInfo) (wd : World) : Prop :=
  match ops with
  | [] => True
  | o :: ops' =>
      match o with
      | OpMarkUsing => True
      | OpMarkIdle =>
          UsedDuration (meta w)
          + Sub (clock (ticks wd)) (LastUseTime (meta w)) <= maxInt64
      end
      /\ durationFits clock ops' (fst (stepMeta clock o w wd))
                      (snd (stepMeta clock o w wd))
  end.

(** Number of [PEMarkUsing] transitions in a sequence. *)
Fixpoint countUsing (ops : list MetaOp) : nat :=
  match ops with
  | [] => O
  | OpMarkUsing :: ops' => S (countUsing ops')
  | OpMarkIdle :: ops' => countUsing ops'
  end.

(** The transitions of [k] complete cycles. *)
Fixpoint cycleOps (k : nat) : list MetaOp :=
  match k with
  | O => []
  | S k' => OpMarkUsing :: OpMarkIdle :: cycleOps k'
  end.

(** What a run of transitions maintains: the counters are values of their
    types and [LastUseTime] is not ahead of the clock. *)
Definition tracked (clock : nat -> Time) (w : MetaInfo) (wd : World)
  : Prop :=
  Meta_wf (meta w) /\ LastUseTime (meta w) <= clock (ticks wd).

(** [b] is reached from [a] without any tracked quantity going back. *)
Definition noDecrease (a b : Meta) : Prop :=
  UsedDuration a <= UsedDuration b
  /\ UsedTimes a <= UsedTimes b
  /\ LastUseTime a <= LastUseTime b
  /\ CreateTime a = CreateTime b.

(** ** Sample values *)

(** An environment in which every call succeeds. *)
Definition quietEnv : World -> Call -> Resp :=
  fun _ _ => mkResp 0 None.

(** A clock that advances by 100ns a reading. *)
Definition steadyClock : nat -> Time :=
  fun n => 100 * Z.of_nat n.

(** A transport socket: neither a [PEActiver] nor a wrapper. *)
Definition socket : NetConn := Conn 0 false None.

Definition samplePool : NewElementNeed := mkPool 7 (mkOption 0 0).

(** The adapter made by [newPConn] around [rawc] at the first reading of
    [steadyClock]. *)
Definition adapterOf (rawc : NetConn) : pConn :=
  fst (newPConn steadyClock rawc samplePool (mkWorld 0 [])).

(** An adapter around the socket, one around that adapter, and one around
    the latter. *)
Definition level1 : pConn := adapterOf socket.
Definition level2 : pConn := adapterOf (asNetConn 1 level1).
Definition level3 : pConn := adapterOf (asNetConn 2 level2).

(** An environment in which the [PEActive] of every wrapped connection
    fails and every other call succeeds. *)
Definition nestedFailsEnv : World -> Call -> Resp :=
  fun _ k =>
    match k with
    | RawCall _ MPEActive => mkResp 0 (Some (ErrExternal "stale"))
    | _ => mkResp 0 None
    end.

(** An environment in which every [Read] of a wrapped connection fails
    and every other call succeeds. *)
Definition brokenReadEnv : World -> Call -> Resp :=
  fun _ k =>
    match k with
    | RawCall _ MRead => mkResp 0 (Some (ErrExternal "EOF"))
    | _ => mkResp 0 None
    end.

(** ** [ReadMeta] *)

(** The result of a call that may panic. *)
Inductive Outcome (A : Type) : Type :=
| Returns (a : A)
| Panics.
Arguments Returns {A} a.
Arguments Panics {A}.

(** A [*MetaInfo] as a caller can hold it: the nil pointer, a [MetaInfo]
    whose field [meta] is nil (the zero value, as [new(MetaInfo)] gives it),
    or a [MetaInfo] whose [meta] points to a [Meta] (as [NewMetaInfo] builds
    it). *)
Inductive MetaInfoRef : Type :=
| NilMetaInfo
| EmptyMetaInfo (using_ : bool)
| MetaInfoOf (w : MetaInfo).

(** A [*pConn] as a caller can hold it: the nil pointer, or a [pConn], of
    which [ReadMeta] reaches the embedded [*MetaInfo] only. *)
Inductive PConnRef : Type :=
| NilPConn
| PConnOf (embedded : MetaInfoRef).

(** The pointer to an adapter that [newPConn] built. *)
Definition refOf (c : pConn) : PConnRef := PConnOf (MetaInfoOf (metaInfo c)).

(** The [interface{}] values handed to [ReadMeta], by dynamic type.  A
    [*MetaInfo] has the method [PEMeta] and a [*pConn] has it by promotion
    from the embedded [*MetaInfo], nil or not; a [MetaInfo] value has no
    method, all of them being declared on the pointer; a [Meta] value has
    only [String]; a foreign type has [PEMeta() Meta] exactly when [pemeta]
    is [Some r], and [r] is then the outcome of calling the method. *)
Inductive Item : Type :=
| ItemNil
| ItemMetaInfo (w : MetaInfoRef)
| ItemPConn (c : PConnRef)
| ItemMetaInfoValue (w : MetaInfo)
| ItemMeta (m : Meta)
| ItemForeign (typeName : string) (pemeta : option (Outcome Meta)).

(** Whether the dynamic type of the item satisfies
    [interface { PEMeta() Meta }]. *)
Definition implementsPEMeta (item : Item) : bool :=
  match item with
  | ItemNil => false
  | ItemMetaInfo _ => true
  | ItemPConn _ => true
  | ItemMetaInfoValue _ => false
  | ItemMeta _ => false
  | ItemForeign _ pemeta => negb (isNil pemeta)
  end.

(** [PEMeta] called through a [*MetaInfo]: [w.mu.Lock()] on a nil
    [w] and [*w.meta] on a nil [meta] are nil dereferences. *)
Definition callPEMeta (w : MetaInfoRef) : Outcome Meta :=
  match w with
  | NilMetaInfo => Panics
  | EmptyMetaInfo _ => Panics
  | MetaInfoOf w => Returns (PEMeta w)
  end.

(** The promoted method of a [*pConn]: selecting the embedded [*MetaInfo]
    of a nil [*pConn] is a nil dereference. *)
Definition promotedPEMeta (c : PConnRef) : Outcome Meta :=
  match c with
  | NilPConn => Panics
  | PConnOf embedded => callPEMeta embedded
  end.

(** The type assertion [item.(PEMeta)]: the method of the item, or a
    panic. *)
Definition assertPEMeta (item : Item) : Outcome (unit -> Outcome Meta) :=
  match item with
  | ItemMetaInfo w => Returns (fun _ => callPEMeta w)
  | ItemPConn c => Returns (fun _ => promotedPEMeta c)
  | ItemForeign _ (Some r) => Returns (fun _ => r)
  | _ => Panics
  end.

Definition ReadMeta (item : Item) : Outcome Meta :=
  match assertPEMeta item with
  | Returns method => method tt
  | Panics => Panics
  end.

(** The snapshot the item reports, for the items that have one. *)
Definition snapshotOf (item : Item) : option Meta :=
  match item with
  | ItemMetaInfo (MetaInfoOf w) => Some (meta w)
  | ItemPConn (PConnOf (MetaInfoOf w)) => Some (meta w)
  | ItemForeign _ (Some (Returns m)) => Some m
  | _ => None
  end.

Definition zeroMeta : Meta := mkMeta zeroTime zeroTime 0 0.

(** ** The registry of encoder pools *)

Module Logit.

(** The [interface{}] values used as names, by dynamic type.  Strings,
    integers and booleans are compared by value; a floating-point NaN differs
    from every value, itself included; a slice cannot be hashed.  A boxed
    value is a struct with one field of type [interface{}]: its type is
    comparable whatever the field holds, and it is hashed and compared
    through the field. *)
Inductive Name : Type :=
| NameNil
| NameString (s : string)
| NameInt (z : Z)
| NameBool (b : bool)
| NameNaN
| NameSlice (l : list Z)
| NameBoxed (field : Name).

(** Whether hashing the value as a map key succeeds: the hash of a struct
    hashes its fields, and panics when it reaches a slice. *)
Fixpoint hashable (n : Name) : bool :=
  match n with
  | NameSlice _ => false
  | NameBoxed field => hashable field
  | _ => true
  end.

(** [a == b] on interface values, as the code evaluates it: between a name
    and a string constant, and between a name that was hashed and a key of
    the map, so that two slices are never compared. *)
Fixpoint name_eqb (a b : Name) : bool :=
  match a, b with
  | NameNil, NameNil => true
  | NameString s, NameString t => String.eqb s t
  | NameInt x, NameInt y => x =? y
  | NameBool x, NameBool y => Bool.eqb x y
  | NameBoxed x, NameBoxed y => name_eqb x y
  | _, _ => false
  end.

(** An [EncoderPool] interface value: [nil], or the pool at an address. *)
Definition EncoderPool : Type := option nat.

Definition nilPool : EncoderPool := None.

(** [fmt.Errorf("name=%v already exists", name)]. *)
Inductive regError : Type :=
| AlreadyExists (name : Name).

(** A [map[interface{}]EncoderPool]: the entries, oldest first. *)
Definition Registry : Type := list (Name * EncoderPool).

Fixpoint find (reg : Registry) (name : Name) : option EncoderPool :=
  match reg with
  | [] => None
  | (k, v) :: rest => if name_eqb k name then Some v else find rest name
  end.

(** [v, has := m[name]]; hashing the key panics when it is not hashable. *)
Definition mapLookup (reg : Registry) (name : Name)
  : Outcome (option EncoderPool) :=
  if hashable name then Returns (find reg name) else Panics.

Fixpoint replace (reg : Registry) (name : Name) (v : EncoderPool)
  : Registry :=
  match reg with
  | [] => [(name, v)]
  | (k, old) :: rest =>
      if name_eqb k name then (k, v) :: rest
      else (k, old) :: replace rest name v
  end.

(** [m[name] = v]. *)
Definition mapStore (reg : Registry) (name : Name) (v : EncoderPool)
  : Outcome Registry :=
  if hashable name then Returns (replace reg name v) else Panics.

Definition encoderPoolNameDefaultText : Name := NameString "default_text".
Definition encoderPoolNameDefaultJSON : Name := NameString "default_json".

Section Registry.

(** The two package-level default pools. *)
Variable DefaultTextEncoderPool : EncoderPool.
Variable DefaultJSONEncoderPool : EncoderPool.

(** The initial value of [encoderPools]. *)
Definition encoderPools : Registry :=
  [ (encoderPoolNameDefaultText, DefaultTextEncoderPool);
    (encoderPoolNameDefaultJSON, DefaultJSONEncoderPool) ].

(** The registry after the call, and the returned error. *)
Definition RegisterEncoderPool (name : Name) (pool : EncoderPool)
  (reg : Registry) : Outcome (Registry * option regError) :=
  match mapLookup reg name with
  | Panics => Panics
  | Returns (Some _) => Returns (reg, Some (AlreadyExists name))
  | Returns None =>
      match mapStore reg name pool with
      | Panics => Panics
      | Returns reg' => Returns (reg', None)
      end
  end.

Definition GetEncoderPool (name : Name) (reg : Registry)
  : Outcome EncoderPool :=
  if name_eqb name encoderPoolNameDefaultText
  then Returns DefaultTextEncoderPool
  else if name_eqb name encoderPoolNameDefaultJSON
  then Returns DefaultJSONEncoderPool
  else
    match mapLookup reg name with
    | Panics => Panics
    | Returns (Some v) => Returns v
    | Returns None => Returns nilPool
    end.

(** The registry after a sequence of calls of [RegisterEncoderPool] issued
    from the initial one; a call that panics leaves the map as it was. *)
Fixpoint registerAll (calls : list (Name * EncoderPool)) (reg : Registry)
  : Registry :=
  match calls with
  | [] => reg
  | (name, pool) :: rest =>
      match RegisterEncoderPool name pool reg with
      | Returns (reg', _) => registerAll rest reg'
      | Panics => registerAll rest reg
      end
  end.

Definition registryAfter (calls : list (Name * EncoderPool)) : Registry :=
  registerAll calls encoderPools.

(** [name] is a key of the map. *)
Definition registered (reg : Registry) (name : Name) : bool :=
  negb (isNil (find reg name)).

(** [name] was the argument of one of the calls. *)
Definition requested (calls : list (Name * EncoderPool)) (name : Name)
  : bool :=
  existsb (fun c => name_eqb (fst c) name) calls.

End Registry.

End Logit.

(** ** The steps of [Read] and [Write] *)

(** [Read] marks the read as started, calls the wrapped connection, then
    records the error and marks the read as done; another method of the
    adapter may run between the first and the last step.  [beginRead] is
    the first step and [endRead] the last one, given the answer of the
    wrapped connection; likewise for [Write]. *)
Definition beginRead (c : pConn) : pConn :=
  withLock (set_readStat statStart) c.

Definition endRead (r : Resp) (c : pConn) : pConn :=
  withLock (set_readStat statDone) (setErr (resp_err r) c).

Definition beginWrite (c : pConn) : pConn :=
  withLock (set_writeStat statStart) c.

Definition endWrite (r : Resp) (c : pConn) : pConn :=
  withLock (set_writeStat statDone) (setErr (resp_err r) c).

(** The adapter passes the first test of [PEActive]. *)
Definition healthy (c : pConn) : Prop :=
  lastErr c = None /\ isDoing c = false.

(** The environment answers every method call on a connection with a [nil]
    error. *)
Definition rawNeverFails (env : World -> Call -> Resp) : Prop :=
  forall (w : World) (target : NetConn) (m : Method),
    resp_err (env w (RawCall target m)) = None.

(** The entries that a computation added to the log [before]. *)
Definition added (before after : list (Call * Resp)) : list (Call * Resp) :=
  skipn (List.length before) after.

(** The call that a recording method makes on the wrapped connection. *)
Definition callOf (o : Op) (c : pConn) : option Call :=
  match o with
  | OpRead => Some (RawCall (raw c) MRead)
  | OpWrite => Some (RawCall (raw c) MWrite)
  | OpSetDeadline t => Some (RawCall (raw c) (MSetDeadline t))
  | OpSetReadDeadline t => Some (RawCall (raw c) (MSetReadDeadline t))
  | OpSetWriteDeadline t => Some (RawCall (raw c) (MSetWriteDeadline t))
  | _ => None
  end.

(** Every answer of a log carries a [nil] error. *)
Definition allSucceeded (l : list (Call * Resp)) : bool :=
  forallb (fun e => isNil (resp_err (snd e))) l.

(** ** The text encoder *)

Module TextEnc.

(** A [[]byte]; a Go [string] is converted with [bytesOf]. *)
Definition bytes : Type := list Byte.byte.

Definition bytesOf (s : string) : bytes := list_byte_of_string s.

(** [len(b)]. *)
Definition len (b : bytes) : Z := Z.of_nat (List.length b).

(** [type TexEncoderOption struct]. *)
Record TexEncoderOption : Type := mkTexOption {
  KeyPrefix : bytes;
  KeySuffix : bytes;
  ValuePrefix : bytes;
  ValueSuffix : bytes;
  Delim : bytes;
  LineBreak : bytes
}.

Definition DefaultTextEncoderOption : TexEncoderOption :=
  mkTexOption [] [] (bytesOf "[") (bytesOf "]") (bytesOf " ") [Byte.x0a].

(** *** [bytes.Buffer]

    A buffer is its unread content.  [Truncate] panics when its argument is
    out of range.  [WriteTo] hands the content to the writer in one [Write];
    the writer answers the number of bytes it took and an error.  A count
    above the length is a panic; an error, or a short count, leaves the
    bytes that were not taken in the buffer. *)
Definition Buffer : Type := bytes.

Inductive ioError : Type :=
| ErrShortWrite
| WriterError (msg : string).

(** The answer of [w.Write(p)]. *)
Definition Writer : Type := bytes -> nat * option ioError.

(** What a [WriteTo] did: the argument of the call of [Write], if there was
    one, and the two results. *)
Record WriteReport : Type := mkReport {
  sent : option bytes;
  count : Z;
  failure : option ioError
}.

Definition Buffer_Write (p : bytes) (b : Buffer) : Buffer := b ++ p.

Definition Buffer_Truncate (n : Z) (b : Buffer) : Outcome Buffer :=
  if (n <? 0) || (len b <? n) then Panics
  else Returns (firstn (Z.to_nat n) b).

Definition Buffer_WriteTo (w : Writer) (b : Buffer)
  : Outcome (Buffer * WriteReport) :=
  if 0 <? len b then
    let (m, e) := w b in
    if len b <? Z.of_nat m then Panics
    else
      match e with
      | Some err =>
          Returns (skipn m b, mkReport (Some b) (Z.of_nat m) (Some err))
      | None =>
          if Z.of_nat m =? len b
          then Returns ([], mkReport (Some b) (Z.of_nat m) None)
          else Returns (skipn m b,
                        mkReport (Some b) (Z.of_nat m) (Some ErrShortWrite))
      end
  else Returns ([], mkReport None 0 None).

(** *** [TextEncoder] *)

Record TextEncoder : Type := mkText {
  opt : TexEncoderOption;
  buf : Buffer
}.

Definition NewTextEncoder (o : TexEncoderOption) : TextEncoder :=
  mkText o [].

Definition bufWrite (p : bytes) (e : TextEncoder) : TextEncoder :=
  mkText (opt e) (Buffer_Write p (buf e)).

Definition write (key : string) (val : bytes) (e : TextEncoder)
  : TextEncoder :=
  let e := if 0 <? len (KeyPrefix (opt e))
           then bufWrite (KeyPrefix (opt e)) e else e in
  let e := bufWrite (bytesOf key) e in
  let e := if 0 <? len (KeySuffix (opt e))
           then bufWrite (KeySuffix (opt e)) e else e in
  let e := if 0 <? len (ValuePrefix (opt e))
           then bufWrite (ValuePrefix (opt e)) e else e in
  let e := bufWrite val e in
  let e := if 0 <? len (ValueSuffix (opt e))
           then bufWrite (ValueSuffix (opt e)) e else e in
  bufWrite (Delim (opt e)) e.

Definition writeString (key : string) (val : string) (e : TextEncoder)
  : TextEncoder :=
  write key (bytesOf val) e.

Definition Reset (e : TextEncoder) : TextEncoder := mkText (opt e) [].

Definition WriteTo (w : Writer) (e : TextEncoder)
  : Outcome (TextEncoder * WriteReport) :=
  let d := Delim (opt e) in
  match (if len d <? len (buf e)
         then Buffer_Truncate (len (buf e) - len d) (buf e)
         else Returns (buf e)) with
  | Panics => Panics
  | Returns b1 =>
      let b2 := if 0 <? len (LineBreak (opt e))
                then Buffer_Write (LineBreak (opt e)) b1 else b1 in
      match Buffer_WriteTo w b2 with
      | Panics => Panics
      | Returns (b3, report) => Returns (mkText (opt e) b3, report)
      end
  end.

(** [strconv.FormatInt(v, 10)] and [strconv.FormatUint(v, 10)]. *)
Definition FormatInt10 (v : Z) : string :=
  DecimalString.NilEmpty.string_of_int (Z.to_int v).

(** [strconv.FormatUint(v, 16)]. *)
Definition FormatUint16 (v : Z) : string :=
  HexadecimalString.NilEmpty.string_of_uint (N.to_hex_uint (Z.to_N v)).

Section Formatting.

(** [strconv.FormatFloat(float64(ns) / float64(time.Millisecond), 'f', 3,
    64)], as a function of the number of nanoseconds. *)
Variable formatMillis : Z -> string.

(** [strconv.FormatFloat(value, 'f', -1, 64)] and
    [strconv.FormatFloat(float64(value), 'f', -1, 32)], as functions of the
    bits of the float. *)
Variable formatFloat64 : Z -> string.
Variable formatFloat32 : Z -> string.

(** [value.UnixNano()], as a function of the time. *)
Variable UnixNano : Time -> Z.

Definition AddBinary (key : string) (value : bytes) (e : TextEncoder)
  : TextEncoder := write key value e.

Definition AddByteString (key : string) (value : bytes) (e : TextEncoder)
  : TextEncoder := write key value e.

Definition AddBool (key : string) (value : bool) (e : TextEncoder)
  : TextEncoder :=
  if value then write key (bytesOf "true") e
  else write key (bytesOf "false") e.

Definition Microsecond : Duration := 1000.
Definition Millisecond : Duration := 1000000.

Definition AddDuration (key : string) (value : Duration) (e : TextEncoder)
  : TextEncoder :=
  if value <? Microsecond then write key (bytesOf "0") e
  else write key (bytesOf (formatMillis value)) e.

Definition AddFloat64 (key : string) (bits : Z) (e : TextEncoder)
  : TextEncoder := writeString key (formatFloat64 bits) e.

Definition AddFloat32 (key : string) (bits : Z) (e : TextEncoder)
  : TextEncoder := writeString key (formatFloat32 bits) e.

(** [AddInt], [AddInt32], [AddInt16] and [AddInt8] convert their argument
    to [int64] first. *)
Definition AddInt (key : string) (value : Z) (e : TextEncoder)
  : TextEncoder := writeString key (FormatInt10 value) e.

Definition AddInt64 (key : string) (value : Z) (e : TextEncoder)
  : TextEncoder := writeString key (FormatInt10 value) e.

Definition AddInt32 (key : string) (value : Z) (e : TextEncoder)
  : TextEncoder := writeString key (FormatInt10 value) e.

Definition AddInt16 (key : string) (value : Z) (e : TextEncoder)
  : TextEncoder := writeString key (FormatInt10 value) e.

Definition AddInt8 (key : string) (value : Z) (e : TextEncoder)
  : TextEncoder := writeString key (FormatInt10 value) e.

Definition AddString (key : string) (value : string) (e : TextEncoder)
  : TextEncoder := writeString key value e.

Definition AddTime (key : string) (value : Time) (e : TextEncoder)
  : TextEncoder :=
  if value =? zeroTime then writeString key "0" e
  else writeString key (FormatInt10 (Z.quot (UnixNano value) Millisecond)) e.

(** [AddUint], [AddUint32], [AddUint16] and [AddUint8] convert their
    argument to [uint64] first. *)
Definition AddUint (key : string) (value : Z) (e : TextEncoder)
  : TextEncoder := writeString key (FormatInt10 value) e.

Definition AddUint64 (key : string) (value : Z) (e : TextEncoder)
  : TextEncoder := writeString key (FormatInt10 value) e.

Definition AddUint32 (key : string) (value : Z) (e : TextEncoder)
  : TextEncoder := writeString key (FormatInt10 value) e.

Definition AddUint16 (key : string) (value : Z) (e : TextEncoder)
  : TextEncoder := writeString key (FormatInt10 value) e.

Definition AddUint8 (key : string) (value : Z) (e : TextEncoder)
  : TextEncoder := writeString key (FormatInt10 value) e.

Definition AddUintptr (key : string) (value : Z) (e : TextEncoder)
  : TextEncoder := writeString key ("0x" ++ FormatUint16 value) e.

(** An [error] is given by its message. *)
Definition AddError (key : string) (value : option string)
  (e : TextEncoder) : TextEncoder :=
  match value with
  | None => writeString key "nil" e
  | Some msg => writeString key msg e
  end.

(** [AddReflected], given the two results of [json.Marshal(value)]; the
    returned error is always [nil]. *)
Definition AddReflected (key : string) (b : bytes) (err : option string)
  (e : TextEncoder) : TextEncoder * option string :=
  let e := match err with
           | Some msg => AddError key (Some msg) e
           | None => e
           end in
  (write key b e, None).

(** The calls that add to a line. *)
Inductive TextOp : Type :=
| OBinary (key : string) (value : bytes)
| OByteString (key : string) (value : bytes)
| OBool (key : string) (value : bool)
| ODuration (key : string) (value : Duration)
| OFloat64 (key : string) (bits : Z)
| OFloat32 (key : string) (bits : Z)
| OInt (key : string) (value : Z)
| OInt64 (key : string) (value : Z)
| OInt32 (key : string) (value : Z)
| OInt16 (key : string) (value : Z)
| OInt8 (key : string) (value : Z)
| OString (key : string) (value : string)
| OTime (key : string) (value : Time)
| OUint (key : string) (value : Z)
| OUint64 (key : string) (value : Z)
| OUint32 (key : string) (value : Z)
| OUint16 (key : string) (value : Z)
| OUint8 (key : string) (value : Z)
| OUintptr (key : string) (value : Z)
| OError (key : string) (value : option string)
| OReflected (key : string) (b : bytes) (err : option string).

Definition applyOp (o : TextOp) (e : TextEncoder) : TextEncoder :=
  match o with
  | OBinary k v => AddBinary k v e
  | OByteString k v => AddByteString k v e
  | OBool k v => AddBool k v e
  | ODuration k v => AddDuration k v e
  | OFloat64 k v => AddFloat64 k v e
  | OFloat32 k v => AddFloat32 k v e
  | OInt k v => AddInt k v e
  | OInt64 k v => AddInt64 k v e
  | OInt32 k v => AddInt32 k v e
  | OInt16 k v => AddInt16 k v e
  | OInt8 k v => AddInt8 k v e
  | OString k v => AddString k v e
  | OTime k v => AddTime k v e
  | OUint k v => AddUint k v e
  | OUint64 k v => AddUint64 k v e
  | OUint32 k v => AddUint32 k v e
  | OUint16 k v => AddUint16 k v e
  | OUint8 k v => AddUint8 k v e
  | OUintptr k v => AddUintptr k v e
  | OError k v => AddError k v e
  | OReflected k b err => fst (AddReflected k b err e)
  end.

Definition applyAll (ops : list TextOp) (e : TextEncoder) : TextEncoder :=
  fold_left (fun e o => applyOp o e) ops e.

(** The fields, key and text of the value, that a call adds. *)
Definition fieldsOf (o : TextOp) : list (string * bytes) :=
  match o with
  | OBinary k v => [(k, v)]
  | OByteString k v => [(k, v)]
  | OBool k v => [(k, bytesOf (if v then "true" else "false"))]
  | ODuration k v =>
      [(k, bytesOf (if v <? Microsecond then "0" else formatMillis v))]
  | OFloat64 k v => [(k, bytesOf (formatFloat64 v))]
  | OFloat32 k v => [(k, bytesOf (formatFloat32 v))]
  | OInt k v | OInt64 k v | OInt32 k v | OInt16 k v | OInt8 k v =>
      [(k, bytesOf (FormatInt10 v))]
  | OString k v => [(k, bytesOf v)]
  | OTime k v =>
      [(k, bytesOf (if v =? zeroTime then "0"
                    else FormatInt10 (Z.quot (UnixNano v) Millisecond)))]
  | OUint k v | OUint64 k v | OUint32 k v | OUint16 k v | OUint8 k v =>
      [(k, bytesOf (FormatInt10 v))]
  | OUintptr k v => [(k, bytesOf ("0x" ++ FormatUint16 v))]
  | OError k None => [(k, bytesOf "nil")]
  | OError k (Some msg) => [(k, bytesOf msg)]
  | OReflected k b None => [(k, b)]
  | OReflected k b (Some msg) => [(k, bytesOf msg); (k, b)]
  end.

End Formatting.

(** A field as it stands in a line, without the delimiter. *)
Definition body (o : TexEncoderOption) (f : string * bytes) : bytes :=
  KeyPrefix o ++ bytesOf (fst f) ++ KeySuffix o
  ++ ValuePrefix o ++ snd f ++ ValueSuffix o.

(** The fields of a line, with the delimiter between them. *)
Fixpoint joinWith (d : bytes) (l : list bytes) : bytes :=
  match l with
  | [] => []
  | [x] => x
  | x :: rest => x ++ d ++ joinWith d rest
  end.

(** The writer takes all of [b]. *)
Definition accepts (w : Writer) (b : bytes) : Prop :=
  w b = (List.length b, None).

(** The buffer without its last delimiter, when it is longer than the
    delimiter, and the line that [WriteTo] makes of it. *)
Definition content (e : TextEncoder) : bytes :=
  if len (Delim (opt e)) <? len (buf e)
  then firstn (Z.to_nat (len (buf e) - len (Delim (opt e)))) (buf e)
  else buf e.

Definition lineOf (e : TextEncoder) : bytes :=
  content e ++ LineBreak (opt e).

(** The writer keeps to the contract of [io.Writer]: it never reports more
    bytes than it was given. *)
Definition lawful (w : Writer) : Prop :=
  forall b : bytes, (fst (w b) <= List.length b)%nat.

(** A writer that takes everything, and one that takes nothing. *)
Definition greedy : Writer := fun b => (List.length b, None).
Definition stuck : Writer := fun _ => (O, Some (WriterError "EPIPE")).

(** Sample formatting functions, and a line of three fields. *)
Definition noMillis : Z -> string := fun _ => "0.000"%string.
Definition noFloat : Z -> string := fun _ => "0"%string.
Definition sameNano : Time -> Z := fun t => t.

Definition sampleOps : list TextOp :=
  [OString "a" "1"; OBool "ok" true; OInt64 "n" (-12)].

Definition sampleEncoder : TextEncoder :=
  applyAll noMillis noFloat noFloat sameNano sampleOps
    (Reset (NewTextEncoder DefaultTextEncoderOption)).

End TextEnc.

(** ** The JSON encoder *)

Module JsonEnc.

(** The dynamic types of the numbers that the [Add] methods store; a float
    is given by its bits. *)
Inductive NumType : Type :=
| TFloat64 | TFloat32
| TInt | TInt64 | TInt32 | TInt16 | TInt8
| TUint | TUint64 | TUint32 | TUint16 | TUint8 | TUintptr.

(** An [interface{}] stored in the map. *)
Inductive Value : Type :=
| VNil
| VBytes (b : TextEnc.bytes)
| VBool (b : bool)
| VNum (ty : NumType) (v : Z)
| VString (s : string)
| VOther (id : nat).

(** A [map[string]interface{}] value: the entries, one for each key. *)
Definition Fields : Type := list (string * Value).

Fixpoint lookup (key : string) (m : Fields) : option Value :=
  match m with
  | [] => None
  | (k, v) :: rest => if String.eqb k key then Some v else lookup key rest
  end.

Fixpoint store (key : string) (v : Value) (m : Fields) : Fields :=
  match m with
  | [] => [(key, v)]
  | (k, old) :: rest =>
      if String.eqb k key then (k, v) :: rest
      else (k, old) :: store key v rest
  end.

(** The maps that were made, by address.  A map is a reference: two holders
    of one address see the same entries. *)
Definition Heap : Type := list Fields.

Definition heapGet (a : nat) (h : Heap) : Fields := nth a h [].

Fixpoint heapSet (a : nat) (m : Fields) (h : Heap) : Heap :=
  match h, a with
  | [], _ => []
  | _ :: rest, O => m :: rest
  | x :: rest, S a' => x :: heapSet a' m rest
  end.

(** [type JSONEncoder struct]; [kv] is [None] for the [nil] map of a
    [JSONEncoder] that was not made by [NewJSONEncoder]. *)
Record JSONEncoder : Type := mkJSON {
  kv : option nat;
  LineBreak : TextEnc.bytes
}.

(** [make(map[string]interface{}, n)]. *)
Definition makeMap (h : Heap) : nat * Heap := (List.length h, h ++ [[]]).

Definition NewJSONEncoder (h : Heap) : JSONEncoder * Heap :=
  let (a, h') := makeMap h in (mkJSON (Some a) [Byte.x0a], h').

(** [e.kv[key] = value]: a panic on the [nil] map. *)
Definition assign (key : string) (value : Value) (e : JSONEncoder)
  (h : Heap) : Outcome Heap :=
  match kv e with
  | None => Panics
  | Some a => Returns (heapSet a (store key value (heapGet a h)) h)
  end.

Section Conversions.

(** The bits of [float64(value.Nanoseconds()) / float64(time.Millisecond)],
    as a function of the number of nanoseconds. *)
Variable millisFloat : Duration -> Z.

(** [value.Format(time.RFC3339Nano)], as a function of the time. *)
Variable formatRFC3339Nano : Time -> string.

Definition AddBinary (key : string) (value : TextEnc.bytes) :=
  assign key (VBytes value).
Definition AddBool (key : string) (value : bool) :=
  assign key (VBool value).
Definition AddByteString (key : string) (value : TextEnc.bytes) :=
  assign key (VBytes value).
(** [AddDuration] stores the [float64] number of milliseconds. *)
Definition AddDuration (key : string) (value : Duration) :=
  assign key (VNum TFloat64 (millisFloat value)).
Definition AddFloat64 (key : string) (bits : Z) :=
  assign key (VNum TFloat64 bits).
Definition AddFloat32 (key : string) (bits : Z) :=
  assign key (VNum TFloat32 bits).
Definition AddInt (key : string) (value : Z) :=
  assign key (VNum TInt value).
Definition AddInt64 (key : string) (value : Z) :=
  assign key (VNum TInt64 value).
Definition AddInt32 (key : string) (value : Z) :=
  assign key (VNum TInt32 value).
Definition AddInt16 (key : string) (value : Z) :=
  assign key (VNum TInt16 value).
Definition AddInt8 (key : string) (value : Z) :=
  assign key (VNum TInt8 value).
Definition AddString (key : string) (value : string) :=
  assign key (VString value).
(** [AddTime] stores the formatted time, a [string]. *)
Definition AddTime (key : string) (value : Time) :=
  assign key (VString (formatRFC3339Nano value)).
Definition AddUint (key : string) (value : Z) :=
  assign key (VNum TUint value).
Definition AddUint64 (key : string) (value : Z) :=
  assign key (VNum TUint64 value).
Definition AddUint32 (key : string) (value : Z) :=
  assign key (VNum TUint32 value).
Definition AddUint16 (key : string) (value : Z) :=
  assign key (VNum TUint16 value).
Definition AddUint8 (key : string) (value : Z) :=
  assign key (VNum TUint8 value).
Definition AddUintptr (key : string) (value : Z) :=
  assign key (VNum TUintptr value).

(** The new heap and the returned error, which is always [nil]. *)
Definition AddReflected (key : string) (value : Value) (e : JSONEncoder)
  (h : Heap) : Outcome (Heap * option string) :=
  match assign key value e h with
  | Panics => Panics
  | Returns h' => Returns (h', None)
  end.

(** An [error] is given by its message. *)
Definition AddError (key : string) (value : option string) :=
  match value with
  | Some msg => assign key (VString msg)
  | None => assign key VNil
  end.

(** A call of one of the [Add] methods, without the key. *)
Inductive AddCall : Type :=
| CBinary (value : TextEnc.bytes)
| CBool (value : bool)
| CByteString (value : TextEnc.bytes)
| CDuration (value : Duration)
| CFloat64 (bits : Z)
| CFloat32 (bits : Z)
| CInt (value : Z)
| CInt64 (value : Z)
| CInt32 (value : Z)
| CInt16 (value : Z)
| CInt8 (value : Z)
| CString (value : string)
| CTime (value : Time)
| CUint (value : Z)
| CUint64 (value : Z)
| CUint32 (value : Z)
| CUint16 (value : Z)
| CUint8 (value : Z)
| CUintptr (value : Z)
| CReflected (value : Value)
| CError (value : option string).

Definition perform (c : AddCall) (key : string) (e : JSONEncoder)
  (h : Heap) : Outcome Heap :=
  match c with
  | CBinary v => AddBinary key v e h
  | CBool v => AddBool key v e h
  | CByteString v => AddByteString key v e h
  | CDuration v => AddDuration key v e h
  | CFloat64 v => AddFloat64 key v e h
  | CFloat32 v => AddFloat32 key v e h
  | CInt v => AddInt key v e h
  | CInt64 v => AddInt64 key v e h
  | CInt32 v => AddInt32 key v e h
  | CInt16 v => AddInt16 key v e h
  | CInt8 v => AddInt8 key v e h
  | CString v => AddString key v e h
  | CTime v => AddTime key v e h
  | CUint v => AddUint key v e h
  | CUint64 v => AddUint64 key v e h
  | CUint32 v => AddUint32 key v e h
  | CUint16 v => AddUint16 key v e h
  | CUint8 v => AddUint8 key v e h
  | CUintptr v => AddUintptr key v e h
  | CReflected v =>
      match AddReflected key v e h with
      | Returns (h', _) => Returns h'
      | Panics => Panics
      end
  | CError v => AddError key v e h
  end.

(** The [interface{}] that the call leaves in the map: the argument with
    its type, but the number of milliseconds, a [float64], for a duration,
    the formatted text for a time, and the message or [nil] for an
    error. *)
Definition stored (c : AddCall) : Value :=
  match c with
  | CBinary v | CByteString v => VBytes v
  | CBool v => VBool v
  | CDuration v => VNum TFloat64 (millisFloat v)
  | CFloat64 v => VNum TFloat64 v
  | CFloat32 v => VNum TFloat32 v
  | CInt v => VNum TInt v
  | CInt64 v => VNum TInt64 v
  | CInt32 v => VNum TInt32 v
  | CInt16 v => VNum TInt16 v
  | CInt8 v => VNum TInt8 v
  | CString v => VString v
  | CTime v => VString (formatRFC3339Nano v)
  | CUint v => VNum TUint v
  | CUint64 v => VNum TUint64 v
  | CUint32 v => VNum TUint32 v
  | CUint16 v => VNum TUint16 v
  | CUint8 v => VNum TUint8 v
  | CUintptr v => VNum TUintptr v
  | CReflected v => v
  | CError (Some msg) => VString msg
  | CError None => VNil
  end.

End Conversions.

(** [len(e.kv)]; the length of the [nil] map is zero. *)
Definition size (e : JSONEncoder) (h : Heap) : nat :=
  match kv e with
  | None => O
  | Some a => List.length (heapGet a h)
  end.

Definition Reset (e : JSONEncoder) (h : Heap) : JSONEncoder * Heap :=
  let (a, h') := makeMap h in (mkJSON (Some a) (LineBreak e), h').

(** [e.kv[key]]: [nil] for a missing key and on the [nil] map. *)
Definition ValueOf (key : string) (e : JSONEncoder) (h : Heap) : Value :=
  match kv e with
  | None => VNil
  | Some a =>
      match lookup key (heapGet a h) with
      | Some v => v
      | None => VNil
      end
  end.

(** [Values] returns the map itself, not a copy. *)
Definition Values (e : JSONEncoder) : option nat := kv e.

(** The entries seen through a map that [Values] returned. *)
Definition entries (m : option nat) (h : Heap) : Fields :=
  match m with
  | None => []
  | Some a => heapGet a h
  end.

(** The encoder holds a map that was made. *)
Definition allocated (e : JSONEncoder) (h : Heap) : Prop :=
  exists a : nat, kv e = Some a /\ (a < List.length h)%nat.

(** Sample conversions, and a heap with one encoder, made by
    [NewJSONEncoder]. *)
Definition sampleMillis : Duration -> Z := fun d => d.
Definition sampleFormat : Time -> string :=
  fun _ => "2021-04-13T00:00:00Z"%string.

Definition sampleJSON : JSONEncoder := fst (NewJSONEncoder []).
Definition sampleHeap : Heap := snd (NewJSONEncoder []).

End JsonEnc.

(** ** The pool of encoders *)

Module EncPool.

(** What the pool uses of the [FieldEncoder] interface. *)
Class FieldEncoder (E : Type) : Type := {
  Reset : E -> E
}.

#[global] Instance TextEncoder_FieldEncoder
  : FieldEncoder TextEnc.TextEncoder := {
  Reset := TextEnc.Reset
}.

(** An encoder is used through a pointer: the pool and its callers hold
    addresses, and the encoders live in the memory of the program. *)
Definition Addr : Type := nat.

Section Pool.

Context {E : Type} `{FieldEncoder E}.

Definition load (a : Addr) (heap : list E) : option E := nth_error heap a.

Fixpoint store (a : Addr) (e : E) (heap : list E) : list E :=
  match heap, a with
  | [], _ => []
  | _ :: rest, O => e :: rest
  | x :: rest, S a' => x :: store a' e rest
  end.

(** A method call on the encoder at [a]. *)
Definition modify (a : Addr) (f : E -> E) (heap : list E) : list E :=
  match load a heap with
  | Some e => store a (f e) heap
  | None => heap
  end.

(** The list without its [i]-th element. *)
Definition without (i : nat) (l : list Addr) : list Addr :=
  firstn i l ++ skipn (S i) l.

(** The memory of the program and [type encoderPool struct]: the pointers
    that the [sync.Pool] holds, and its [New] function, which gives the
    encoder that [newFn()] allocates, or [None] when [newFn()] is [nil]. *)
Record PoolState : Type := mkPoolState {
  heap : list E;
  items : list Addr;
  newFn : unit -> option E
}.

Definition NewEncoderPool (newFn : unit -> option E) (heap : list E)
  : PoolState :=
  mkPoolState heap [] newFn.

(** [f.pool.Get().(FieldEncoder)].  The run time picks one of the items and
    removes it, or treats the pool as empty, and then [New] makes the
    result; the type assertion panics on [nil]. *)
Definition Get (pick : option nat) (st : PoolState)
  : Outcome (Addr * PoolState) :=
  match pick with
  | Some i =>
      match nth_error (items st) i with
      | Some a =>
          Returns (a, mkPoolState (heap st) (without i (items st)) (newFn st))
      | None =>
          match newFn st tt with
          | Some e =>
              Returns (List.length (heap st),
                       mkPoolState (heap st ++ [e]) (items st) (newFn st))
          | None => Panics
          end
      end
  | None =>
      match newFn st tt with
      | Some e =>
          Returns (List.length (heap st),
                   mkPoolState (heap st ++ [e]) (items st) (newFn st))
      | None => Panics
      end
  end.

(** [enc.Reset(); f.pool.Put(enc)]: the encoder is reset where it is, and
    the pool keeps the pointer.  [Reset] on [nil] panics. *)
Definition Put (enc : option Addr) (st : PoolState) : Outcome PoolState :=
  match enc with
  | None => Panics
  | Some a =>
      Returns (mkPoolState (modify a Reset (heap st)) (items st ++ [a])
                           (newFn st))
  end.

(** What happens around a pool: a [Get] with the choice of the run time, a
    [Put], an encoder that a caller allocates itself, a method call on an
    encoder, an item dropped by the run time. *)
Inductive Event : Type :=
| EvGet (pick : option nat)
| EvPut (enc : option Addr)
| EvNew (e : E)
| EvUse (a : Addr) (f : E -> E)
| EvDrop (i : nat).

(** One event: the address it hands to the caller, if any, and the state
    after it. *)
Definition step (ev : Event) (st : PoolState)
  : Outcome (option Addr * PoolState) :=
  match ev with
  | EvGet pick =>
      match Get pick st with
      | Returns (a, st') => Returns (Some a, st')
      | Panics => Panics
      end
  | EvPut enc =>
      match Put enc st with
      | Returns st' => Returns (None, st')
      | Panics => Panics
      end
  | EvNew e =>
      Returns (Some (List.length (heap st)),
               mkPoolState (heap st ++ [e]) (items st) (newFn st))
  | EvUse a f =>
      Returns (None, mkPoolState (modify a f (heap st)) (items st) (newFn st))
  | EvDrop i =>
      Returns (None, mkPoolState (heap st) (without i (items st)) (newFn st))
  end.

(** What the [Get] calls of a history return, each with the encoder that is
    behind the pointer at that moment, and the state after the history; a
    panic ends it. *)
Fixpoint history (evs : list Event) (st : PoolState)
  : list (Addr * option E) * Outcome PoolState :=
  match evs with
  | [] => ([], Returns st)
  | ev :: rest =>
      match step ev st with
      | Panics => ([], Panics)
      | Returns (got, st') =>
          let (gets, final) := history rest st' in
          (match ev, got with
           | EvGet _, Some a => (a, load a (heap st')) :: gets
           | _, _ => gets
           end, final)
      end
  end.

(** The encoder is as [Reset] leaves it. *)
Definition clean (e : E) : Prop := Reset e = e.

(** The event touches only an encoder that its caller holds. *)
Definition holds (ev : Event) (owned : list Addr) : Prop :=
  match ev with
  | EvPut (Some a) => In a owned
  | EvUse a _ => In a owned
  | _ => True
  end.

(** The encoders in the hands of callers after an event: the ones received
    from [Get] or allocated, less the one put back. *)
Definition ownedAfter (ev : Event) (got : option Addr) (owned : list Addr)
  : list Addr :=
  match ev with
  | EvPut (Some a) => remove Nat.eq_dec a owned
  | EvGet _ | EvNew _ =>
      match got with
      | Some a => a :: owned
      | None => owned
      end
  | _ => owned
  end.

(** Callers use and put back only encoders they hold: none is used after
    its [Put], and none is put twice. *)
Fixpoint disciplined (evs : list Event) (st : PoolState)
  (owned : list Addr) : Prop :=
  match evs with
  | [] => True
  | ev :: rest =>
      holds ev owned
      /\ match step ev st with
         | Panics => True
         | Returns (got, st') => disciplined rest st' (ownedAfter ev got owned)
         end
  end.

(** The pool holds each pointer once, every pooled encoder is clean, and
    the encoders in the hands of callers are allocated and not pooled. *)
Definition settled (st : PoolState) (owned : list Addr) : Prop :=
  NoDup (items st)
  /\ (forall a : Addr,
        In a (items st) ->
        exists e : E, load a (heap st) = Some e /\ clean e)
  /\ (forall a : Addr,
        In a owned -> (a < List.length (heap st))%nat /\ ~ In a (items st)).

End Pool.

End EncPool.

(** * Properties *)

(** ** Arithmetic of the fixed-width types *)

Lemma wrap_uint64_small (z : Z) : is_uint64 z -> wrap_uint64 z = z.
Proof.
  unfold is_uint64, maxUint64, wrap_uint64. intros H.
  apply Z.mod_small. lia.
Qed.

Lemma wrap_uint64_idem (a b : Z) :
  wrap_uint64 (wrap_uint64 a + b) = wrap_uint64 (a + b).
Proof. unfold wrap_uint64. apply Zplus_mod_idemp_l. Qed.

Lemma wrap_int64_small (z : Z) : is_int64 z -> wrap_int64 z = z.
Proof.
  unfold is_int64, minInt64, maxInt64, wrap_int64. intros H.
  rewrite Z.mod_small; lia.
Qed.

Lemma wrap_int64_idem (a b : Z) :
  wrap_int64 (wrap_int64 a + b) = wrap_int64 (a + b).
Proof.
  unfold wrap_int64.
  replace ((a + 2 ^ 63) mod 2 ^ 64 - 2 ^ 63 + b + 2 ^ 63)
    with ((a + 2 ^ 63) mod 2 ^ 64 + b) by ring.
  rewrite Zplus_mod_idemp_l. f_equal. f_equal. ring.
Qed.

Lemma wrap_uint64_range (z : Z) : is_uint64 (wrap_uint64 z).
Proof.
  unfold is_uint64, maxUint64, wrap_uint64.
  pose proof (Z.mod_pos_bound z (2 ^ 64) ltac:(lia)). lia.
Qed.

Lemma wrap_int64_range (z : Z) : is_int64 (wrap_int64 z).
Proof.
  unfold is_int64, minInt64, maxInt64, wrap_int64.
  pose proof (Z.mod_pos_bound (z + 2 ^ 63) (2 ^ 64) ltac:(lia)). lia.
Qed.

Lemma Sub_exact (t u : Time) : is_int64 (t - u) -> Sub t u = t - u.
Proof.
  unfold is_int64, Sub, minDuration, maxDuration. intros [Hlo Hhi].
  destruct (Z.ltb_spec (t - u) minInt64); [lia|].
  destruct (Z.ltb_spec maxInt64 (t - u)); [lia|]. reflexivity.
Qed.

Lemma Sub_is_int64 (t u : Time) : is_int64 (Sub t u).
Proof.
  unfold is_int64, Sub, minDuration, maxDuration, minInt64, maxInt64.
  destruct (Z.ltb_spec (t - u) (- 2 ^ 63)); [lia|].
  destruct (Z.ltb_spec (2 ^ 63 - 1) (t - u)); lia.
Qed.

(** Saturation does not change the comparison with a positive [int64]
    bound. *)
Lemma Sub_reaches (m : Duration) (t u : Time) :
  is_int64 m ->
  (0 <? m) && (m <=? Sub t u) = (0 <? m) && (m <=? t - u).
Proof.
  unfold is_int64, Sub, minDuration, maxDuration, minInt64, maxInt64.
  intros [Hlo Hhi].
  destruct (Z.ltb_spec 0 m); [cbn [andb]|reflexivity].
  destruct (Z.ltb_spec (t - u) (- 2 ^ 63)).
  - destruct (Z.leb_spec m (- 2 ^ 63)), (Z.leb_spec m (t - u));
      try reflexivity; lia.
  - destruct (Z.ltb_spec (2 ^ 63 - 1) (t - u)); [|reflexivity].
    destruct (Z.leb_spec m (2 ^ 63 - 1)), (Z.leb_spec m (t - u));
      try reflexivity; lia.
Qed.

(** ** The metadata tracker *)

Section MetaFacts.

Variable clock : nat -> Time.

(** The error returned by [Active], in terms of the clock readings. *)
Lemma Active_result (w : MetaInfo) (opt : Option) (wd : World) :
  fst (Active clock w opt wd) =
  if (0 <? MaxIdleTime opt)
     && (MaxIdleTime opt <=? Sub (clock (ticks wd)) (LastUseTime (meta w)))
  then Some ErrOutOfMaxIdleTime
  else if (0 <? MaxLifeTime opt)
          && (MaxLifeTime opt
              <=? Sub (clock (if 0 <? MaxIdleTime opt
                              then S (ticks wd) else ticks wd))
                      (CreateTime (meta w)))
  then Some ErrOutOfMaxLife
  else None.
Proof.
  unfold Active, andalso, Since, Now, bind, ret.
  destruct (0 <? MaxIdleTime opt); simpl.
  - destruct (MaxIdleTime opt <=? _); simpl; [reflexivity|].
    destruct (0 <? MaxLifeTime opt); simpl; [|reflexivity].
    destruct (MaxLifeTime opt <=? _); reflexivity.
  - destruct (0 <? MaxLifeTime opt); simpl; [|reflexivity].
    destruct (MaxLifeTime opt <=? _); reflexivity.
Qed.

(** [Active] makes no outgoing call. *)
Lemma Active_log (w : MetaInfo) (opt : Option) (wd : World) :
  log (snd (Active clock w opt wd)) = log wd.
Proof.
  unfold Active, andalso, Since, Now, bind, ret.
  destruct (0 <? MaxIdleTime opt); simpl.
  - destruct (MaxIdleTime opt <=? _); simpl; [reflexivity|].
    destruct (0 <? MaxLifeTime opt); simpl; [|reflexivity].
    destruct (MaxLifeTime opt <=? _); reflexivity.
  - destruct (0 <? MaxLifeTime opt); simpl; [|reflexivity].
    destruct (MaxLifeTime opt <=? _); reflexivity.
Qed.

(** C4. [Active] returns [ErrOutOfMaxIdleTime] exactly when [MaxIdleTime] is
    positive and the time elapsed since [LastUseTime], at the reading of the
    clock taken for that check, has reached [MaxIdleTime]; otherwise it
    returns [ErrOutOfMaxLife] exactly when [MaxLifeTime] is positive and the
    time elapsed since [CreateTime], at the reading taken for that check, has
    reached [MaxLifeTime]; otherwise it returns [nil].  A zero bound
    disables its check, and the idle check takes priority. *)
Theorem Active_exactly (w : MetaInfo) (opt : Option) (wd : World) :
  Option_wf opt ->
  let tIdle := clock (ticks wd) in
  let tLife := clock (if 0 <? MaxIdleTime opt
                      then S (ticks wd) else ticks wd) in
  let idleOut := 0 < MaxIdleTime opt
                 /\ MaxIdleTime opt <= tIdle - LastUseTime (meta w) in
  let lifeOut := 0 < MaxLifeTime opt
                 /\ MaxLifeTime opt <= tLife - CreateTime (meta w) in
  let res := fst (Active clock w opt wd) in
  (res = Some ErrOutOfMaxIdleTime <-> idleOut)
  /\ (res = Some ErrOutOfMaxLife <-> ~ idleOut /\ lifeOut)
  /\ (res = None <-> ~ idleOut /\ ~ lifeOut)
  /\ (MaxIdleTime opt = 0 -> res <> Some ErrOutOfMaxIdleTime)
  /\ (MaxLifeTime opt = 0 -> res <> Some ErrOutOfMaxLife)
  /\ (idleOut -> lifeOut -> res = Some ErrOutOfMaxIdleTime).
Proof.
  intros [Hi Hl] tIdle tLife idleOut lifeOut res.
  assert (Hres : res =
    if (0 <? MaxIdleTime opt)
       && (MaxIdleTime opt <=? tIdle - LastUseTime (meta w))
    then Some ErrOutOfMaxIdleTime
    else if (0 <? MaxLifeTime opt)
            && (MaxLifeTime opt <=? tLife - CreateTime (meta w))
    then Some ErrOutOfMaxLife else None).
  { unfold res. rewrite Active_result.
    rewrite (Sub_reaches _ _ _ Hi), (Sub_reaches _ _ _ Hl). reflexivity. }
  clearbody res. subst res. unfold idleOut, lifeOut.
  destruct (Z.ltb_spec 0 (MaxIdleTime opt)),
    (Z.leb_spec (MaxIdleTime opt) (tIdle - LastUseTime (meta w)));
    destruct (Z.ltb_spec 0 (MaxLifeTime opt)),
      (Z.leb_spec (MaxLifeTime opt) (tLife - CreateTime (meta w)));
    simpl; repeat split; intros; try discriminate; try lia;
    try reflexivity; try (intros [? ?]; lia); try tauto.
Qed.

End MetaFacts.

(** A witness for [Active_exactly]: after 60ns of idleness with a bound of
    50ns the idle check fires. *)
Lemma Active_exactly_witness :
  Option_wf (mkOption 50 0)
  /\ fst (Active (fun n => 100 * Z.of_nat n)
                 (mkMetaInfo (mkMeta 0 40 1 0) false)
                 (mkOption 50 0) (mkWorld 1 []))
     = Some ErrOutOfMaxIdleTime.
Proof.
  assert (Hwf : Option_wf (mkOption 50 0)).
  { unfold Option_wf, is_int64, minInt64, maxInt64; simpl; lia. }
  split; [exact Hwf|].
  apply (proj1 (Active_exactly (fun n => 100 * Z.of_nat n)
                  (mkMetaInfo (mkMeta 0 40 1 0) false)
                  (mkOption 50 0) (mkWorld 1 []) Hwf)).
  simpl. lia.
Defined.

(** ** Accounting of the uses *)

Section MetaRuns.

Variable clock : nat -> Time.

Lemma PEMarkUsing_unfold (w : MetaInfo) (wd : World) :
  PEMarkUsing clock w wd =
  (mkMetaInfo (mkMeta (CreateTime (meta w)) (clock (ticks wd))
                      (wrap_uint64 (UsedTimes (meta w) + 1))
                      (UsedDuration (meta w))) true,
   mkWorld (S (ticks wd)) (log wd)).
Proof. reflexivity. Qed.

Lemma PEMarkIdle_unfold (w : MetaInfo) (wd : World) :
  PEMarkIdle clock w wd =
  (mkMetaInfo (mkMeta (CreateTime (meta w)) (clock (ticks wd))
                      (UsedTimes (meta w))
                      (wrap_int64 (UsedDuration (meta w)
                                   + Sub (clock (ticks wd))
                                         (LastUseTime (meta w))))) false,
   mkWorld (S (ticks wd)) (log wd)).
Proof. reflexivity. Qed.

Lemma useCycles_S (k : nat) (w : MetaInfo) (wd : World) :
  useCycles clock (S k) w wd =
  useCycles clock k
    (fst (PEMarkIdle clock (fst (PEMarkUsing clock w wd))
            (snd (PEMarkUsing clock w wd))))
    (snd (PEMarkIdle clock (fst (PEMarkUsing clock w wd))
            (snd (PEMarkUsing clock w wd)))).
Proof. reflexivity. Qed.

(** The counters stay values of their types. *)
Lemma NewMetaInfo_wf (wd : World) :
  Meta_wf (meta (fst (NewMetaInfo clock wd))).
Proof.
  unfold Meta_wf, is_uint64, is_int64, maxUint64, minInt64, maxInt64.
  cbn. lia.
Qed.

Lemma stepMeta_wf (o : MetaOp) (w : MetaInfo) (wd : World) :
  Meta_wf (meta w) -> Meta_wf (meta (fst (stepMeta clock o w wd))).
Proof.
  intros [Ht Hd]. destruct o; cbn [stepMeta].
  - rewrite PEMarkUsing_unfold. split; [apply wrap_uint64_range|exact Hd].
  - rewrite PEMarkIdle_unfold. split; [exact Ht|apply wrap_int64_range].
Qed.

(** The counters after [k] cycles, with the wrap-around of each type. *)
Lemma useCycles_counters (k : nat) :
  forall (w : MetaInfo) (wd : World),
    Meta_wf (meta w) ->
    let w' := fst (useCycles clock k w wd) in
    UsedTimes (meta w') = wrap_uint64 (UsedTimes (meta w) + Z.of_nat k)
    /\ UsedDuration (meta w') =
       wrap_int64 (UsedDuration (meta w)
                   + cycleDurations clock (ticks wd) k).
Proof.
  induction k as [|k IH]; intros w wd [Ht Hd]; cbv zeta.
  - cbn [useCycles ret fst cycleDurations Z.of_nat]. rewrite !Z.add_0_r.
    rewrite wrap_uint64_small, wrap_int64_small by assumption.
    split; reflexivity.
  - rewrite useCycles_S.
    pose proof (stepMeta_wf OpMarkUsing w wd (conj Ht Hd)) as Hwf1.
    cbn [stepMeta] in Hwf1.
    pose proof (stepMeta_wf OpMarkIdle _ (snd (PEMarkUsing clock w wd)) Hwf1)
      as Hwf2.
    cbn [stepMeta] in Hwf2.
    destruct (IH _ (snd (PEMarkIdle clock (fst (PEMarkUsing clock w wd))
                           (snd (PEMarkUsing clock w wd)))) Hwf2)
      as [Ht' Hd'].
    rewrite Ht', Hd'. rewrite PEMarkUsing_unfold. cbn [fst snd].
    rewrite PEMarkIdle_unfold.
    cbn [fst snd meta LastUseTime UsedTimes UsedDuration CreateTime ticks
         cycleDurations].
    rewrite wrap_uint64_idem, wrap_int64_idem. split; f_equal; lia.
Qed.

(** On a non-decreasing clock the durations of consecutive cycles are
    non-negative and add up to at most the time spanned by the cycles. *)
Lemma cycleElapsed_bounds (Hmono : monotone clock) (k : nat) :
  forall n : nat,
    0 <= cycleElapsed clock n k
    /\ cycleElapsed clock n k <= clock (n + 2 * k)%nat - clock n.
Proof.
  induction k as [|k IH]; intros n; cbn [cycleElapsed].
  - replace (n + 2 * 0)%nat with n by lia. lia.
  - destruct (IH (S (S n))) as [Hlo Hhi].
    replace (S (S n) + 2 * k)%nat with (n + 2 * S k)%nat in Hhi by lia.
    pose proof (Hmono n (S n) ltac:(lia)).
    pose proof (Hmono (S n) (S (S n)) ltac:(lia)).
    lia.
Qed.

Lemma cycleDurations_exact (Hmono : monotone clock) (k : nat) :
  forall n : nat,
    clock (n + 2 * k)%nat - clock n <= maxInt64 ->
    cycleDurations clock n k = cycleElapsed clock n k.
Proof.
  induction k as [|k IH]; intros n Hspan; cbn [cycleDurations cycleElapsed];
    [reflexivity|].
  pose proof (Hmono n (S n) ltac:(lia)).
  pose proof (Hmono (S n) (S (S n)) ltac:(lia)).
  pose proof (Hmono (S n) (n + 2 * S k)%nat ltac:(lia)).
  pose proof (Hmono (S (S n)) (n + 2 * S k)%nat ltac:(lia)).
  rewrite IH.
  - rewrite Sub_exact; [reflexivity|].
    unfold is_int64, minInt64, maxInt64 in *. lia.
  - replace (S (S n) + 2 * k)%nat with (n + 2 * S k)%nat by lia. lia.
Qed.

(** C5, as the code has it.  [PEMarkUsing] sets [using], stamps
    [LastUseTime] and increments [UsedTimes] modulo 2^64; [PEMarkIdle] adds
    the elapsed time since [LastUseTime], saturated to a [Duration], into
    [UsedDuration] with the wrap-around of [int64], stamps [LastUseTime] and
    clears [using].  After [k] complete cycles from a fresh [MetaInfo],
    [UsedTimes] is [k] modulo 2^64 and [UsedDuration] is the wrapped sum of
    the [k] durations: [UsedTimes] is [k] when [k] fits [uint64], and
    [UsedDuration] is the exact sum on a non-decreasing clock whose readings
    span no more than the largest [Duration]. *)
Theorem mark_cycles_accounting (w : MetaInfo) (wd : World) (k : nat) :
  (let w' := fst (PEMarkUsing clock w wd) in
   using_ w' = true
   /\ LastUseTime (meta w') = clock (ticks wd)
   /\ UsedTimes (meta w') = wrap_uint64 (UsedTimes (meta w) + 1)
   /\ (UsedTimes (meta w) + 1 <= maxUint64 -> 0 <= UsedTimes (meta w) ->
       UsedTimes (meta w') = UsedTimes (meta w) + 1))
  /\ (let w' := fst (PEMarkIdle clock w wd) in
      UsedDuration (meta w') =
        wrap_int64 (UsedDuration (meta w)
                    + Sub (clock (ticks wd)) (LastUseTime (meta w)))
      /\ LastUseTime (meta w') = clock (ticks wd)
      /\ using_ w' = false)
  /\ (let fresh := NewMetaInfo clock wd in
      let first := ticks (snd fresh) in
      let w' := fst (useCycles clock k (fst fresh) (snd fresh)) in
      UsedTimes (meta w') = wrap_uint64 (Z.of_nat k)
      /\ UsedDuration (meta w') = wrap_int64 (cycleDurations clock first k)
      /\ (Z.of_nat k <= maxUint64 -> UsedTimes (meta w') = Z.of_nat k)
      /\ (monotone clock ->
          clock (first + 2 * k)%nat - clock first <= maxInt64 ->
          UsedDuration (meta w') = cycleElapsed clock first k)).
Proof.
  split; [|split].
  - cbv zeta. rewrite PEMarkUsing_unfold.
    cbn [fst using_ meta LastUseTime UsedTimes].
    repeat split. intros Hhi Hlo. apply wrap_uint64_small.
    unfold is_uint64. lia.
  - cbv zeta. rewrite PEMarkIdle_unfold.
    cbn [fst using_ meta LastUseTime UsedDuration]. repeat split.
  - cbv zeta.
    assert (Hcount : UsedTimes
                (meta (fst (useCycles clock k (fst (NewMetaInfo clock wd))
                              (snd (NewMetaInfo clock wd)))))
              = wrap_uint64 (Z.of_nat k)
            /\ UsedDuration
                (meta (fst (useCycles clock k (fst (NewMetaInfo clock wd))
                              (snd (NewMetaInfo clock wd)))))
              = wrap_int64
                  (cycleDurations clock (ticks (snd (NewMetaInfo clock wd)))
                     k)).
    { destruct (useCycles_counters k (fst (NewMetaInfo clock wd))
                  (snd (NewMetaInfo clock wd)) (NewMetaInfo_wf wd))
        as [Ht Hd].
      rewrite Ht, Hd. split; f_equal. }
    destruct Hcount as [Ht Hd]. rewrite Ht, Hd.
    split; [reflexivity|]. split; [reflexivity|]. split.
    + intros Hk. apply wrap_uint64_small. unfold is_uint64. lia.
    + intros Hmono Hspan.
      rewrite (cycleDurations_exact Hmono k _ Hspan).
      apply wrap_int64_small.
      destruct (cycleElapsed_bounds Hmono k
                  (ticks (snd (NewMetaInfo clock wd)))) as [Hlo Hhi].
      unfold is_int64, minInt64, maxInt64 in *. lia.
Qed.

End MetaRuns.

(** A run of [mark_cycles_accounting]: three cycles on a clock that advances
    by 10ns a reading are counted as three uses and 30ns of use. *)
Lemma mark_cycles_accounting_witness :
  let clock := fun n : nat => 10 * Z.of_nat n in
  let fresh := NewMetaInfo clock (mkWorld 0 []) in
  let w' := fst (useCycles clock 3 (fst fresh) (snd fresh)) in
  UsedTimes (meta w') = 3 /\ UsedDuration (meta w') = 30.
Proof.
  cbv zeta.
  destruct (mark_cycles_accounting (fun n : nat => 10 * Z.of_nat n)
              (mkMetaInfo zeroMeta false) (mkWorld 0 []) 3)
    as (_ & _ & _ & _ & Ht & Hd).
  split.
  - apply Ht. unfold maxUint64. simpl. lia.
  - rewrite Hd.
    + reflexivity.
    + intros i j Hij. lia.
    + unfold maxInt64. simpl. lia.
Defined.

(** C5 as stated fails on a fresh [MetaInfo] that is marked idle before it
    was ever marked in use.  Its [LastUseTime] is still the zero time; the
    time elapsed since then, some 2026 years, is no [Duration], and
    [PEMarkIdle] adds the largest [Duration] in its place.  A second
    [PEMarkIdle], one nanosecond later, makes the sum wrap around. *)
Lemma mark_idle_saturates_counterexample :
  let clock := fun n : nat => 63900000000000000000 + Z.of_nat n in
  let fresh := NewMetaInfo clock (mkWorld 0 []) in
  let idle1 := PEMarkIdle clock (fst fresh) (snd fresh) in
  let idle2 := PEMarkIdle clock (fst idle1) (snd idle1) in
  let elapsed1 :=
    clock (ticks (snd fresh)) - LastUseTime (meta (fst fresh)) in
  let elapsed2 :=
    clock (ticks (snd idle1)) - LastUseTime (meta (fst idle1)) in
  UsedDuration (meta (fst fresh)) = 0
  /\ elapsed1 = 63900000000000000001
  /\ UsedDuration (meta (fst idle1)) = maxInt64
  /\ UsedDuration (meta (fst idle1))
     <> UsedDuration (meta (fst fresh)) + elapsed1
  /\ elapsed2 = 1
  /\ UsedDuration (meta (fst idle2)) = minInt64
  /\ UsedDuration (meta (fst idle2))
     <> UsedDuration (meta (fst idle1)) + elapsed2.
Proof.
  cbv zeta. repeat split; vm_compute; try reflexivity; discriminate.
Qed.

(** ** Monotonicity of the tracked quantities *)

Section MetaMonotone.

Variable clock : nat -> Time.
Hypothesis clock_mono : monotone clock.

Lemma noDecrease_refl (a : Meta) : noDecrease a a.
Proof. unfold noDecrease. repeat split; lia. Qed.

Lemma noDecrease_trans (a b c : Meta) :
  noDecrease a b -> noDecrease b c -> noDecrease a c.
Proof.
  unfold noDecrease. intros (H1 & H2 & H3 & H4) (K1 & K2 & K3 & K4).
  repeat split; try lia; congruence.
Qed.

Lemma stepMeta_tracked (o : MetaOp) (w : MetaInfo) (wd : World) :
  tracked clock w wd -> stepFits clock o w wd ->
  tracked clock (fst (stepMeta clock o w wd)) (snd (stepMeta clock o w wd))
  /\ noDecrease (meta w) (meta (fst (stepMeta clock o w wd))).
Proof.
  intros [[Ht Hd] Hlast] Hfit.
  pose proof (clock_mono (ticks wd) (S (ticks wd)) ltac:(lia)) as Hnext.
  destruct o; cbn [stepMeta stepFits] in *.
  - rewrite PEMarkUsing_unfold.
    cbn [fst snd meta ticks LastUseTime UsedTimes UsedDuration CreateTime].
    rewrite wrap_uint64_small
      by (unfold is_uint64 in *; lia).
    unfold tracked, Meta_wf, noDecrease, is_uint64, is_int64 in *.
    cbn [fst snd meta ticks LastUseTime UsedTimes UsedDuration CreateTime].
    repeat split; lia.
  - rewrite PEMarkIdle_unfold.
    cbn [fst snd meta ticks LastUseTime UsedTimes UsedDuration CreateTime].
    pose proof (Sub_is_int64 (clock (ticks wd)) (LastUseTime (meta w)))
      as Hsub.
    assert (Hpos : 0 <= Sub (clock (ticks wd)) (LastUseTime (meta w))).
    { unfold Sub, minDuration, maxDuration, minInt64, maxInt64.
      destruct (Z.ltb_spec (clock (ticks wd) - LastUseTime (meta w))
                  (- 2 ^ 63)); [lia|].
      destruct (Z.ltb_spec (2 ^ 63 - 1)
                  (clock (ticks wd) - LastUseTime (meta w))); lia. }
    rewrite wrap_int64_small
      by (unfold is_int64 in *; lia).
    unfold tracked, Meta_wf, noDecrease, is_uint64, is_int64 in *.
    cbn [fst snd meta ticks LastUseTime UsedTimes UsedDuration CreateTime].
    repeat split; lia.
Qed.

Lemma runMeta_tracked (ops : list MetaOp) :
  forall (w : MetaInfo) (wd : World),
    tracked clock w wd -> noWrap clock ops w wd ->
    tracked clock (fst (runMeta clock ops w wd)) (snd (runMeta clock ops w wd))
    /\ noDecrease (meta w) (meta (fst (runMeta clock ops w wd))).
Proof.
  induction ops as [|o ops IH]; intros w wd Htr Hfit.
  - split; [exact Htr | apply noDecrease_refl].
  - destruct Hfit as [Hstep Hrest].
    destruct (stepMeta_tracked o w wd Htr Hstep) as [Htr1 Hle1].
    destruct (IH _ _ Htr1 Hrest) as [Htr2 Hle2].
    cbn [runMeta]. unfold bind.
    destruct (stepMeta clock o w wd) as [w1 wd1]. cbn [fst snd] in *.
    split; [exact Htr2 | exact (noDecrease_trans _ _ _ Hle1 Hle2)].
Qed.

Lemma runMeta_app (ops1 ops2 : list MetaOp) :
  forall (w : MetaInfo) (wd : World),
    runMeta clock (ops1 ++ ops2) w wd =
    runMeta clock ops2 (fst (runMeta clock ops1 w wd))
      (snd (runMeta clock ops1 w wd)).
Proof.
  induction ops1 as [|o ops1 IH]; intros w wd; [reflexivity|].
  cbn [app runMeta]. unfold bind.
  destruct (stepMeta clock o w wd) as [w1 wd1]. apply IH.
Qed.

Lemma noWrap_app (ops1 ops2 : list MetaOp) :
  forall (w : MetaInfo) (wd : World),
    noWrap clock (ops1 ++ ops2) w wd ->
    noWrap clock ops1 w wd
    /\ noWrap clock ops2 (fst (runMeta clock ops1 w wd))
         (snd (runMeta clock ops1 w wd)).
Proof.
  induction ops1 as [|o ops1 IH]; intros w wd H; [split; [exact I|exact H]|].
  cbn [app noWrap] in H. destruct H as [Hstep Hrest].
  destruct (IH _ _ Hrest) as [H1 H2].
  cbn [noWrap runMeta]. unfold bind.
  destruct (stepMeta clock o w wd) as [w1 wd1]. cbn [fst snd] in *.
  repeat split; assumption.
Qed.

Lemma runMeta_created (ops : list MetaOp) :
  forall (w : MetaInfo) (wd : World),
    CreateTime (meta (fst (runMeta clock ops w wd))) = CreateTime (meta w).
Proof.
  induction ops as [|o ops IH]; intros w wd; [reflexivity|].
  cbn [runMeta]. unfold bind.
  destruct (stepMeta clock o w wd) as [w1 wd1] eqn:E.
  rewrite IH. destruct o; cbn [stepMeta] in E;
    [rewrite PEMarkUsing_unfold in E|rewrite PEMarkIdle_unfold in E];
    injection E as <- _; reflexivity.
Qed.

(** Every transition stamps the reading it took. *)
Lemma stepMeta_stamp (o : MetaOp) (w : MetaInfo) (wd : World) :
  LastUseTime (meta (fst (stepMeta clock o w wd))) = clock (ticks wd)
  /\ ticks (snd (stepMeta clock o w wd)) = S (ticks wd).
Proof. destruct o; split; reflexivity. Qed.

Lemma runMeta_last (ops : list MetaOp) :
  forall (w : MetaInfo) (wd : World),
    LastUseTime (meta w) <= clock (ticks wd) ->
    LastUseTime (meta w) <= LastUseTime (meta (fst (runMeta clock ops w wd)))
    /\ LastUseTime (meta (fst (runMeta clock ops w wd)))
       <= clock (ticks (snd (runMeta clock ops w wd))).
Proof.
  induction ops as [|o ops IH]; intros w wd Hlast.
  - cbn [runMeta ret fst snd]. split; [lia|exact Hlast].
  - cbn [runMeta]. unfold bind.
    destruct (stepMeta_stamp o w wd) as [Hs Ht].
    destruct (stepMeta clock o w wd) as [w1 wd1]. cbn [fst snd] in *.
    pose proof (clock_mono (ticks wd) (S (ticks wd)) ltac:(lia)) as Hnext.
    destruct (IH w1 wd1) as [H1 H2]; [rewrite Hs, Ht; exact Hnext|].
    split; [lia|exact H2].
Qed.

Lemma countUsing_app (ops1 ops2 : list MetaOp) :
  countUsing (ops1 ++ ops2) = (countUsing ops1 + countUsing ops2)%nat.
Proof.
  induction ops1 as [|[|] ops1 IH]; cbn [app countUsing];
    [reflexivity|rewrite IH; reflexivity|exact IH].
Qed.

Lemma runMeta_times (ops : list MetaOp) :
  forall (w : MetaInfo) (wd : World),
    0 <= UsedTimes (meta w) ->
    UsedTimes (meta w) + Z.of_nat (countUsing ops) <= maxUint64 ->
    UsedTimes (meta (fst (runMeta clock ops w wd)))
    = UsedTimes (meta w) + Z.of_nat (countUsing ops).
Proof.
  induction ops as [|o ops IH]; intros w wd Hpos Hfit.
  - cbn [runMeta ret fst countUsing Z.of_nat]. lia.
  - cbn [runMeta]. unfold bind. destruct o; cbn [stepMeta countUsing] in *.
    + rewrite PEMarkUsing_unfold. cbn [fst snd].
      assert (Hone : wrap_uint64 (UsedTimes (meta w) + 1)
                     = UsedTimes (meta w) + 1)
        by (apply wrap_uint64_small; unfold is_uint64; lia).
      rewrite IH; cbn [meta UsedTimes]; rewrite Hone; lia.
    + rewrite PEMarkIdle_unfold. cbn [fst snd].
      rewrite IH; cbn [meta UsedTimes]; lia.
Qed.

Lemma durationFits_app (ops1 ops2 : list MetaOp) :
  forall (w : MetaInfo) (wd : World),
    durationFits clock (ops1 ++ ops2) w wd ->
    durationFits clock ops1 w wd
    /\ durationFits clock ops2 (fst (runMeta clock ops1 w wd))
         (snd (runMeta clock ops1 w wd)).
Proof.
  induction ops1 as [|o ops1 IH]; intros w wd H; [split; [exact I|exact H]|].
  cbn [app durationFits] in H. destruct H as [Hstep Hrest].
  destruct (IH _ _ Hrest) as [H1 H2].
  cbn [durationFits runMeta]. unfold bind.
  destruct (stepMeta clock o w wd) as [w1 wd1]. cbn [fst snd] in *.
  repeat split; assumption.
Qed.

Lemma runMeta_duration (ops : list MetaOp) :
  forall (w : MetaInfo) (wd : World),
    is_int64 (UsedDuration (meta w)) ->
    LastUseTime (meta w) <= clock (ticks wd) ->
    durationFits clock ops w wd ->
    UsedDuration (meta w)
    <= UsedDuration (meta (fst (runMeta clock ops w wd)))
    /\ is_int64 (UsedDuration (meta (fst (runMeta clock ops w wd))))
    /\ LastUseTime (meta (fst (runMeta clock ops w wd)))
       <= clock (ticks (snd (runMeta clock ops w wd))).
Proof.
  induction ops as [|o ops IH]; intros w wd Hd Hlast Hfit.
  - cbn [runMeta ret fst snd]. split; [lia|]. split; assumption.
  - cbn [durationFits] in Hfit. destruct Hfit as [Hstep Hrest].
    pose proof (clock_mono (ticks wd) (S (ticks wd)) ltac:(lia)) as Hnext.
    cbn [runMeta]. unfold bind. destruct o; cbn [stepMeta] in *.
    + rewrite PEMarkUsing_unfold in *. cbn [fst snd] in *.
      pose proof (fun a b => IH _ _ a b Hrest) as IH'.
      cbn [meta UsedDuration LastUseTime ticks] in IH'.
      destruct (IH' Hd Hnext) as (H1 & H2 & H3).
      split; [exact H1|]. split; [exact H2|exact H3].
    + rewrite PEMarkIdle_unfold in *. cbn [fst snd] in *.
      assert (Hpos : 0 <= Sub (clock (ticks wd)) (LastUseTime (meta w))).
      { unfold Sub, minDuration, maxDuration, minInt64, maxInt64.
        destruct (Z.ltb_spec (clock (ticks wd) - LastUseTime (meta w))
                    (- 2 ^ 63)); [lia|].
        destruct (Z.ltb_spec (2 ^ 63 - 1)
                    (clock (ticks wd) - LastUseTime (meta w))); lia. }
      assert (Hsmall : wrap_int64 (UsedDuration (meta w)
                                   + Sub (clock (ticks wd))
                                         (LastUseTime (meta w)))
                       = UsedDuration (meta w)
                         + Sub (clock (ticks wd)) (LastUseTime (meta w)))
        by (apply wrap_int64_small; unfold is_int64 in *; lia).
      rewrite Hsmall in *.
      pose proof (fun a b => IH _ _ a b Hrest) as IH'.
      cbn [meta UsedDuration LastUseTime ticks] in IH'.
      destruct (IH' ltac:(unfold is_int64 in *; lia) Hnext)
        as (H1 & H2 & H3).
      split; [lia|]. split; [exact H2|exact H3].
Qed.

(** C6, as the code has it.  Take two points of a sequence of [PEMarkUsing]
    and [PEMarkIdle] transitions on a non-decreasing clock.  [CreateTime] is
    at both what it was at the start, whatever the clock and the counters.
    [LastUseTime] at the later point is not before [LastUseTime] at the
    earlier one, when the [LastUseTime] the sequence starts from is not
    ahead of the clock.  [UsedTimes] does not decrease when the increments
    of the sequence fit [uint64].  [UsedDuration] does not decrease when
    [LastUseTime] starts not ahead of the clock and no addition of the
    sequence overflows [int64]. *)
Theorem tracked_never_decrease (w : MetaInfo) (wd : World)
  (ops1 ops2 : list MetaOp) :
  let earlier := fst (runMeta clock ops1 w wd) in
  let later := fst (runMeta clock (ops1 ++ ops2) w wd) in
  (CreateTime (meta earlier) = CreateTime (meta w)
   /\ CreateTime (meta later) = CreateTime (meta w))
  /\ (LastUseTime (meta w) <= clock (ticks wd) ->
      LastUseTime (meta earlier) <= LastUseTime (meta later))
  /\ (0 <= UsedTimes (meta w) ->
      UsedTimes (meta w) + Z.of_nat (countUsing (ops1 ++ ops2))
      <= maxUint64 ->
      UsedTimes (meta earlier) <= UsedTimes (meta later))
  /\ (is_int64 (UsedDuration (meta w)) ->
      LastUseTime (meta w) <= clock (ticks wd) ->
      durationFits clock (ops1 ++ ops2) w wd ->
      UsedDuration (meta earlier) <= UsedDuration (meta later)).
Proof.
  intros earlier later. unfold earlier, later. rewrite runMeta_app.
  split; [|split; [|split]].
  - rewrite !runMeta_created. split; reflexivity.
  - intros Hlast. destruct (runMeta_last ops1 w wd Hlast) as [_ H1].
    exact (proj1 (runMeta_last ops2 _ _ H1)).
  - intros Hpos Hfit. rewrite countUsing_app, Nat2Z.inj_add in Hfit.
    assert (H1 := runMeta_times ops1 w wd Hpos ltac:(lia)).
    rewrite (runMeta_times ops2); rewrite H1; lia.
  - intros Hd Hlast Hfit.
    destruct (durationFits_app ops1 ops2 w wd Hfit) as [Hfit1 Hfit2].
    destruct (runMeta_duration ops1 w wd Hd Hlast Hfit1) as (_ & Hd1 & Hl1).
    exact (proj1 (runMeta_duration ops2 _ _ Hd1 Hl1 Hfit2)).
Qed.

(** Complete cycles do not overflow as long as their number fits the
    counter and the time they span fits the accumulator. *)
Lemma cycles_noWrap (k : nat) :
  forall (w : MetaInfo) (wd : World),
    Meta_wf (meta w) ->
    UsedTimes (meta w) + Z.of_nat k <= maxUint64 ->
    0 <= UsedDuration (meta w) ->
    UsedDuration (meta w)
    + (clock (ticks wd + 2 * k)%nat - clock (ticks wd)) <= maxInt64 ->
    noWrap clock (cycleOps k) w wd.
Proof.
  induction k as [|k IH]; intros w wd [Ht Hd] Hcount Hpos Hspan;
    [exact I|].
  pose proof (clock_mono (ticks wd) (S (ticks wd)) ltac:(lia)) as H01.
  pose proof (clock_mono (S (ticks wd)) (S (S (ticks wd))) ltac:(lia)) as H12.
  pose proof (clock_mono (S (S (ticks wd))) (ticks wd + 2 * S k)%nat
                ltac:(lia)) as H2n.
  assert (Hsub : Sub (clock (S (ticks wd))) (clock (ticks wd))
                 = clock (S (ticks wd)) - clock (ticks wd)).
  { apply Sub_exact. unfold is_int64, minInt64, maxInt64 in *. lia. }
  cbn [cycleOps noWrap stepFits stepMeta].
  rewrite PEMarkUsing_unfold. cbn [fst snd].
  rewrite PEMarkIdle_unfold.
  cbn [fst snd meta ticks LastUseTime UsedTimes UsedDuration CreateTime].
  rewrite Hsub.
  split; [lia|]. split; [lia|].
  assert (Hsmall : wrap_int64 (UsedDuration (meta w)
                               + (clock (S (ticks wd)) - clock (ticks wd)))
                   = UsedDuration (meta w)
                     + (clock (S (ticks wd)) - clock (ticks wd))).
  { apply wrap_int64_small. unfold is_int64, minInt64, maxInt64 in *. lia. }
  assert (Hcnt : wrap_uint64 (UsedTimes (meta w) + 1)
                 = UsedTimes (meta w) + 1).
  { apply wrap_uint64_small. unfold is_uint64 in *. lia. }
  apply IH; cbn [meta ticks UsedTimes UsedDuration].
  - split; [apply wrap_uint64_range|apply wrap_int64_range].
  - rewrite Hcnt. lia.
  - rewrite Hsmall. lia.
  - rewrite Hsmall.
    replace (S (S (ticks wd)) + 2 * k)%nat with (ticks wd + 2 * S k)%nat
      by lia.
    lia.
Qed.

End MetaMonotone.

(** A run of [tracked_never_decrease]: a fresh [MetaInfo], seen after its
    first use has begun and again after that use has ended and the next one
    has begun. *)
Lemma tracked_never_decrease_witness :
  let clock := fun n : nat => 10 * Z.of_nat n in
  let fresh := NewMetaInfo clock (mkWorld 1 []) in
  let earlier := fst (runMeta clock [OpMarkUsing] (fst fresh) (snd fresh)) in
  let later :=
    fst (runMeta clock ([OpMarkUsing] ++ [OpMarkIdle; OpMarkUsing])
           (fst fresh) (snd fresh)) in
  monotone clock
  /\ LastUseTime (meta (fst fresh)) <= clock (ticks (snd fresh))
  /\ durationFits clock ([OpMarkUsing] ++ [OpMarkIdle; OpMarkUsing])
       (fst fresh) (snd fresh)
  /\ CreateTime (meta later) = 10
  /\ LastUseTime (meta earlier) <= LastUseTime (meta later)
  /\ UsedTimes (meta earlier) <= UsedTimes (meta later)
  /\ UsedDuration (meta earlier) <= UsedDuration (meta later).
Proof.
  cbv zeta.
  assert (Hmono : monotone (fun n : nat => 10 * Z.of_nat n))
    by (intros i j Hij; lia).
  assert (Hlast : LastUseTime
                    (meta (fst (NewMetaInfo (fun n : nat => 10 * Z.of_nat n)
                                  (mkWorld 1 []))))
                  <= 10 * Z.of_nat
                            (ticks (snd (NewMetaInfo
                                           (fun n : nat => 10 * Z.of_nat n)
                                           (mkWorld 1 [])))))
    by (vm_compute; discriminate).
  assert (Hfit : durationFits (fun n : nat => 10 * Z.of_nat n)
                   ([OpMarkUsing] ++ [OpMarkIdle; OpMarkUsing])
                   (fst (NewMetaInfo (fun n : nat => 10 * Z.of_nat n)
                           (mkWorld 1 [])))
                   (snd (NewMetaInfo (fun n : nat => 10 * Z.of_nat n)
                           (mkWorld 1 []))))
    by (vm_compute; repeat split; discriminate).
  destruct (tracked_never_decrease (fun n : nat => 10 * Z.of_nat n) Hmono
              (fst (NewMetaInfo (fun n : nat => 10 * Z.of_nat n)
                      (mkWorld 1 [])))
              (snd (NewMetaInfo (fun n : nat => 10 * Z.of_nat n)
                      (mkWorld 1 [])))
              [OpMarkUsing] [OpMarkIdle; OpMarkUsing])
    as ((_ & Hc) & Hl & Ht & Hd).
  split; [exact Hmono|]. split; [exact Hlast|]. split; [exact Hfit|].
  split; [rewrite Hc; reflexivity|]. split; [exact (Hl Hlast)|].
  split.
  - apply Ht; vm_compute; discriminate.
  - apply Hd; [|exact Hlast|exact Hfit].
    split; vm_compute; discriminate.
Defined.

(** C6 as stated fails on a fresh [MetaInfo]: its [LastUseTime] is the zero
    time, so a first [PEMarkIdle] adds the largest [Duration], and the next
    one, a nanosecond later, wraps [UsedDuration] to a negative value.  The
    clock starts some 2026 years after the zero time and never goes
    back. *)
Lemma used_duration_decreases_counterexample :
  let clock := fun n : nat => 63900000000000000000 + Z.of_nat n in
  let fresh := NewMetaInfo clock (mkWorld 0 []) in
  let once := runMeta clock [OpMarkIdle] (fst fresh) (snd fresh) in
  let twice := runMeta clock [OpMarkIdle; OpMarkIdle] (fst fresh) (snd fresh) in
  monotone clock
  /\ UsedDuration (meta (fst once)) = maxInt64
  /\ UsedDuration (meta (fst twice)) = minInt64
  /\ UsedDuration (meta (fst twice)) < UsedDuration (meta (fst once)).
Proof.
  cbv zeta. split; [intros i j Hij; lia|].
  split; [vm_compute; reflexivity|].
  split; [vm_compute; reflexivity|].
  vm_compute. reflexivity.
Qed.

(** ** The connection adapter *)

Section AdapterFacts.

Variable clock : nat -> Time.
Variable env : World -> Call -> Resp.

Lemma call_unfold (k : Call) (wd : World) :
  call env k wd = (env wd k, mkWorld (ticks wd) (log wd ++ [(k, env wd k)])).
Proof. reflexivity. Qed.

Lemma lastErr_setErr (err : option error) (c : pConn) :
  lastErr (setErr err c) =
  match err with Some e => Some e | None => lastErr c end.
Proof. destruct err; reflexivity. Qed.

Lemma setErr_keeps (err : option error) (c : pConn) :
  metaInfo (setErr err c) = metaInfo c
  /\ pool (setErr err c) = pool c
  /\ raw (setErr err c) = raw c
  /\ readStat (setErr err c) = readStat c
  /\ writeStat (setErr err c) = writeStat c.
Proof. destruct err; repeat split. Qed.

Lemma setErr_sticky (err : option error) (c : pConn) :
  lastErr c <> None -> lastErr (setErr err c) <> None.
Proof. rewrite lastErr_setErr. destruct err; [discriminate|tauto]. Qed.

Lemma isDoing_true (c : pConn) :
  isDoing c = true <-> readStat c = statStart \/ writeStat c = statStart.
Proof.
  unfold isDoing. rewrite orb_true_iff, !Z.eqb_eq. reflexivity.
Qed.

(** *** [PEActive] *)

Lemma nestedPEActive_unfold (c : pConn) (wd : World) :
  nestedPEActive env c wd =
  if conn_isPEActiver (raw c)
  then (Some (resp_err (env wd (RawCall (raw c) MPEActive))),
        mkWorld (ticks wd)
          (log wd ++ [(RawCall (raw c) MPEActive,
                       env wd (RawCall (raw c) MPEActive))]))
  else (None, wd).
Proof.
  unfold nestedPEActive. destruct (conn_isPEActiver (raw c)); reflexivity.
Qed.

Lemma connCheck_unfold (target : NetConn) (wd : World) :
  connCheck env target wd =
  (resp_err (env wd (ConnCheck target)),
   mkWorld (ticks wd)
     (log wd ++ [(ConnCheck target, env wd (ConnCheck target))])).
Proof. reflexivity. Qed.

(** [PEActive] as the sequence of its three checks, each started in the
    world the previous one left. *)
Lemma PEActive_unfold (c : pConn) (wd : World) :
  PEActive clock env c wd =
  if negb (isNil (lastErr c)) || isDoing c then (Some ErrBadValue, wd)
  else
    let a := Active clock (metaInfo c) (pool_Option (pool c)) wd in
    match fst a with
    | Some e => (Some e, snd a)
    | None =>
        let n := nestedPEActive env c (snd a) in
        match fst n with
        | Some (Some e) => (Some e, snd n)
        | _ => connCheck env (getRawConn c) (snd n)
        end
    end.
Proof.
  unfold PEActive. destruct (negb (isNil (lastErr c)) || isDoing c);
    [reflexivity|].
  unfold bind at 1. cbv zeta.
  destruct (Active clock (metaInfo c) (pool_Option (pool c)) wd) as [ea wa].
  cbn [fst snd]. destruct ea as [e|]; [reflexivity|].
  unfold bind at 1.
  destruct (nestedPEActive env c wa) as [ra wn]. cbn [fst snd].
  destruct ra as [[e|]|]; try reflexivity.
  - unfold bind. destruct (connCheck env (getRawConn c) wn) as [[e|] wp];
      reflexivity.
  - unfold bind. destruct (connCheck env (getRawConn c) wn) as [[e|] wp];
      reflexivity.
Qed.

Lemma gate_open (c : pConn) :
  negb (isNil (lastErr c)) || isDoing c = false <->
  lastErr c = None /\ isDoing c = false.
Proof.
  rewrite orb_false_iff. destruct (lastErr c); simpl; split;
    intros [H1 H2]; split; congruence.
Qed.

(** [PEActive] spelled out on the fields of the adapter, the readings of
    the clock and the answers of the environment. *)
Lemma PEActive_explicit (c : pConn) (wd : World) :
  let opt := pool_Option (pool c) in
  let idleRead := 0 <? MaxIdleTime opt in
  let idleOut :=
    idleRead
    && (MaxIdleTime opt
        <=? Sub (clock (ticks wd)) (LastUseTime (meta (metaInfo c)))) in
  let lifeTick := if idleRead then S (ticks wd) else ticks wd in
  let lifeRead := 0 <? MaxLifeTime opt in
  let lifeOut :=
    lifeRead
    && (MaxLifeTime opt
        <=? Sub (clock lifeTick) (CreateTime (meta (metaInfo c)))) in
  let wa := mkWorld (if lifeRead then S lifeTick else lifeTick) (log wd) in
  let nested := RawCall (raw c) MPEActive in
  let wn := if conn_isPEActiver (raw c)
            then mkWorld (ticks wa) (log wa ++ [(nested, env wa nested)])
            else wa in
  let probe :=
    ConnCheck match raw c with
              | Conn _ _ (Some inner) => inner
              | Conn _ _ None => raw c
              end in
  let wp := mkWorld (ticks wn) (log wn ++ [(probe, env wn probe)]) in
  PEActive clock env c wd =
  if negb (isNil (lastErr c))
     || (readStat c =? statStart) || (writeStat c =? statStart)
  then (Some ErrBadValue, wd)
  else if idleOut then (Some ErrOutOfMaxIdleTime, mkWorld lifeTick (log wd))
  else if lifeOut then (Some ErrOutOfMaxLife, wa)
  else if conn_isPEActiver (raw c)
       then match resp_err (env wa nested) with
            | Some e => (Some e, wn)
            | None => (resp_err (env wn probe), wp)
            end
       else (resp_err (env wn probe), wp).
Proof.
  destruct wd as [t l]. cbv zeta. unfold PEActive, isDoing.
  rewrite orb_assoc.
  destruct (negb (isNil (lastErr c)) || (readStat c =? statStart)
            || (writeStat c =? statStart)); [reflexivity|].
  unfold Active, andalso, Since, Now, nestedPEActive, connCheck, getRawConn,
    conn_Raw, call, bind, ret.
  destruct (raw c) as [fd act [inner|]]; cbn [conn_isPEActiver];
    destruct (0 <? MaxIdleTime (pool_Option (pool c)));
    cbn [andb ticks log];
    try (destruct (MaxIdleTime (pool_Option (pool c)) <=? _);
         [reflexivity|]);
    destruct (0 <? MaxLifeTime (pool_Option (pool c)));
    cbn [andb ticks log];
    try (destruct (MaxLifeTime (pool_Option (pool c)) <=? _);
         [reflexivity|]);
    destruct act; cbn [ticks log];
    try (destruct (resp_err (env _ (RawCall _ MPEActive)));
         [reflexivity|]);
    cbn [ticks log];
    destruct (resp_err (env _ (ConnCheck _))); reflexivity.
Qed.

Lemma started_iff (c : pConn) :
  (readStat c =? statStart) || (writeStat c =? statStart) = true <->
  readStat c = statStart \/ writeStat c = statStart.
Proof. rewrite orb_true_iff, !Z.eqb_eq. reflexivity. Qed.

Lemma gate_closed (c : pConn) :
  negb (isNil (lastErr c))
  || (readStat c =? statStart) || (writeStat c =? statStart) = true <->
  lastErr c <> None \/ readStat c = statStart \/ writeStat c = statStart.
Proof.
  rewrite <- orb_assoc, orb_true_iff, started_iff.
  destruct (lastErr c); cbn [isNil negb]; split; intros [H|H];
    try (left; congruence); try (right; assumption);
    try discriminate H; try (exfalso; apply H; reflexivity).
Qed.

(** C1. [PEActive] answers [ErrBadValue], without reading the clock or
    calling anything, whenever an error is recorded or [readStat] or
    [writeStat] is at [statStart].  Otherwise it runs, in this order: the
    idle check and the life check of the metadata against the option of the
    pool, each on its own reading of the clock; the [PEActive] of the
    wrapped connection, when that connection is a [PEActiver]; [connCheck]
    on the result of [Raw()] of the wrapped connection when it has that
    method, and on the wrapped connection itself otherwise.  The first check
    that fails ends the call: its error is returned as it is, and the world
    is the one that check left, so that nothing is read or called after it.
    [nil] is returned exactly when every applicable check passes. *)
Theorem PEActive_checks (c : pConn) (wd : World) :
  let opt := pool_Option (pool c) in
  let idleRead := 0 <? MaxIdleTime opt in
  let idleOut :=
    idleRead
    && (MaxIdleTime opt
        <=? Sub (clock (ticks wd)) (LastUseTime (meta (metaInfo c)))) in
  let lifeTick := if idleRead then S (ticks wd) else ticks wd in
  let lifeRead := 0 <? MaxLifeTime opt in
  let lifeOut :=
    lifeRead
    && (MaxLifeTime opt
        <=? Sub (clock lifeTick) (CreateTime (meta (metaInfo c)))) in
  let wa := mkWorld (if lifeRead then S lifeTick else lifeTick) (log wd) in
  let nested := RawCall (raw c) MPEActive in
  let nestedPasses :=
    conn_isPEActiver (raw c) = false \/ resp_err (env wa nested) = None in
  let wn := if conn_isPEActiver (raw c)
            then mkWorld (ticks wa) (log wa ++ [(nested, env wa nested)])
            else wa in
  let probe :=
    ConnCheck match raw c with
              | Conn _ _ (Some inner) => inner
              | Conn _ _ None => raw c
              end in
  let wp := mkWorld (ticks wn) (log wn ++ [(probe, env wn probe)]) in
  let started := readStat c = statStart \/ writeStat c = statStart in
  let res := PEActive clock env c wd in
  (lastErr c <> None \/ started -> res = (Some ErrBadValue, wd))
  /\ (lastErr c = None -> ~ started ->
      (idleOut = true ->
       res = (Some ErrOutOfMaxIdleTime, mkWorld lifeTick (log wd)))
      /\ (idleOut = false -> lifeOut = true ->
          res = (Some ErrOutOfMaxLife, wa))
      /\ (idleOut = false -> lifeOut = false ->
          (conn_isPEActiver (raw c) = true ->
           forall e : error,
             resp_err (env wa nested) = Some e -> res = (Some e, wn))
          /\ (nestedPasses -> res = (resp_err (env wn probe), wp))))
  /\ (fst res = None <->
      lastErr c = None /\ ~ started /\ idleOut = false /\ lifeOut = false
      /\ nestedPasses /\ resp_err (env wn probe) = None).
Proof.
  intros opt idleRead idleOut lifeTick lifeRead lifeOut wa nested
    nestedPasses wn probe wp started res.
  assert (Hres := PEActive_explicit c wd). cbv zeta in Hres.
  fold opt idleRead in Hres. fold idleOut lifeTick lifeRead in Hres.
  fold lifeOut wa nested in Hres. fold wn probe in Hres. fold wp res in Hres.
  pose proof (gate_closed c) as Hgate. fold started in Hgate.
  destruct (negb (isNil (lastErr c))
            || (readStat c =? statStart) || (writeStat c =? statStart))
    eqn:G.
  - apply proj1 in Hgate. specialize (Hgate eq_refl).
    split; [intros _; exact Hres|]. split.
    + intros He Hs. destruct Hgate as [H|H]; [congruence|contradiction].
    + rewrite Hres. cbn [fst]. split; [discriminate|].
      intros (He & Hs & _). destruct Hgate as [H|H];
        [congruence|contradiction].
  - assert (Hopen : lastErr c = None /\ ~ started).
    { split.
      - destruct (lastErr c) eqn:E; [|reflexivity].
        assert (Some e <> None \/ started) as H by (left; discriminate).
        apply (proj2 Hgate) in H. discriminate H.
      - intros Hs.
        assert (lastErr c <> None \/ started) as H by (right; exact Hs).
        apply (proj2 Hgate) in H. discriminate H. }
    destruct Hopen as [He Hs].
    split.
    { intros Hbad. destruct Hbad as [H|H]; [congruence|contradiction]. }
    unfold nestedPasses in *.
    destruct idleOut eqn:Ei.
    { split.
      - intros _ _. split; [intros _; exact Hres|].
        split; intros H; discriminate H.
      - rewrite Hres. cbn [fst]. split; [discriminate|].
        intros (_ & _ & H & _). discriminate H. }
    destruct lifeOut eqn:El.
    { split.
      - intros _ _. split; [intros H; discriminate H|].
        split; [intros _ _; exact Hres|intros _ H; discriminate H].
      - rewrite Hres. cbn [fst]. split; [discriminate|].
        intros (_ & _ & _ & H & _). discriminate H. }
    destruct (conn_isPEActiver (raw c)) eqn:Ea.
    + destruct (resp_err (env wa nested)) as [e|] eqn:En.
      * split.
        -- intros _ _. split; [intros H; discriminate H|].
           split; [intros _ H; discriminate H|]. intros _ _. split.
           ++ intros _ e' He'. injection He' as <-. exact Hres.
           ++ intros [H|H]; discriminate H.
        -- rewrite Hres. cbn [fst]. split; [discriminate|].
           intros (_ & _ & _ & _ & [H|H] & _); discriminate H.
      * split.
        -- intros _ _. split; [intros H; discriminate H|].
           split; [intros _ H; discriminate H|]. intros _ _. split.
           ++ intros _ e' He'. discriminate He'.
           ++ intros _. exact Hres.
        -- rewrite Hres. cbn [fst]. split.
           ++ intros Hp. repeat split; auto.
           ++ intros (_ & _ & _ & _ & _ & Hp). exact Hp.
    + split.
      * intros _ _. split; [intros H; discriminate H|].
        split; [intros _ H; discriminate H|]. intros _ _. split.
        -- intros H; discriminate H.
        -- intros _. exact Hres.
      * rewrite Hres. cbn [fst]. split.
        -- intros Hp. repeat split; auto.
        -- intros (_ & _ & _ & _ & _ & Hp). exact Hp.
Qed.

End AdapterFacts.

(** Runs of [PEActive_checks].  An adapter with a read in flight is refused
    before anything is read or called; the failure of the [PEActive] of the
    wrapped connection is returned and ends the call before the probe; when
    all passes, the probe is on the socket under the wrapped adapter. *)
Lemma PEActive_checks_witness :
  PEActive steadyClock quietEnv (set_readStat statStart level1)
    (mkWorld 1 [])
  = (Some ErrBadValue, mkWorld 1 [])
  /\ PEActive steadyClock nestedFailsEnv level2 (mkWorld 1 [])
     = (Some (ErrExternal "stale"),
        mkWorld 1 [(RawCall (asNetConn 1 level1) MPEActive,
                    mkResp 0 (Some (ErrExternal "stale")))])
  /\ PEActive steadyClock quietEnv level2 (mkWorld 1 [])
     = (None,
        mkWorld 1 [(RawCall (asNetConn 1 level1) MPEActive, mkResp 0 None);
                   (ConnCheck socket, mkResp 0 None)]).
Proof.
  split; [|split].
  - destruct (PEActive_checks steadyClock quietEnv
                (set_readStat statStart level1) (mkWorld 1 []))
      as (Hbad & _).
    apply Hbad. right. left. reflexivity.
  - destruct (PEActive_checks steadyClock nestedFailsEnv level2
                (mkWorld 1 [])) as (_ & Hgo & _).
    assert (Hs : ~ (readStat level2 = statStart
                    \/ writeStat level2 = statStart))
      by (intros [H|H]; discriminate H).
    destruct (Hgo eq_refl Hs) as (_ & _ & Hchecks).
    destruct (Hchecks eq_refl eq_refl) as [Hnested _].
    exact (Hnested eq_refl (ErrExternal "stale") eq_refl).
  - destruct (PEActive_checks steadyClock quietEnv level2 (mkWorld 1 []))
      as (_ & Hgo & _).
    assert (Hs : ~ (readStat level2 = statStart
                    \/ writeStat level2 = statStart))
      by (intros [H|H]; discriminate H).
    destruct (Hgo eq_refl Hs) as (_ & _ & Hchecks).
    destruct (Hchecks eq_refl eq_refl) as [_ Hprobe].
    exact (Hprobe (or_intror eq_refl)).
Defined.

(** *** [Close], [PEReset] and the recorded error *)

Section AdapterState.

Variable clock : nat -> Time.
Variable env : World -> Call -> Resp.

Ltac solve_close_case :=
  first [ reflexivity
        | discriminate
        | tauto
        | intros [H _]; discriminate H
        | intros [_ H]; discriminate H
        | intros H; exfalso; apply H; reflexivity
        | intros H; exfalso; apply H; split; reflexivity ].

(** The adapter as [Close] hands it to the pool. *)
Lemma Close_unfold (c : pConn) (wd : World) :
  let c' := if isNil (lastErr c) && isDoing c
            then set_lastErr (Some errCloseInRW) c else c in
  Close env c wd =
  ((c', resp_err (env wd (PoolPut (pool c') c'))),
   mkWorld (ticks wd)
     (log wd ++ [(PoolPut (pool c') c', env wd (PoolPut (pool c') c'))])).
Proof. reflexivity. Qed.

(** C2. [Close] makes one outgoing call, the [Put] of the owning pool on the
    adapter, and returns its result: no call of [Close] goes to the wrapped
    connection, which stays in the adapter as it was.  Before the [Put] it
    records [errCloseInRW] if and only if no error was recorded and
    [readStat] or [writeStat] is at [statStart]; nothing else of the adapter
    changes, and the clock is not read.  What the pool does with the adapter
    inside [Put] is not part of the adapter. *)
Theorem Close_hands_back (c : pConn) (wd : World) :
  let started := readStat c = statStart \/ writeStat c = statStart in
  let r := Close env c wd in
  let c' := fst (fst r) in
  let put := PoolPut (pool c) c' in
  log (snd r) = log wd ++ [(put, env wd put)]
  /\ ticks (snd r) = ticks wd
  /\ snd (fst r) = resp_err (env wd put)
  /\ (forall k : Call,
        In k (calls (skipn (List.length (log wd)) (log (snd r)))) ->
        forall (target : NetConn) (m : Method),
          k <> RawCall target m /\ k <> ConnCheck target)
  /\ (lastErr c = None /\ started -> lastErr c' = Some errCloseInRW)
  /\ (~ (lastErr c = None /\ started) -> lastErr c' = lastErr c)
  /\ (lastErr c' <> lastErr c <-> lastErr c = None /\ started)
  /\ metaInfo c' = metaInfo c /\ pool c' = pool c /\ raw c' = raw c
  /\ readStat c' = readStat c /\ writeStat c' = writeStat c.
Proof.
  cbv zeta. rewrite Close_unfold. cbv zeta. cbn [fst snd log ticks].
  assert (Hpool : pool (if isNil (lastErr c) && isDoing c
                        then set_lastErr (Some errCloseInRW) c else c)
                  = pool c)
    by (destruct (isNil (lastErr c) && isDoing c); reflexivity).
  rewrite Hpool.
  split; [reflexivity|]. split; [reflexivity|]. split; [reflexivity|].
  split.
  { rewrite skipn_app, skipn_all, Nat.sub_diag. cbn [skipn app calls map fst].
    intros k [<-|[]] target m. split; discriminate. }
  rewrite <- (isDoing_true c).
  destruct (lastErr c) as [e|] eqn:He; cbn [isNil andb].
  - rewrite He. repeat split; solve_close_case.
  - destruct (isDoing c) eqn:Hd; cbn [set_lastErr lastErr metaInfo pool raw
      readStat writeStat]; rewrite ?He; repeat split; solve_close_case.
Qed.

(** *** The recorded error *)

Lemma Read_lastErr (c : pConn) (wd : World) :
  let r := Read env c wd in
  lastErr (fst (fst r)) =
  match snd (snd (fst r)) with Some e => Some e | None => lastErr c end.
Proof.
  cbv zeta. unfold Read, bind, ret, withLock. rewrite call_unfold.
  cbn [fst snd]. destruct (resp_err _); reflexivity.
Qed.

Lemma Write_lastErr (c : pConn) (wd : World) :
  let r := Write env c wd in
  lastErr (fst (fst r)) =
  match snd (snd (fst r)) with Some e => Some e | None => lastErr c end.
Proof.
  cbv zeta. unfold Write, bind, ret, withLock. rewrite call_unfold.
  cbn [fst snd]. destruct (resp_err _); reflexivity.
Qed.

Lemma SetDeadline_unfold (t : Time) (c : pConn) (wd : World) :
  let k := RawCall (raw c) (MSetDeadline t) in
  SetDeadline env t c wd =
  ((setErr (resp_err (env wd k)) c, resp_err (env wd k)),
   mkWorld (ticks wd) (log wd ++ [(k, env wd k)])).
Proof. reflexivity. Qed.

Lemma SetReadDeadline_unfold (t : Time) (c : pConn) (wd : World) :
  let k := RawCall (raw c) (MSetReadDeadline t) in
  SetReadDeadline env t c wd =
  ((setErr (resp_err (env wd k)) c, resp_err (env wd k)),
   mkWorld (ticks wd) (log wd ++ [(k, env wd k)])).
Proof. reflexivity. Qed.

Lemma SetWriteDeadline_unfold (t : Time) (c : pConn) (wd : World) :
  let k := RawCall (raw c) (MSetWriteDeadline t) in
  SetWriteDeadline env t c wd =
  ((setErr (resp_err (env wd k)) c, resp_err (env wd k)),
   mkWorld (ticks wd) (log wd ++ [(k, env wd k)])).
Proof. reflexivity. Qed.

(** [PEReset], call by call. *)
Lemma PEReset_unfold (c : pConn) (wd : World) :
  let k1 := RawCall (raw c) (MSetDeadline zeroTime) in
  let k2 := RawCall (raw c) (MSetReadDeadline zeroTime) in
  let k3 := RawCall (raw c) (MSetWriteDeadline zeroTime) in
  let r1 := env wd k1 in
  let w1 := mkWorld (ticks wd) (log wd ++ [(k1, r1)]) in
  let r2 := env w1 k2 in
  let w2 := mkWorld (ticks wd) (log w1 ++ [(k2, r2)]) in
  let r3 := env w2 k3 in
  let w3 := mkWorld (ticks wd) (log w2 ++ [(k3, r3)]) in
  PEReset env c wd =
  (set_writeStat statInit
     (set_readStat statInit
        (setErr (resp_err r3) (setErr (resp_err r2)
                                 (setErr (resp_err r1) c)))),
   w3).
Proof.
  cbv zeta. unfold PEReset, bind, ret, withLock.
  rewrite SetDeadline_unfold. cbv zeta. cbn [fst snd].
  rewrite SetReadDeadline_unfold. cbv zeta. cbn [fst snd].
  rewrite SetWriteDeadline_unfold. cbv zeta. cbn [fst snd].
  rewrite !(proj1 (proj2 (proj2 (setErr_keeps _ _)))).
  reflexivity.
Qed.

Lemma PEReset_sticky (c : pConn) (wd : World) :
  lastErr c <> None -> lastErr (fst (PEReset env c wd)) <> None.
Proof.
  intros H. rewrite PEReset_unfold. cbv zeta. cbn [fst].
  cbn [set_writeStat set_readStat lastErr].
  repeat apply setErr_sticky. exact H.
Qed.

Lemma step_sticky (o : Op) (c : pConn) (wd : World) :
  lastErr c <> None -> lastErr (fst (step clock env o c wd)) <> None.
Proof.
  intros H. destruct o; cbn [step].
  - unfold bind. pose proof (Read_lastErr c wd) as L. cbv zeta in L.
    destruct (Read env c wd) as [[c' [n err]] w']. unfold ret.
    cbn [fst snd] in *.
    rewrite L. destruct err; [discriminate|exact H].
  - unfold bind. pose proof (Write_lastErr c wd) as L. cbv zeta in L.
    destruct (Write env c wd) as [[c' [n err]] w']. unfold ret.
    cbn [fst snd] in *.
    rewrite L. destruct err; [discriminate|exact H].
  - unfold bind. rewrite SetDeadline_unfold. cbn [fst].
    apply setErr_sticky, H.
  - unfold bind. rewrite SetReadDeadline_unfold. cbn [fst].
    apply setErr_sticky, H.
  - unfold bind. rewrite SetWriteDeadline_unfold. cbn [fst].
    apply setErr_sticky, H.
  - apply PEReset_sticky, H.
  - unfold bind. rewrite Close_unfold. cbv zeta. cbn [fst].
    destruct (lastErr c) eqn:He; [|contradiction].
    cbn [isNil andb]. unfold ret. cbn [fst]. rewrite He. discriminate.
  - unfold bind. destruct (PEActive clock env c wd). exact H.
  - unfold bind. destruct (PERawClose env c wd). exact H.
  - unfold bind. destruct (PEMarkUsing clock (metaInfo c) wd). exact H.
  - unfold bind. destruct (PEMarkIdle clock (metaInfo c) wd). exact H.
Qed.


(** *** [PEReset] *)

Lemma NetConn_eqb_refl (c : NetConn) : NetConn_eqb c c = true.
Proof.
  revert c. fix IH 1. intros [fd a [inner|]]; cbn [NetConn_eqb].
  - rewrite Nat.eqb_refl, eqb_reflx, IH. reflexivity.
  - rewrite Nat.eqb_refl, eqb_reflx. reflexivity.
Qed.

(** C7. [PEReset] calls, in this order, [SetDeadline], [SetReadDeadline] and
    [SetWriteDeadline] of the wrapped connection with the zero time, and
    leaves both in-flight markers at [statInit].  Unless the reset adapter
    carries a recorded error the three calls succeeded, and then, whatever
    the deadlines and the calls before, the read and the write deadline in
    force on the wrapped connection are the zero time. *)
Theorem PEReset_clears_deadlines (c : pConn) (wd : World) :
  let r := PEReset env c wd in
  readStat (fst r) = statInit
  /\ writeStat (fst r) = statInit
  /\ raw (fst r) = raw c
  /\ calls (log (snd r)) =
     calls (log wd)
     ++ [ RawCall (raw c) (MSetDeadline zeroTime);
          RawCall (raw c) (MSetReadDeadline zeroTime);
          RawCall (raw c) (MSetWriteDeadline zeroTime) ]
  /\ (lastErr (fst r) = None ->
      forall init : Time * Time,
        deadlinesAfter (raw c) init (log (snd r)) = (zeroTime, zeroTime)).
Proof.
  cbv zeta. rewrite PEReset_unfold. cbv zeta. cbn [fst snd log].
  split; [reflexivity|]. split; [reflexivity|]. split.
  { cbn [set_writeStat set_readStat raw].
    rewrite !(proj1 (proj2 (proj2 (setErr_keeps _ _)))). reflexivity. }
  split.
  { unfold calls. rewrite !map_app, <- !app_assoc. reflexivity. }
  cbn [set_writeStat set_readStat lastErr]. rewrite !lastErr_setErr.
  intros Hnil init.
  match type of Hnil with
  | match resp_err ?r3 with _ => _ end = None =>
      destruct r3 as [n3 [e3|]]; cbn [resp_err] in Hnil; [discriminate|]
  end.
  match type of Hnil with
  | match resp_err ?r2 with _ => _ end = None =>
      destruct r2 as [n2 [e2|]]; cbn [resp_err] in Hnil; [discriminate|]
  end.
  match type of Hnil with
  | match resp_err ?r1 with _ => _ end = None =>
      destruct r1 as [n1 [e1|]]; cbn [resp_err] in Hnil; [discriminate|]
  end.
  unfold deadlinesAfter.
  rewrite <- !app_assoc, fold_left_app. cbn [app fold_left].
  cbn [applyDeadline]. rewrite !NetConn_eqb_refl. reflexivity.
Qed.

(** *** [Raw] and [getRawConn] *)

Lemma innermost_depth (c : NetConn) : wrapDepth (innermost c) = O.
Proof.
  revert c. fix IH 1. intros [fd a [inner|]]; cbn [innermost wrapDepth].
  - apply IH.
  - reflexivity.
Qed.

(** C8 on the code.  [Raw] returns the wrapped connection.  [getRawConn]
    follows [Raw()] once: the connection it returns, which [PEActive] hands
    to [connCheck], is the innermost one exactly when at most one wrapper
    stands above the innermost connection.  For an adapter around an adapter
    around an adapter around a socket it is the adapter around the socket,
    not the socket. *)
Theorem getRawConn_unwraps_once :
  (forall c : pConn,
      Raw c = raw c
      /\ (getRawConn c = innermost (raw c) <-> (wrapDepth (raw c) <= 1)%nat))
  /\ Raw level3 = asNetConn 2 level2
  /\ getRawConn level3 = asNetConn 1 level1
  /\ innermost (Raw level3) = socket
  /\ getRawConn level3 <> innermost (Raw level3)
  /\ calls (log (snd (PEActive steadyClock quietEnv level3 (mkWorld 1 []))))
     = [RawCall (asNetConn 2 level2) MPEActive;
        ConnCheck (asNetConn 1 level1)].
Proof.
  split; [|repeat split; discriminate].
  intros c. split; [reflexivity|]. unfold getRawConn.
  destruct (raw c) as [fd a [inner|]]; cbn [conn_Raw innermost wrapDepth].
  - pose proof (innermost_depth inner) as Hd. split.
    + intros Heq. rewrite <- Heq in Hd. lia.
    + intros Hle. destruct inner as [fd' a' [x|]]; cbn [wrapDepth] in Hle;
        [lia|reflexivity].
  - split; [lia|reflexivity].
Qed.

End AdapterState.

(** Runs of [Close_hands_back].  An adapter closed in the middle of a read
    records [errCloseInRW] and goes to its pool; an adapter with no error
    and no call in flight goes to its pool as it is; an adapter whose
    markers are at [statDone] records nothing either. *)
Lemma Close_hands_back_witness :
  let busy := set_readStat statStart level1 in
  let done := set_writeStat statDone (set_readStat statDone level1) in
  let rb := Close quietEnv busy (mkWorld 1 []) in
  let ri := Close quietEnv level1 (mkWorld 1 []) in
  let rd := Close quietEnv done (mkWorld 1 []) in
  lastErr (fst (fst rb)) = Some errCloseInRW
  /\ calls (log (snd rb)) = [PoolPut samplePool (fst (fst rb))]
  /\ lastErr (fst (fst ri)) = None
  /\ calls (log (snd ri)) = [PoolPut samplePool level1]
  /\ lastErr (fst (fst rd)) = None.
Proof.
  cbv zeta.
  destruct (Close_hands_back quietEnv (set_readStat statStart level1)
              (mkWorld 1 [])) as (Hlog & _ & _ & _ & Hrec & _).
  destruct (Close_hands_back quietEnv level1 (mkWorld 1 []))
    as (Hlogi & _ & _ & _ & _ & Hkeep & _).
  destruct (Close_hands_back quietEnv
              (set_writeStat statDone (set_readStat statDone level1))
              (mkWorld 1 [])) as (_ & _ & _ & _ & _ & Hkeepd & _).
  split; [|split; [|split; [|split]]].
  - apply Hrec. split; [reflexivity|left; reflexivity].
  - rewrite Hlog. reflexivity.
  - rewrite Hkeep; [reflexivity|].
    intros [_ [H|H]]; discriminate H.
  - rewrite Hlogi. reflexivity.
  - rewrite Hkeepd; [reflexivity|].
    intros [_ [H|H]]; discriminate H.
Defined.



(** A run of [PEReset_clears_deadlines]: deadlines of 5 and 9 left by the
    previous borrower are gone after the reset. *)
Lemma PEReset_clears_deadlines_witness :
  let r := PEReset quietEnv level1 (mkWorld 1 []) in
  lastErr (fst r) = None
  /\ deadlinesAfter socket (5, 9) (log (snd r)) = (zeroTime, zeroTime).
Proof.
  cbv zeta. split; [reflexivity|].
  destruct (PEReset_clears_deadlines quietEnv level1 (mkWorld 1 []))
    as (_ & _ & _ & _ & Hclear).
  exact (Hclear eq_refl (5, 9)).
Defined.

(** ** [ReadMeta] *)

(** C9, as the code has it.  [ReadMeta] returns exactly the snapshots: the
    [Meta] that a [*MetaInfo] points to, directly or as the embedded field
    of a [*pConn], and what the [PEMeta] method of another type returns.  It
    panics on everything else.  On an item whose dynamic type has no
    [PEMeta() Meta] the type assertion panics: no [Meta], zero or not, and
    no error is returned.  On an item that has the method but no snapshot
    the method itself panics: that is a nil [*MetaInfo], a [MetaInfo] whose
    [meta] is nil, and a [*pConn] that is nil or embeds one of these. *)
Theorem ReadMeta_returns_or_panics (item : Item) :
  (forall m : Meta, ReadMeta item = Returns m <-> snapshotOf item = Some m)
  /\ (ReadMeta item = Panics <-> snapshotOf item = None)
  /\ (implementsPEMeta item = false ->
      ReadMeta item = Panics
      /\ ReadMeta item <> Returns zeroMeta
      /\ forall m : Meta, ReadMeta item <> Returns m)
  /\ (forall w : MetaInfoRef,
        item = ItemMetaInfo w ->
        match w with
        | MetaInfoOf w' => ReadMeta item = Returns (meta w')
        | NilMetaInfo | EmptyMetaInfo _ => ReadMeta item = Panics
        end)
  /\ (forall c : PConnRef,
        item = ItemPConn c ->
        match c with
        | PConnOf (MetaInfoOf w') => ReadMeta item = Returns (meta w')
        | NilPConn | PConnOf NilMetaInfo | PConnOf (EmptyMetaInfo _) =>
            ReadMeta item = Panics
        end).
Proof.
  split; [|split; [|split; [|split]]].
  - intros m.
    destruct item as [|[|u|w]|[|[|u|w]]|w|m0|ty [[m0|]|]];
      cbn; split; intros H; try discriminate H;
      injection H as <-; reflexivity.
  - destruct item as [|[|u|w]|[|[|u|w]]|w|m0|ty [[m0|]|]];
      cbn; split; intros H; try discriminate H; reflexivity.
  - intros H.
    destruct item as [|w|c|w|m0|ty [r|]]; cbn [implementsPEMeta isNil negb] in H;
      try discriminate H;
      (split; [reflexivity|split; [discriminate|intros m1; discriminate]]).
  - intros w ->. destruct w; reflexivity.
  - intros c ->. destruct c as [|[|u|w]]; reflexivity.
Qed.

(** Runs of [ReadMeta_returns_or_panics]: the adapter made by [newPConn] has
    a snapshot; a [Meta] value has no [PEMeta] method; a nil [*MetaInfo] has
    the method and no snapshot. *)
Lemma ReadMeta_returns_or_panics_witness :
  ReadMeta (ItemPConn (refOf level1)) = Returns (mkMeta 0 zeroTime 0 0)
  /\ ReadMeta (ItemMeta zeroMeta) = Panics
  /\ ReadMeta (ItemMetaInfo NilMetaInfo) = Panics.
Proof.
  split; [|split].
  - destruct (ReadMeta_returns_or_panics (ItemPConn (refOf level1)))
      as (_ & _ & _ & _ & Hc).
    exact (Hc (refOf level1) eq_refl).
  - destruct (ReadMeta_returns_or_panics (ItemMeta zeroMeta))
      as (_ & _ & Hno & _).
    exact (proj1 (Hno eq_refl)).
  - destruct (ReadMeta_returns_or_panics (ItemMetaInfo NilMetaInfo))
      as (_ & _ & _ & Hw & _).
    exact (Hw NilMetaInfo eq_refl).
Defined.

(** C9 as stated fails on the values that have the method [PEMeta] and
    nothing behind it: on a nil [*MetaInfo], on [new(MetaInfo)], whose [meta]
    is nil, and on [&pConn{}], whose embedded [*MetaInfo] is nil, the type
    assertion succeeds and the call panics. *)
Lemma nil_receiver_counterexample :
  (implementsPEMeta (ItemMetaInfo NilMetaInfo) = true
   /\ ReadMeta (ItemMetaInfo NilMetaInfo) = Panics)
  /\ (implementsPEMeta (ItemMetaInfo (EmptyMetaInfo false)) = true
      /\ ReadMeta (ItemMetaInfo (EmptyMetaInfo false)) = Panics)
  /\ (implementsPEMeta (ItemPConn (PConnOf NilMetaInfo)) = true
      /\ ReadMeta (ItemPConn (PConnOf NilMetaInfo)) = Panics)
  /\ ~ (forall item : Item,
          implementsPEMeta item = true ->
          exists m : Meta, ReadMeta item = Returns m).
Proof.
  repeat split.
  intros H. destruct (H (ItemMetaInfo NilMetaInfo) eq_refl) as [m Hm].
  discriminate Hm.
Qed.

(** ** The registry of encoder pools *)

Section RegistryFacts.

Import Logit.

Variable DefaultTextEncoderPool : EncoderPool.
Variable DefaultJSONEncoderPool : EncoderPool.

(** The registry reached by a sequence of calls. *)
Local Abbreviation reached calls :=
  (registryAfter DefaultTextEncoderPool DefaultJSONEncoderPool calls).

Local Abbreviation Get name reg :=
  (GetEncoderPool DefaultTextEncoderPool DefaultJSONEncoderPool name reg).

Lemma name_eqb_eq (a : Name) :
  forall b : Name, name_eqb a b = true -> a = b.
Proof.
  induction a as [|s|z|x| |l|a IH]; intros b; destruct b;
    cbn [name_eqb]; intros H; try discriminate H.
  - reflexivity.
  - apply String.eqb_eq in H. congruence.
  - apply Z.eqb_eq in H. congruence.
  - apply eqb_prop in H. congruence.
  - f_equal. exact (IH _ H).
Qed.

(** A value that equals itself holds no slice. *)
Lemma self_equal_hashable (n : Name) :
  name_eqb n n = true -> hashable n = true.
Proof.
  induction n as [|s|z|x| |l|n IH]; cbn [name_eqb hashable]; intros H;
    try reflexivity; try discriminate H.
  exact (IH H).
Qed.

Lemma registered_self_equal (reg : Registry) (name : Name) :
  registered reg name = true ->
  hashable name = true /\ name_eqb name name = true.
Proof.
  unfold registered. induction reg as [|[k v] rest IH]; cbn [find isNil negb].
  - discriminate.
  - destruct (name_eqb k name) eqn:E; [|exact IH].
    intros _. pose proof (name_eqb_eq _ _ E) as Ek. subst k.
    split; [exact (self_equal_hashable _ E)|exact E].
Qed.

Lemma replace_fresh (reg : Registry) (name : Name) (v : EncoderPool) :
  find reg name = None -> replace reg name v = reg ++ [(name, v)].
Proof.
  induction reg as [|[k old] rest IH]; cbn [find replace app];
    [reflexivity|].
  destruct (name_eqb k name); [discriminate|].
  intros H. rewrite (IH H). reflexivity.
Qed.

Lemma find_app (reg more : Registry) (name : Name) :
  find (reg ++ more) name =
  match find reg name with
  | Some v => Some v
  | None => find more name
  end.
Proof.
  induction reg as [|[k v] rest IH]; cbn [find app]; [reflexivity|].
  destruct (name_eqb k name); [reflexivity|exact IH].
Qed.

(** The effect of one call on the map. *)
Lemma Register_effect (name : Name) (pool : EncoderPool) (reg : Registry) :
  RegisterEncoderPool name pool reg =
  if hashable name
  then if registered reg name
       then Returns (reg, Some (AlreadyExists name))
       else Returns (reg ++ [(name, pool)], None)
  else Panics.
Proof.
  unfold RegisterEncoderPool, mapLookup, mapStore, registered.
  destruct (hashable name); [|reflexivity].
  destruct (find reg name) eqn:F; cbn [isNil negb]; [reflexivity|].
  rewrite (replace_fresh _ _ _ F). reflexivity.
Qed.

(** A key stays in the map, with its pool, through later calls. *)
Lemma registerAll_keeps (calls : list (Name * EncoderPool)) :
  forall (reg : Registry) (name : Name) (v : EncoderPool),
    find reg name = Some v -> find (registerAll calls reg) name = Some v.
Proof.
  induction calls as [|[n p] rest IH]; intros reg name v H; [exact H|].
  cbn [registerAll]. rewrite Register_effect.
  destruct (hashable n); [|apply IH, H].
  destruct (registered reg n); apply IH; [exact H|].
  rewrite find_app, H. reflexivity.
Qed.

(** The keys of the map are the keys it started with and the hashable,
    self-equal names of the calls. *)
Lemma registerAll_registered (calls : list (Name * EncoderPool)) :
  forall (reg : Registry) (name : Name),
    registered (registerAll calls reg) name =
    registered reg name || requested calls name.
Proof.
  induction calls as [|[n p] rest IH]; intros reg name;
    cbn [registerAll requested existsb fst].
  - rewrite orb_false_r. reflexivity.
  - rewrite Register_effect.
    destruct (hashable n) eqn:Hh.
    + destruct (registered reg n) eqn:Hr; rewrite IH.
      * destruct (name_eqb n name) eqn:E; [|reflexivity].
        apply name_eqb_eq in E. subst n. rewrite Hr. reflexivity.
      * unfold registered at 1. rewrite find_app. cbn [find].
        unfold registered. destruct (find reg name); cbn [isNil negb orb];
          [reflexivity|].
        destruct (name_eqb n name); reflexivity.
    + rewrite IH. destruct (name_eqb n name) eqn:E; [|reflexivity].
      pose proof (name_eqb_eq _ _ E) as En. subst name.
      rewrite (self_equal_hashable _ E) in Hh. discriminate Hh.
Qed.

Lemma defaults_registered (calls : list (Name * EncoderPool)) :
  find (reached calls) encoderPoolNameDefaultText
  = Some DefaultTextEncoderPool
  /\ find (reached calls) encoderPoolNameDefaultJSON
     = Some DefaultJSONEncoderPool.
Proof.
  split; apply registerAll_keeps; reflexivity.
Qed.

Lemma unregistered_not_default (calls : list (Name * EncoderPool))
  (name : Name) :
  registered (reached calls) name = false ->
  name_eqb name encoderPoolNameDefaultText = false
  /\ name_eqb name encoderPoolNameDefaultJSON = false.
Proof.
  intros H. destruct (defaults_registered calls) as [Ht Hj].
  split.
  - destruct (name_eqb name encoderPoolNameDefaultText) eqn:E;
      [|reflexivity].
    apply name_eqb_eq in E. subst name. unfold registered in H.
    rewrite Ht in H. discriminate H.
  - destruct (name_eqb name encoderPoolNameDefaultJSON) eqn:E;
      [|reflexivity].
    apply name_eqb_eq in E. subst name. unfold registered in H.
    rewrite Hj in H. discriminate H.
Qed.


End RegistryFacts.



(** * Further properties of the adapter *)

Section AdapterLife.

Variable clock : nat -> Time.
Variable env : World -> Call -> Resp.

Lemma Read_steps (c : pConn) (wd : World) :
  let r := env wd (RawCall (raw c) MRead) in
  Read env c wd =
  ((endRead r (beginRead c), (resp_n r, resp_err r)),
   mkWorld (ticks wd) (log wd ++ [(RawCall (raw c) MRead, r)])).
Proof. reflexivity. Qed.

Lemma Write_steps (c : pConn) (wd : World) :
  let r := env wd (RawCall (raw c) MWrite) in
  Write env c wd =
  ((endWrite r (beginWrite c), (resp_n r, resp_err r)),
   mkWorld (ticks wd) (log wd ++ [(RawCall (raw c) MWrite, r)])).
Proof. reflexivity. Qed.

Lemma run_sticky (ops : list Op) :
  forall (c : pConn) (wd : World),
    lastErr c <> None -> lastErr (fst (run clock env ops c wd)) <> None.
Proof.
  induction ops as [|o ops IH]; intros c wd H; [exact H|].
  cbn [run]. unfold bind.
  pose proof (step_sticky clock env o c wd H) as Hs.
  destruct (step clock env o c wd) as [c1 w1]. apply IH. exact Hs.
Qed.

Lemma PEActive_refuses (c : pConn) (wd : World) :
  lastErr c <> None \/ isDoing c = true ->
  PEActive clock env c wd = (Some ErrBadValue, wd).
Proof.
  intros H. rewrite PEActive_unfold.
  destruct (negb (isNil (lastErr c)) || isDoing c) eqn:G; [reflexivity|].
  apply gate_open in G. destruct G as [G1 G2]. destruct H; congruence.
Qed.

(** After an error no sequence of operations reopens the first test. *)
Lemma errored_op_seq (c : pConn) (ops : list Op) (wd wd' : World) :
  lastErr c <> None ->
  PEActive clock env (fst (run clock env ops c wd)) wd'
  = (Some ErrBadValue, wd').
Proof.
  intros H. apply PEActive_refuses. left. apply run_sticky, H.
Qed.

(** An adapter with a recorded error is never active again: after any
    sequence of its operations [PEActive] answers [ErrBadValue], without
    reading the clock and without probing the connection. *)
Theorem errored_never_active (c : pConn) (ops : list Op) (wd wd' : World) :
  lastErr c <> None ->
  PEActive clock env (fst (run clock env ops c wd)) wd'
  = (Some ErrBadValue, wd').
Proof.
  exact (errored_op_seq c ops wd wd').
Qed.

Lemma endRead_sticky (r : Resp) (c : pConn) :
  lastErr c <> None -> lastErr (endRead r c) <> None.
Proof. intros H. apply (setErr_sticky (resp_err r) c H). Qed.

Lemma endWrite_sticky (r : Resp) (c : pConn) :
  lastErr c <> None -> lastErr (endWrite r c) <> None.
Proof. intros H. apply (setErr_sticky (resp_err r) c H). Qed.

Lemma Close_in_flight (c : pConn) (wd : World) :
  isDoing c = true -> lastErr (fst (fst (Close env c wd))) <> None.
Proof.
  intros Hd. rewrite Close_unfold. cbv zeta. cbn [fst].
  destruct (lastErr c) as [e|] eqn:He; cbn [isNil andb].
  - rewrite He. discriminate.
  - rewrite Hd. discriminate.
Qed.

(** An adapter closed while a read or a write is in flight is never active
    again: whatever the wrapped connection answers to the pending call and
    whatever is done with the adapter afterwards, [PEActive] answers
    [ErrBadValue], already at the moment of the close. *)
Theorem closed_in_flight_never_active (c : pConn) (r : Resp)
  (ops : list Op) (w1 w2 w3 : World) :
  let closedInRead := fst (fst (Close env (beginRead c) w1)) in
  let closedInWrite := fst (fst (Close env (beginWrite c) w1)) in
  PEActive clock env closedInRead w2 = (Some ErrBadValue, w2)
  /\ PEActive clock env closedInWrite w2 = (Some ErrBadValue, w2)
  /\ PEActive clock env
       (fst (run clock env ops (endRead r closedInRead) w2)) w3
     = (Some ErrBadValue, w3)
  /\ PEActive clock env
       (fst (run clock env ops (endWrite r closedInWrite) w2)) w3
     = (Some ErrBadValue, w3).
Proof.
  cbv zeta.
  assert (Hr : isDoing (beginRead c) = true) by
    (unfold isDoing, beginRead, withLock; cbn [set_readStat readStat];
     reflexivity).
  assert (Hw : isDoing (beginWrite c) = true).
  { unfold isDoing, beginWrite, withLock. cbn [set_writeStat writeStat].
    apply orb_true_r. }
  pose proof (Close_in_flight _ w1 Hr) as Er.
  pose proof (Close_in_flight _ w1 Hw) as Ew.
  split; [apply PEActive_refuses; left; exact Er|].
  split; [apply PEActive_refuses; left; exact Ew|].
  split; apply errored_op_seq.
  - apply endRead_sticky, Er.
  - apply endWrite_sticky, Ew.
Qed.

Lemma isDoing_false (c : pConn) :
  isDoing c = false <->
  readStat c <> statStart /\ writeStat c <> statStart.
Proof.
  unfold isDoing. rewrite orb_false_iff, !Z.eqb_neq. reflexivity.
Qed.

Lemma step_healthy (Hquiet : rawNeverFails env) (o : Op) (c : pConn)
  (wd : World) :
  healthy c -> healthy (fst (step clock env o c wd)).
Proof.
  intros [He Hd]. apply isDoing_false in Hd. destruct Hd as [Hr Hw].
  unfold healthy. rewrite isDoing_false.
  destruct o; cbn [step]; unfold bind, ret.
  - rewrite Read_steps. cbv zeta. cbn [fst snd].
    unfold endRead, beginRead, withLock. rewrite Hquiet.
    cbn [setErr set_readStat lastErr readStat writeStat].
    repeat split; [exact He|discriminate|exact Hw].
  - rewrite Write_steps. cbv zeta. cbn [fst snd].
    unfold endWrite, beginWrite, withLock. rewrite Hquiet.
    cbn [setErr set_writeStat lastErr readStat writeStat].
    repeat split; [exact He|exact Hr|discriminate].
  - rewrite SetDeadline_unfold. cbv zeta. cbn [fst snd]. rewrite Hquiet.
    repeat split; assumption.
  - rewrite SetReadDeadline_unfold. cbv zeta. cbn [fst snd]. rewrite Hquiet.
    repeat split; assumption.
  - rewrite SetWriteDeadline_unfold. cbv zeta. cbn [fst snd].
    rewrite Hquiet. repeat split; assumption.
  - rewrite PEReset_unfold. cbv zeta. cbn [fst]. rewrite !Hquiet.
    cbn [setErr set_writeStat set_readStat lastErr readStat writeStat].
    repeat split; [exact He|discriminate|discriminate].
  - rewrite Close_unfold. cbv zeta. cbn [fst]. rewrite He.
    cbn [isNil andb]. unfold isDoing.
    destruct (Z.eqb_spec (readStat c) statStart); [contradiction|].
    destruct (Z.eqb_spec (writeStat c) statStart); [contradiction|].
    cbn [orb]. repeat split; assumption.
  - destruct (PEActive clock env c wd). repeat split; assumption.
  - destruct (PERawClose env c wd). repeat split; assumption.
  - destruct (PEMarkUsing clock (metaInfo c) wd). repeat split; assumption.
  - destruct (PEMarkIdle clock (metaInfo c) wd). repeat split; assumption.
Qed.

(** An adapter goes bad only through an error of the wrapped connection or
    a close in flight: while every call on the wrapped connection succeeds,
    an adapter without a recorded error and without an operation in flight
    stays so through any sequence of its operations, so [PEActive] never
    answers [ErrBadValue] because of its first test. *)
Theorem healthy_while_raw_succeeds (ops : list Op) (c : pConn)
  (wd : World) :
  rawNeverFails env ->
  healthy c ->
  healthy (fst (run clock env ops c wd)).
Proof.
  intros Hquiet. revert c wd.
  induction ops as [|o ops IH]; intros c wd H; [exact H|].
  cbn [run]. unfold bind.
  pose proof (step_healthy Hquiet o c wd H) as Hs.
  destruct (step clock env o c wd) as [c1 w1]. apply IH. exact Hs.
Qed.

(** A failed [Read], [Write] or deadline call retires the adapter: when the
    wrapped connection answers the call of the method with an error, then,
    after the method and any further sequence of operations, [PEActive]
    answers [ErrBadValue]. *)
Theorem failed_call_retires (o : Op) (k : Call) (c : pConn)
  (ops : list Op) (wd wd' : World) :
  callOf o c = Some k ->
  resp_err (env wd k) <> None ->
  let after := step clock env o c wd in
  PEActive clock env (fst (run clock env ops (fst after) (snd after))) wd'
  = (Some ErrBadValue, wd').
Proof.
  intros Hk Herr after. apply errored_op_seq. unfold after.
  destruct o; cbn [callOf] in Hk; try discriminate Hk;
    injection Hk as <-; cbn [step]; unfold bind, ret.
  - rewrite Read_steps. cbv zeta. cbn [fst].
    unfold endRead, withLock. cbn [set_readStat lastErr].
    rewrite lastErr_setErr.
    destruct (resp_err _); [discriminate|contradiction].
  - rewrite Write_steps. cbv zeta. cbn [fst].
    unfold endWrite, withLock. cbn [set_writeStat lastErr].
    rewrite lastErr_setErr.
    destruct (resp_err _); [discriminate|contradiction].
  - rewrite SetDeadline_unfold. cbv zeta. cbn [fst].
    rewrite lastErr_setErr.
    destruct (resp_err _); [discriminate|contradiction].
  - rewrite SetReadDeadline_unfold. cbv zeta. cbn [fst].
    rewrite lastErr_setErr.
    destruct (resp_err _); [discriminate|contradiction].
  - rewrite SetWriteDeadline_unfold. cbv zeta. cbn [fst].
    rewrite lastErr_setErr.
    destruct (resp_err _); [discriminate|contradiction].
Qed.

(** [PEReset] discards the errors that its three deadline calls return, but
    they are recorded: the adapter leaves [PEReset] without a recorded error
    exactly when it entered without one and the three calls succeeded.  In
    every case no operation is in flight afterwards. *)
Theorem PEReset_records_failures (c : pConn) (wd : World) :
  let r := PEReset env c wd in
  (lastErr (fst r) = None <->
   lastErr c = None /\ allSucceeded (added (log wd) (log (snd r))) = true)
  /\ isDoing (fst r) = false.
Proof.
  cbv zeta. rewrite PEReset_unfold. cbv zeta. cbn [fst snd log].
  split; [|reflexivity].
  cbn [set_writeStat set_readStat lastErr]. rewrite !lastErr_setErr.
  unfold added. rewrite <- !app_assoc, skipn_app, skipn_all, Nat.sub_diag.
  cbn [app skipn allSucceeded forallb snd].
  destruct (resp_err (env _ (RawCall (raw c) (MSetWriteDeadline zeroTime))));
    cbn [isNil andb].
  { rewrite !andb_false_r. split; [discriminate|intros [_ H]; discriminate]. }
  destruct (resp_err (env _ (RawCall (raw c) (MSetReadDeadline zeroTime))));
    cbn [isNil andb].
  { rewrite !andb_false_r. split; [discriminate|intros [_ H]; discriminate]. }
  destruct (resp_err (env _ (RawCall (raw c) (MSetDeadline zeroTime))));
    cbn [isNil andb].
  { split; [discriminate|intros [_ H]; discriminate]. }
  split; [intros H; split; [exact H|reflexivity]|intros [H _]; exact H].
Qed.

End AdapterLife.

(** Runs of the three theorems above that have a hypothesis. *)
Lemma errored_never_active_witness :
  let c := set_lastErr (Some (ErrExternal "EOF")) level1 in
  lastErr c <> None
  /\ PEActive steadyClock quietEnv
       (fst (run steadyClock quietEnv [OpPEReset; OpRead] c (mkWorld 1 [])))
       (mkWorld 5 [])
     = (Some ErrBadValue, mkWorld 5 []).
Proof.
  cbv zeta.
  assert (H : lastErr (set_lastErr (Some (ErrExternal "EOF")) level1)
              <> None) by discriminate.
  split; [exact H|].
  exact (errored_never_active steadyClock quietEnv _ [OpPEReset; OpRead]
           (mkWorld 1 []) (mkWorld 5 []) H).
Defined.

Lemma healthy_while_raw_succeeds_witness :
  rawNeverFails quietEnv
  /\ healthy level1
  /\ healthy (fst (run steadyClock quietEnv
                     [OpRead; OpWrite; OpClose; OpPEReset] level1
                     (mkWorld 1 []))).
Proof.
  assert (Hq : rawNeverFails quietEnv) by (intros w t m; reflexivity).
  assert (Hh : healthy level1) by (split; reflexivity).
  split; [exact Hq|]. split; [exact Hh|].
  exact (healthy_while_raw_succeeds steadyClock quietEnv
           [OpRead; OpWrite; OpClose; OpPEReset] level1 (mkWorld 1 []) Hq Hh).
Defined.

Lemma failed_call_retires_witness :
  callOf OpRead level1 = Some (RawCall socket MRead)
  /\ resp_err (brokenReadEnv (mkWorld 1 []) (RawCall socket MRead)) <> None
  /\ PEActive steadyClock brokenReadEnv
       (fst (run steadyClock brokenReadEnv [OpWrite; OpPEReset]
               (fst (step steadyClock brokenReadEnv OpRead level1
                       (mkWorld 1 [])))
               (snd (step steadyClock brokenReadEnv OpRead level1
                       (mkWorld 1 [])))))
       (mkWorld 9 [])
     = (Some ErrBadValue, mkWorld 9 []).
Proof.
  assert (Hk : callOf OpRead level1 = Some (RawCall socket MRead))
    by reflexivity.
  assert (He : resp_err (brokenReadEnv (mkWorld 1 [])
                           (RawCall socket MRead)) <> None)
    by discriminate.
  split; [exact Hk|]. split; [exact He|].
  exact (failed_call_retires steadyClock brokenReadEnv OpRead _ level1
           [OpWrite; OpPEReset] (mkWorld 1 []) (mkWorld 9 []) Hk He).
Defined.

(** * Further properties of the metadata tracker *)

Section MetaLife.

Variable clock : nat -> Time.

(** A bound that is zero or negative disables its check: with both bounds
    disabled [Active] answers [nil] and does not read the clock. *)
Theorem Active_disabled (w : MetaInfo) (opt : Option) (wd : World) :
  MaxIdleTime opt <= 0 ->
  MaxLifeTime opt <= 0 ->
  Active clock w opt wd = (None, wd).
Proof.
  intros Hi Hl. unfold Active, andalso, bind, ret.
  destruct (Z.ltb_spec 0 (MaxIdleTime opt)); [lia|].
  destruct (Z.ltb_spec 0 (MaxLifeTime opt)); [lia|]. reflexivity.
Qed.

Lemma Sub_mono (t t' u : Time) : t <= t' -> Sub t u <= Sub t' u.
Proof.
  intros H. unfold Sub, minDuration, maxDuration, minInt64, maxInt64.
  destruct (Z.ltb_spec (t - u) (- 2 ^ 63)),
    (Z.ltb_spec (t' - u) (- 2 ^ 63)); try lia;
    destruct (Z.ltb_spec (2 ^ 63 - 1) (t - u));
    destruct (Z.ltb_spec (2 ^ 63 - 1) (t' - u)); lia.
Qed.

Lemma stepMeta_world (o : MetaOp) (w : MetaInfo) (wd : World) :
  snd (stepMeta clock o w wd) = mkWorld (S (ticks wd)) (log wd)
  /\ CreateTime (meta (fst (stepMeta clock o w wd))) = CreateTime (meta w)
  /\ using_ (fst (stepMeta clock o w wd))
     = match o with OpMarkUsing => true | OpMarkIdle => false end.
Proof. destruct o; repeat split. Qed.

Lemma runMeta_CreateTime (ops : list MetaOp) :
  forall (w : MetaInfo) (wd : World),
    CreateTime (meta (fst (runMeta clock ops w wd))) = CreateTime (meta w).
Proof.
  induction ops as [|o ops IH]; intros w wd; [reflexivity|].
  cbn [runMeta]. unfold bind.
  destruct (stepMeta_world o w wd) as (_ & Hc & _).
  destruct (stepMeta clock o w wd) as [w1 wd1]. cbn [fst] in Hc.
  rewrite IH. exact Hc.
Qed.

(** Expiry by age is final.  On a clock that never goes back, once [Active]
    has answered [ErrOutOfMaxLife], it answers an error at every later
    reading, whatever mark-using and mark-idle transitions were taken in
    between: no transition changes [CreateTime]. *)
Theorem life_expiry_is_final (w : MetaInfo) (opt : Option)
  (ops : list MetaOp) (wd between later : World) :
  monotone clock ->
  fst (Active clock w opt wd) = Some ErrOutOfMaxLife ->
  (ticks wd <= ticks later)%nat ->
  fst (Active clock (fst (runMeta clock ops w between)) opt later) <> None.
Proof.
  intros Hmono Hout Hlater. rewrite Active_result in *.
  rewrite runMeta_CreateTime.
  destruct ((0 <? MaxIdleTime opt)
            && (MaxIdleTime opt
                <=? Sub (clock (ticks later))
                      (LastUseTime
                         (meta (fst (runMeta clock ops w between))))));
    [discriminate|].
  destruct ((0 <? MaxIdleTime opt)
            && (MaxIdleTime opt
                <=? Sub (clock (ticks wd)) (LastUseTime (meta w))));
    [discriminate|].
  destruct (Z.ltb_spec 0 (MaxLifeTime opt)); cbn [andb] in *;
    [|discriminate].
  destruct (Z.leb_spec (MaxLifeTime opt)
              (Sub (clock (if 0 <? MaxIdleTime opt
                           then S (ticks wd) else ticks wd))
                   (CreateTime (meta w)))) as [Hreach|]; [|discriminate].
  assert (Hle : clock (if 0 <? MaxIdleTime opt
                       then S (ticks wd) else ticks wd)
                <= clock (if 0 <? MaxIdleTime opt
                          then S (ticks later) else ticks later)).
  { apply Hmono. destruct (0 <? MaxIdleTime opt); lia. }
  pose proof (Sub_mono _ _ (CreateTime (meta w)) Hle) as Hsub.
  destruct (Z.leb_spec (MaxLifeTime opt)
              (Sub (clock (if 0 <? MaxIdleTime opt
                           then S (ticks later) else ticks later))
                   (CreateTime (meta w)))); [discriminate|lia].
Qed.

Lemma last_nonempty (o : MetaOp) (ops : list MetaOp) (d d' : MetaOp) :
  last (o :: ops) d = last (o :: ops) d'.
Proof.
  revert o. induction ops as [|o' ops IH]; intros o; [reflexivity|].
  change (last (o' :: ops) d = last (o' :: ops) d'). apply IH.
Qed.

(** [UsedTimes] counts the mark-using transitions of any sequence, matched
    by a mark-idle or not, modulo 2^64; mark-idle never changes it.  Every
    transition reads the clock once, and [using] tells which transition
    came last. *)
Theorem used_times_counts_uses (ops : list MetaOp) :
  forall (w : MetaInfo) (wd : World),
    Meta_wf (meta w) ->
    let r := runMeta clock ops w wd in
    UsedTimes (meta (fst r))
    = wrap_uint64 (UsedTimes (meta w) + Z.of_nat (countUsing ops))
    /\ ticks (snd r) = (ticks wd + List.length ops)%nat
    /\ log (snd r) = log wd
    /\ using_ (fst r)
       = match last ops (if using_ w then OpMarkUsing else OpMarkIdle) with
         | OpMarkUsing => true
         | OpMarkIdle => false
         end.
Proof.
  induction ops as [|o ops IH]; intros w wd Hwf; cbv zeta.
  - cbn [runMeta ret fst snd countUsing Z.of_nat List.length last].
    rewrite Z.add_0_r, Nat.add_0_r, wrap_uint64_small by apply Hwf.
    repeat split. destruct (using_ w); reflexivity.
  - cbn [runMeta]. unfold bind.
    pose proof (stepMeta_wf clock o w wd Hwf) as Hwf1.
    destruct (stepMeta_world o w wd) as (Hw & _ & Hu).
    assert (Ht : UsedTimes (meta (fst (stepMeta clock o w wd)))
                 = match o with
                   | OpMarkUsing => wrap_uint64 (UsedTimes (meta w) + 1)
                   | OpMarkIdle => UsedTimes (meta w)
                   end) by (destruct o; reflexivity).
    destruct (stepMeta clock o w wd) as [w1 wd1]. cbn [fst snd] in *.
    destruct (IH w1 wd1 Hwf1) as (It & Ik & Il & Iu). cbv zeta in *.
    rewrite It, Ik, Il, Iu, Ht, Hw, Hu. cbn [ticks log List.length].
    split; [|split; [lia|split; [reflexivity|]]].
    + destruct o; cbn [countUsing].
      * rewrite wrap_uint64_idem. f_equal. lia.
      * reflexivity.
    + destruct ops as [|o' ops']; [destruct o; reflexivity|].
      match goal with
      | |- match last _ ?d1 with _ => _ end
           = match last _ ?d2 with _ => _ end =>
          change (last (o :: o' :: ops') d2) with (last (o' :: ops') d2);
          rewrite (last_nonempty o' ops' d1 d2); reflexivity
      end.
Qed.

Hypothesis clock_mono : monotone clock.

Lemma stepMeta_within (o : MetaOp) (w : MetaInfo) (wd : World) :
  tracked clock w wd -> stepFits clock o w wd ->
  UsedDuration (meta (fst (stepMeta clock o w wd))) - UsedDuration (meta w)
  <= LastUseTime (meta (fst (stepMeta clock o w wd)))
     - LastUseTime (meta w).
Proof.
  intros [[Ht Hd] Hlast] Hfit. destruct o; cbn [stepMeta stepFits] in *.
  - rewrite PEMarkUsing_unfold.
    cbn [fst meta LastUseTime UsedDuration]. lia.
  - rewrite PEMarkIdle_unfold. cbn [fst meta LastUseTime UsedDuration].
    assert (Hsub : 0 <= Sub (clock (ticks wd)) (LastUseTime (meta w))
                   <= clock (ticks wd) - LastUseTime (meta w)).
    { unfold Sub, minDuration, maxDuration, minInt64, maxInt64.
      destruct (Z.ltb_spec (clock (ticks wd) - LastUseTime (meta w))
                  (- 2 ^ 63)); [lia|].
      destruct (Z.ltb_spec (2 ^ 63 - 1)
                  (clock (ticks wd) - LastUseTime (meta w))); lia. }
    rewrite wrap_int64_small by (unfold is_int64 in *; lia). lia.
Qed.

(** The accumulated time of use never exceeds the time that passed: along
    any sequence of transitions on a clock that never goes back, and as long
    as no counter overflows, [UsedDuration] grows by no more than
    [LastUseTime] advances. *)
Theorem used_within_elapsed (ops : list MetaOp) :
  forall (w : MetaInfo) (wd : World),
    tracked clock w wd ->
    noWrap clock ops w wd ->
    let w' := fst (runMeta clock ops w wd) in
    UsedDuration (meta w') - UsedDuration (meta w)
    <= LastUseTime (meta w') - LastUseTime (meta w).
Proof.
  induction ops as [|o ops IH]; intros w wd Htr Hfit; cbv zeta.
  - cbn [runMeta ret fst]. lia.
  - destruct Hfit as [Hstep Hrest].
    pose proof (stepMeta_within o w wd Htr Hstep) as H1.
    destruct (stepMeta_tracked clock clock_mono o w wd Htr Hstep)
      as [Htr1 _].
    pose proof (IH _ _ Htr1 Hrest) as H2. cbv zeta in H2.
    cbn [runMeta]. unfold bind.
    destruct (stepMeta clock o w wd) as [w1 wd1]. cbn [fst snd] in *.
    lia.
Qed.

End MetaLife.

Lemma Active_disabled_witness :
  MaxIdleTime (mkOption 0 (-5)) <= 0
  /\ MaxLifeTime (mkOption 0 (-5)) <= 0
  /\ Active steadyClock (mkMetaInfo (mkMeta 0 0 3 10) false)
       (mkOption 0 (-5)) (mkWorld 1000 [])
     = (None, mkWorld 1000 []).
Proof.
  assert (Hi : MaxIdleTime (mkOption 0 (-5)) <= 0) by (simpl; lia).
  assert (Hl : MaxLifeTime (mkOption 0 (-5)) <= 0) by (simpl; lia).
  split; [exact Hi|]. split; [exact Hl|].
  exact (Active_disabled steadyClock _ _ (mkWorld 1000 []) Hi Hl).
Defined.

Lemma steadyClock_monotone : monotone steadyClock.
Proof. intros i j Hij. unfold steadyClock. lia. Qed.

Lemma life_expiry_is_final_witness :
  let w := mkMetaInfo (mkMeta 0 0 0 0) false in
  let opt := mkOption 0 250 in
  fst (Active steadyClock w opt (mkWorld 3 [])) = Some ErrOutOfMaxLife
  /\ fst (Active steadyClock
            (fst (runMeta steadyClock [OpMarkUsing; OpMarkIdle] w
                    (mkWorld 4 [])))
            opt (mkWorld 6 [])) <> None.
Proof.
  cbv zeta.
  assert (Hout : fst (Active steadyClock (mkMetaInfo (mkMeta 0 0 0 0) false)
                        (mkOption 0 250) (mkWorld 3 []))
                 = Some ErrOutOfMaxLife) by reflexivity.
  split; [exact Hout|].
  apply (life_expiry_is_final steadyClock _ _ [OpMarkUsing; OpMarkIdle]
           (mkWorld 3 []) (mkWorld 4 []) (mkWorld 6 [])
           steadyClock_monotone Hout).
  simpl. lia.
Defined.

Lemma used_times_counts_uses_witness :
  let w := mkMetaInfo (mkMeta 0 0 0 0) false in
  Meta_wf (meta w)
  /\ UsedTimes (meta (fst (runMeta steadyClock
                             [OpMarkUsing; OpMarkUsing; OpMarkIdle] w
                             (mkWorld 1 []))))
     = 2.
Proof.
  cbv zeta.
  assert (Hwf : Meta_wf (meta (mkMetaInfo (mkMeta 0 0 0 0) false)))
    by (unfold Meta_wf, is_uint64, is_int64, maxUint64, minInt64, maxInt64;
        simpl; lia).
  split; [exact Hwf|].
  rewrite (proj1 (used_times_counts_uses steadyClock
                    [OpMarkUsing; OpMarkUsing; OpMarkIdle] _
                    (mkWorld 1 []) Hwf)).
  reflexivity.
Defined.

Lemma used_within_elapsed_witness :
  let w := mkMetaInfo (mkMeta 0 0 0 0) false in
  let ops := [OpMarkUsing; OpMarkIdle; OpMarkIdle] in
  let w' := fst (runMeta steadyClock ops w (mkWorld 1 [])) in
  tracked steadyClock w (mkWorld 1 [])
  /\ noWrap steadyClock ops w (mkWorld 1 [])
  /\ UsedDuration (meta w') - UsedDuration (meta w)
     <= LastUseTime (meta w') - LastUseTime (meta w).
Proof.
  cbv zeta.
  assert (Htr : tracked steadyClock (mkMetaInfo (mkMeta 0 0 0 0) false)
                  (mkWorld 1 [])).
  { vm_compute. repeat split; discriminate. }
  assert (Hfit : noWrap steadyClock [OpMarkUsing; OpMarkIdle; OpMarkIdle]
                   (mkMetaInfo (mkMeta 0 0 0 0) false) (mkWorld 1 []))
    by (vm_compute; repeat split; discriminate).
  split; [exact Htr|]. split; [exact Hfit|].
  exact (used_within_elapsed steadyClock steadyClock_monotone
           [OpMarkUsing; OpMarkIdle; OpMarkIdle] _ (mkWorld 1 []) Htr Hfit).
Defined.

(** * Further properties of the registry *)

Section RegistryLife.

Import Logit.

Variable DefaultTextEncoderPool : EncoderPool.
Variable DefaultJSONEncoderPool : EncoderPool.

Local Abbreviation reached calls :=
  (registryAfter DefaultTextEncoderPool DefaultJSONEncoderPool calls).

Local Abbreviation Get name reg :=
  (GetEncoderPool DefaultTextEncoderPool DefaultJSONEncoderPool name reg).

Lemma registerAll_app (calls more : list (Name * EncoderPool)) :
  forall reg : Registry,
    registerAll (calls ++ more) reg = registerAll more (registerAll calls reg).
Proof.
  induction calls as [|[n p] rest IH]; intros reg; [reflexivity|].
  cbn [app registerAll].
  destruct (RegisterEncoderPool n p reg) as [[reg' e]|]; apply IH.
Qed.

Lemma Get_found (name : Name) (v : EncoderPool) (reg : Registry) :
  find reg encoderPoolNameDefaultText = Some DefaultTextEncoderPool ->
  find reg encoderPoolNameDefaultJSON = Some DefaultJSONEncoderPool ->
  find reg name = Some v ->
  Get name reg = Returns v.
Proof.
  intros Ht Hj Hf. unfold GetEncoderPool, mapLookup.
  destruct (name_eqb name encoderPoolNameDefaultText) eqn:Et.
  { apply name_eqb_eq in Et. subst name. congruence. }
  destruct (name_eqb name encoderPoolNameDefaultJSON) eqn:Ej.
  { apply name_eqb_eq in Ej. subst name. congruence. }
  assert (Hr : registered reg name = true)
    by (unfold registered; rewrite Hf; reflexivity).
  destruct (registered_self_equal reg name Hr) as [Hh _].
  rewrite Hh, Hf. reflexivity.
Qed.

(** The first registration of a name wins and is permanent: once a name is
    registered, every later sequence of calls of [RegisterEncoderPool],
    repeated attempts on the same name included, leaves the pool that
    [GetEncoderPool] returns for it unchanged, and each further attempt on
    that name is refused. *)
Theorem first_registration_wins (calls more : list (Name * EncoderPool))
  (name : Name) (v pool : EncoderPool) :
  find (reached calls) name = Some v ->
  Get name (reached calls) = Returns v
  /\ Get name (reached (calls ++ more)) = Returns v
  /\ RegisterEncoderPool name pool (reached (calls ++ more))
     = Returns (reached (calls ++ more), Some (AlreadyExists name)).
Proof.
  intros Hf.
  assert (Happ : reached (calls ++ more) = registerAll more (reached calls))
    by apply registerAll_app.
  destruct (defaults_registered DefaultTextEncoderPool DefaultJSONEncoderPool
              calls) as [Ht Hj].
  destruct (defaults_registered DefaultTextEncoderPool DefaultJSONEncoderPool
              (calls ++ more)) as [Ht' Hj'].
  assert (Hf' : find (reached (calls ++ more)) name = Some v)
    by (rewrite Happ; apply registerAll_keeps, Hf).
  split; [exact (Get_found name v _ Ht Hj Hf)|].
  split; [exact (Get_found name v _ Ht' Hj' Hf')|].
  rewrite Register_effect.
  assert (Hr : registered (reached (calls ++ more)) name = true)
    by (unfold registered; rewrite Hf'; reflexivity).
  destruct (registered_self_equal _ _ Hr) as [Hh _].
  rewrite Hh, Hr. reflexivity.
Qed.

(** Registering the [nil] pool occupies the name: the call succeeds,
    [GetEncoderPool] goes on answering [nil] as for a name that is not
    registered, and the name can no longer be given a pool. *)
Theorem nil_pool_occupies_name (calls : list (Name * EncoderPool))
  (name : Name) (pool : EncoderPool) :
  hashable name = true ->
  name_eqb name name = true ->
  registered (reached calls) name = false ->
  let reg' := reached (calls ++ [(name, nilPool)]) in
  RegisterEncoderPool name nilPool (reached calls) = Returns (reg', None)
  /\ Get name (reached calls) = Returns nilPool
  /\ Get name reg' = Returns nilPool
  /\ RegisterEncoderPool name pool reg'
     = Returns (reg', Some (AlreadyExists name)).
Proof.
  intros Hh Hself Hr reg'.
  assert (Hfirst : RegisterEncoderPool name nilPool (reached calls)
                   = Returns (reached calls ++ [(name, nilPool)], None))
    by (rewrite Register_effect, Hh, Hr; reflexivity).
  assert (Hreg' : reg' = reached calls ++ [(name, nilPool)]).
  { unfold reg', registryAfter. rewrite registerAll_app.
    cbn [registerAll]. unfold registryAfter in Hfirst. rewrite Hfirst.
    reflexivity. }
  assert (Hnone : find (reached calls) name = None).
  { unfold registered in Hr. destruct (find (reached calls) name);
      [discriminate Hr|reflexivity]. }
  assert (Hf' : find reg' name = Some nilPool).
  { rewrite Hreg', find_app, Hnone. cbn [find]. rewrite Hself.
    reflexivity. }
  destruct (defaults_registered DefaultTextEncoderPool DefaultJSONEncoderPool
              (calls ++ [(name, nilPool)])) as [Ht' Hj'].
  fold reg' in Ht', Hj'.
  destruct (unregistered_not_default DefaultTextEncoderPool
              DefaultJSONEncoderPool calls name Hr) as [Nt Nj].
  split; [rewrite Hreg'; exact Hfirst|].
  split.
  { unfold GetEncoderPool, mapLookup. rewrite Nt, Nj, Hh, Hnone.
    reflexivity. }
  split; [exact (Get_found name nilPool reg' Ht' Hj' Hf')|].
  rewrite Register_effect, Hh.
  unfold registered. rewrite Hf'. reflexivity.
Qed.

End RegistryLife.

Lemma first_registration_wins_witness :
  let calls := [(Logit.NameString "json_stream", Some 3%nat)] in
  let more := [(Logit.NameString "json_stream", Some 9%nat);
               (Logit.NameInt 4, None)] in
  Logit.find (Logit.registryAfter (Some 1%nat) (Some 2%nat) calls)
    (Logit.NameString "json_stream") = Some (Some 3%nat)
  /\ Logit.GetEncoderPool (Some 1%nat) (Some 2%nat)
       (Logit.NameString "json_stream")
       (Logit.registryAfter (Some 1%nat) (Some 2%nat) (calls ++ more))
     = Returns (Some 3%nat).
Proof.
  cbv zeta.
  assert (Hf : Logit.find
                 (Logit.registryAfter (Some 1%nat) (Some 2%nat)
                    [(Logit.NameString "json_stream", Some 3%nat)])
                 (Logit.NameString "json_stream") = Some (Some 3%nat))
    by reflexivity.
  split; [exact Hf|].
  exact (proj1 (proj2 (first_registration_wins (Some 1%nat) (Some 2%nat)
                         [(Logit.NameString "json_stream", Some 3%nat)]
                         [(Logit.NameString "json_stream", Some 9%nat);
                          (Logit.NameInt 4, None)]
                         (Logit.NameString "json_stream") (Some 3%nat)
                         None Hf))).
Defined.

Lemma nil_pool_occupies_name_witness :
  let name := Logit.NameString "audit" in
  let reg := Logit.registryAfter (Some 1%nat) (Some 2%nat) [] in
  let reg' := Logit.registryAfter (Some 1%nat) (Some 2%nat)
                [(name, Logit.nilPool)] in
  Logit.hashable name = true
  /\ Logit.name_eqb name name = true
  /\ Logit.registered reg name = false
  /\ Logit.GetEncoderPool (Some 1%nat) (Some 2%nat) name reg'
     = Returns Logit.nilPool
  /\ Logit.RegisterEncoderPool name (Some 5%nat) reg'
     = Returns (reg', Some (Logit.AlreadyExists name)).
Proof.
  cbv zeta.
  destruct (nil_pool_occupies_name (Some 1%nat) (Some 2%nat) []
              (Logit.NameString "audit") (Some 5%nat)
              eq_refl eq_refl eq_refl) as (_ & _ & Hget & Hdup).
  split; [reflexivity|]. split; [reflexivity|]. split; [reflexivity|].
  split; [exact Hget|exact Hdup].
Defined.

(** * The text encoder *)

Section TextFacts.

Import TextEnc.

Variable formatMillis : Z -> string.
Variable formatFloat64 : Z -> string.
Variable formatFloat32 : Z -> string.
Variable UnixNano : Time -> Z.

Local Abbreviation applyAll' ops e :=
  (applyAll formatMillis formatFloat64 formatFloat32 UnixNano ops e).
Local Abbreviation fieldsOf' :=
  (fieldsOf formatMillis formatFloat64 formatFloat32 UnixNano).

(** The text that a list of fields leaves in the buffer. *)
Local Abbreviation rendered o fields :=
  (List.concat (map (fun f => (body o f ++ Delim o)%list) fields)).

Lemma len_zero (b : bytes) : (0 <? len b) = false -> b = [].
Proof.
  unfold len. destruct b as [|x b]; [reflexivity|]. cbn [List.length].
  destruct (Z.ltb_spec 0 (Z.of_nat (S (List.length b)))); [discriminate|lia].
Qed.

Lemma guarded_write (p : bytes) (e : TextEncoder) :
  (if 0 <? len p then bufWrite p e else e) = bufWrite p e.
Proof.
  destruct (0 <? len p) eqn:E; [reflexivity|].
  rewrite (len_zero p E). unfold bufWrite, Buffer_Write.
  rewrite app_nil_r. destruct e; reflexivity.
Qed.

(** [write] appends one field and its delimiter, whatever options are
    empty. *)
Lemma write_buf (key : string) (val : bytes) (e : TextEncoder) :
  write key val e
  = mkText (opt e) (buf e ++ body (opt e) (key, val) ++ Delim (opt e)).
Proof.
  unfold write. cbv zeta. rewrite !guarded_write.
  unfold bufWrite, Buffer_Write, body. cbn [opt buf fst snd].
  rewrite <- !app_assoc. reflexivity.
Qed.

Lemma applyOp_buf (o : TextOp) (e : TextEncoder) :
  applyOp formatMillis formatFloat64 formatFloat32 UnixNano o e
  = mkText (opt e) (buf e ++ rendered (opt e) (fieldsOf' o)).
Proof.
  destruct o; cbn [applyOp fieldsOf];
    unfold AddReflected, AddBinary, AddByteString, AddBool, AddDuration,
      AddFloat64, AddFloat32, AddInt, AddInt64, AddInt32, AddInt16, AddInt8,
      AddString, AddTime, AddUint, AddUint64, AddUint32, AddUint16,
      AddUint8, AddUintptr, AddError, writeString;
    repeat match goal with
      | |- context [match ?x with _ => _ end] => destruct x
      | |- context [if ?x then _ else _] => destruct x
      end;
    cbn [fst map List.concat]; rewrite ?write_buf; cbn [opt buf];
    rewrite ?app_nil_r, <- ?app_assoc; reflexivity.
Qed.

Lemma applyAll_buf (ops : list TextOp) :
  forall e : TextEncoder,
    applyAll' ops e
    = mkText (opt e) (buf e ++ rendered (opt e) (flat_map fieldsOf' ops)).
Proof.
  unfold applyAll.
  induction ops as [|o ops IH]; intros e; cbn [fold_left flat_map].
  - cbn [map List.concat]. rewrite app_nil_r. destruct e; reflexivity.
  - rewrite IH, applyOp_buf. cbn [opt buf].
    rewrite map_app, concat_app, <- app_assoc. reflexivity.
Qed.

Lemma rendered_join (o : TexEncoderOption) (fields : list (string * bytes)) :
  fields <> [] ->
  rendered o fields = joinWith (Delim o) (map (body o) fields) ++ Delim o.
Proof.
  induction fields as [|f rest IH]; intros Hne; [contradiction|].
  destruct rest as [|g rest'].
  - cbn [map List.concat joinWith]. rewrite app_nil_r. reflexivity.
  - cbn [map List.concat joinWith] in *. rewrite IH by discriminate.
    rewrite <- !app_assoc. reflexivity.
Qed.

Lemma Buffer_WriteTo_all (w : Writer) (b : bytes) :
  b <> [] -> accepts w b ->
  Buffer_WriteTo w b = Returns ([], mkReport (Some b) (len b) None).
Proof.
  intros Hne Hacc. unfold Buffer_WriteTo. rewrite Hacc.
  destruct (0 <? len b) eqn:E; [|apply len_zero in E; contradiction].
  fold (len b). rewrite Z.ltb_irrefl, Z.eqb_refl. reflexivity.
Qed.

Lemma truncate_tail (x d : bytes) :
  Buffer_Truncate (len (x ++ d) - len d) (x ++ d) = Returns x.
Proof.
  unfold Buffer_Truncate, len. rewrite List.length_app.
  replace (Z.of_nat (List.length x + List.length d)
           - Z.of_nat (List.length d))
    with (Z.of_nat (List.length x)) by lia.
  rewrite Nat2Z.id.
  destruct (Z.ltb_spec (Z.of_nat (List.length x)) 0); [lia|].
  destruct (Z.ltb_spec (Z.of_nat (List.length x + List.length d))
              (Z.of_nat (List.length x))); [lia|].
  cbn [orb]. rewrite firstn_app, Nat.sub_diag, firstn_all. cbn [firstn].
  rewrite app_nil_r. reflexivity.
Qed.

(** The line of a text encoder.  After [Reset] and any sequence of [Add]
    calls whose text is longer than the delimiter, [WriteTo], on a writer
    that takes the whole line, hands over in one [Write] the fields in the
    order of the calls, each as key prefix, key, key suffix, value prefix,
    value, value suffix, with the delimiter between two fields and none
    after the last, followed by the line break; it returns the length of
    the line and leaves the encoder empty, as after [Reset].  A failed
    [AddReflected] stands for two fields: the message of the error, then
    the empty value. *)
Theorem text_line (w : Writer) (e0 : TextEncoder) (ops : list TextOp) :
  let o := opt e0 in
  let e := applyAll' ops (Reset e0) in
  let line := joinWith (Delim o) (map (body o) (flat_map fieldsOf' ops))
              ++ LineBreak o in
  len (Delim o) < len (buf e) ->
  accepts w line ->
  WriteTo w e = Returns (Reset e0, mkReport (Some line) (len line) None).
Proof.
  intros o e line Hlong Hacc.
  assert (He : e = mkText o (rendered o (flat_map fieldsOf' ops))).
  { unfold e. rewrite applyAll_buf. reflexivity. }
  assert (Hne : flat_map fieldsOf' ops <> []).
  { intros Hnil. rewrite He, Hnil in Hlong. cbn in Hlong.
    unfold len in Hlong. lia. }
  rewrite (rendered_join o _ Hne) in He.
  set (x := joinWith (Delim o) (map (body o) (flat_map fieldsOf' ops))) in *.
  assert (Hx : x <> []).
  { intros Hnil. rewrite He, Hnil in Hlong. cbn [buf app] in Hlong. lia. }
  unfold WriteTo. cbv zeta. rewrite He. cbn [opt buf].
  destruct (Z.ltb_spec (len (Delim o)) (len (x ++ Delim o))) as [_|Hle].
  2:{ rewrite He in Hlong. cbn [buf] in Hlong. lia. }
  rewrite truncate_tail.
  assert (Hline : (if 0 <? len (LineBreak o)
                   then Buffer_Write (LineBreak o) x else x) = line).
  { unfold line, Buffer_Write. destruct (0 <? len (LineBreak o)) eqn:E;
      [reflexivity|].
    rewrite (len_zero _ E), app_nil_r. reflexivity. }
  rewrite Hline.
  rewrite Buffer_WriteTo_all; [reflexivity| |exact Hacc].
  unfold line. intros Hnil. apply app_eq_nil in Hnil. tauto.
Qed.

(** [WriteTo] is the [WriteTo] of the buffer on the line: truncating the
    buffer never panics. *)
Lemma WriteTo_line (w : Writer) (e : TextEncoder) :
  WriteTo w e =
  match Buffer_WriteTo w (lineOf e) with
  | Panics => Panics
  | Returns (b, report) => Returns (mkText (opt e) b, report)
  end.
Proof.
  unfold WriteTo, lineOf, content. cbv zeta.
  destruct (Z.ltb_spec (len (Delim (opt e))) (len (buf e))) as [Hlt|Hle].
  - unfold Buffer_Truncate.
    assert (Hpos : 0 <= len (Delim (opt e))) by (unfold len; lia).
    destruct (Z.ltb_spec (len (buf e) - len (Delim (opt e))) 0); [lia|].
    destruct (Z.ltb_spec (len (buf e))
                (len (buf e) - len (Delim (opt e)))); [lia|].
    cbn [orb]. unfold Buffer_Write.
    destruct (0 <? len (LineBreak (opt e))) eqn:E; [reflexivity|].
    rewrite (len_zero _ E), app_nil_r. reflexivity.
  - unfold Buffer_Write.
    destruct (0 <? len (LineBreak (opt e))) eqn:E; [reflexivity|].
    rewrite (len_zero _ E), app_nil_r. reflexivity.
Qed.

(** [WriteTo] does not panic on a writer that never reports more bytes than
    it was given, whatever the buffer and the options: the truncation of
    the last delimiter is always in range.  The encoder keeps its options
    and the bytes that the writer did not take. *)
Theorem text_WriteTo_returns (w : Writer) (e : TextEncoder) :
  lawful w ->
  exists (e' : TextEncoder) (report : WriteReport),
    WriteTo w e = Returns (e', report)
    /\ opt e' = opt e
    /\ (failure report = None -> buf e' = [])
    /\ (failure report <> None ->
        buf e' = skipn (Z.to_nat (count report)) (lineOf e)).
Proof.
  intros Hlaw. rewrite WriteTo_line. unfold Buffer_WriteTo.
  destruct (0 <? len (lineOf e)) eqn:Hne.
  - pose proof (Hlaw (lineOf e)) as Hm.
    destruct (w (lineOf e)) as [m err]. cbn [fst] in Hm.
    destruct (Z.ltb_spec (len (lineOf e)) (Z.of_nat m)) as [Hbad|_];
      [unfold len in Hbad; lia|].
    destruct err as [err|]; [|destruct (Z.of_nat m =? len (lineOf e))];
      eexists _, _; (split; [reflexivity|]);
      cbn [opt buf failure count]; rewrite ?Nat2Z.id;
      (split; [reflexivity|]); split; intros H;
      first [reflexivity | discriminate H | exfalso; apply H; reflexivity].
  - eexists _, _. split; [reflexivity|]. cbn [opt buf failure].
    split; [reflexivity|]. split; intros H;
      first [reflexivity | exfalso; apply H; reflexivity].
Qed.

(** A text that is not longer than the delimiter is written as it is: an
    encoder without fields writes the line break alone, and a lone field
    whose text is empty keeps its delimiter before the line break. *)
Theorem text_short_content (w : Writer) (e : TextEncoder) :
  len (buf e) <= len (Delim (opt e)) ->
  accepts w (buf e ++ LineBreak (opt e)) ->
  let line := buf e ++ LineBreak (opt e) in
  WriteTo w e
  = Returns (Reset e,
             mkReport (match line with [] => None | _ => Some line end)
                      (len line) None).
Proof.
  intros Hshort Hacc line. rewrite WriteTo_line.
  assert (Hl : lineOf e = line).
  { unfold lineOf, content.
    destruct (Z.ltb_spec (len (Delim (opt e))) (len (buf e))); [lia|].
    reflexivity. }
  rewrite Hl. unfold accepts in Hacc. fold line in Hacc. clearbody line.
  unfold Buffer_WriteTo, Reset. destruct (0 <? len line) eqn:E.
  - rewrite Hacc. fold (len line). rewrite Z.ltb_irrefl, Z.eqb_refl.
    destruct line; [discriminate E|reflexivity].
  - rewrite (len_zero _ E). reflexivity.
Qed.

(** A failed write can be tried again when the line break is as long as the
    delimiter, as in the default options.  If the writer takes nothing of a
    non-empty buffer and reports an error, the encoder keeps the line, and
    the next [WriteTo] hands over the same line. *)
Theorem text_retry_same_line (w1 w2 : Writer) (e : TextEncoder)
  (err : ioError) :
  buf e <> [] ->
  len (LineBreak (opt e)) = len (Delim (opt e)) ->
  w1 (lineOf e) = (O, Some err) ->
  accepts w2 (lineOf e) ->
  WriteTo w1 e
  = Returns (mkText (opt e) (lineOf e),
             mkReport (Some (lineOf e)) 0 (Some err))
  /\ WriteTo w2 (mkText (opt e) (lineOf e))
     = Returns (Reset e,
                mkReport (Some (lineOf e)) (len (lineOf e)) None).
Proof.
  intros Hne Hsame Hw1 Hw2.
  assert (Hc : content e <> []).
  { unfold content.
    destruct (Z.ltb_spec (len (Delim (opt e))) (len (buf e))) as [Hlt|_];
      [|exact Hne].
    intros Hnil. apply (f_equal (@List.length Byte.byte)) in Hnil.
    rewrite length_firstn in Hnil. cbn [List.length] in Hnil.
    unfold len in *. lia. }
  assert (Hline : lineOf e <> []).
  { unfold lineOf. intros Hnil. apply app_eq_nil in Hnil. tauto. }
  split.
  - rewrite WriteTo_line. unfold Buffer_WriteTo. rewrite Hw1.
    destruct (0 <? len (lineOf e)) eqn:E;
      [|apply len_zero in E; contradiction].
    destruct (Z.ltb_spec (len (lineOf e)) (Z.of_nat 0)) as [Hbad|_];
      [unfold len in Hbad; lia|].
    reflexivity.
  - rewrite WriteTo_line. cbn [opt].
    assert (Hagain : lineOf (mkText (opt e) (lineOf e)) = lineOf e).
    { unfold lineOf at 1, content. cbn [opt buf].
      assert (Hlen : len (lineOf e)
                     = len (content e) + len (Delim (opt e))).
      { unfold lineOf, len in *. rewrite List.length_app. lia. }
      assert (Hpos : 0 < len (content e)).
      { unfold len. destruct (content e); [contradiction|].
        cbn [List.length]. lia. }
      destruct (Z.ltb_spec (len (Delim (opt e))) (len (lineOf e))); [|lia].
      replace (len (lineOf e) - len (Delim (opt e)))
        with (len (content e)) by lia.
      unfold len at 1. rewrite Nat2Z.id. unfold lineOf at 1.
      rewrite firstn_app, Nat.sub_diag, firstn_all. cbn [firstn].
      rewrite app_nil_r. reflexivity. }
    rewrite Hagain, Buffer_WriteTo_all by assumption. reflexivity.
Qed.

End TextFacts.

Lemma text_line_witness :
  TextEnc.WriteTo TextEnc.greedy TextEnc.sampleEncoder
  = Returns (TextEnc.NewTextEncoder TextEnc.DefaultTextEncoderOption,
             TextEnc.mkReport
               (Some (TextEnc.bytesOf "a[1] ok[true] n[-12]" ++ [Byte.x0a]))
               21 None).
Proof.
  assert (Hlong : TextEnc.len
                    (TextEnc.Delim
                       (TextEnc.opt
                          (TextEnc.NewTextEncoder
                             TextEnc.DefaultTextEncoderOption)))
                  < TextEnc.len (TextEnc.buf TextEnc.sampleEncoder))
    by (vm_compute; reflexivity).
  exact (text_line TextEnc.noMillis TextEnc.noFloat TextEnc.noFloat
           TextEnc.sameNano TextEnc.greedy
           (TextEnc.NewTextEncoder TextEnc.DefaultTextEncoderOption)
           TextEnc.sampleOps Hlong eq_refl).
Defined.

Lemma text_WriteTo_returns_witness :
  TextEnc.lawful TextEnc.stuck
  /\ exists (e' : TextEnc.TextEncoder) (report : TextEnc.WriteReport),
       TextEnc.WriteTo TextEnc.stuck TextEnc.sampleEncoder
       = Returns (e', report).
Proof.
  assert (Hlaw : TextEnc.lawful TextEnc.stuck)
    by (intros b; cbn; apply Nat.le_0_l).
  split; [exact Hlaw|].
  destruct (text_WriteTo_returns TextEnc.stuck TextEnc.sampleEncoder Hlaw)
    as (e' & report & Hret & _).
  exists e', report. exact Hret.
Defined.

Lemma text_short_content_witness :
  let e := TextEnc.NewTextEncoder TextEnc.DefaultTextEncoderOption in
  TextEnc.len (TextEnc.buf e)
  <= TextEnc.len (TextEnc.Delim (TextEnc.opt e))
  /\ TextEnc.WriteTo TextEnc.greedy e
     = Returns (e, TextEnc.mkReport (Some [Byte.x0a]) 1 None).
Proof.
  cbv zeta.
  assert (Hshort : TextEnc.len
                     (TextEnc.buf
                        (TextEnc.NewTextEncoder
                           TextEnc.DefaultTextEncoderOption))
                   <= TextEnc.len
                        (TextEnc.Delim
                           (TextEnc.opt
                              (TextEnc.NewTextEncoder
                                 TextEnc.DefaultTextEncoderOption))))
    by (vm_compute; discriminate).
  split; [exact Hshort|].
  exact (text_short_content TextEnc.greedy
           (TextEnc.NewTextEncoder TextEnc.DefaultTextEncoderOption)
           Hshort eq_refl).
Defined.

Lemma text_retry_same_line_witness :
  TextEnc.buf TextEnc.sampleEncoder <> []
  /\ TextEnc.WriteTo TextEnc.greedy
       (TextEnc.mkText TextEnc.DefaultTextEncoderOption
          (TextEnc.lineOf TextEnc.sampleEncoder))
     = Returns (TextEnc.NewTextEncoder TextEnc.DefaultTextEncoderOption,
                TextEnc.mkReport
                  (Some (TextEnc.bytesOf "a[1] ok[true] n[-12]"
                         ++ [Byte.x0a]))
                  21 None).
Proof.
  assert (Hne : TextEnc.buf TextEnc.sampleEncoder <> []) by discriminate.
  split; [exact Hne|].
  exact (proj2 (text_retry_same_line TextEnc.stuck TextEnc.greedy
                  TextEnc.sampleEncoder (TextEnc.WriterError "EPIPE")
                  Hne eq_refl eq_refl eq_refl)).
Defined.

(** * The JSON encoder *)

Section JsonFacts.

Import JsonEnc.

Variable millisFloat : Duration -> Z.
Variable formatRFC3339Nano : Time -> string.

Local Abbreviation perform' :=
  (perform millisFloat formatRFC3339Nano).
Local Abbreviation stored' := (stored millisFloat formatRFC3339Nano).

Lemma lookup_store_same (key : string) (v : Value) (m : Fields) :
  lookup key (store key v m) = Some v.
Proof.
  induction m as [|[k old] rest IH]; cbn [store lookup].
  - rewrite String.eqb_refl. reflexivity.
  - destruct (String.eqb k key) eqn:E; cbn [lookup]; rewrite E;
      [reflexivity|exact IH].
Qed.

Lemma lookup_store_other (key other : string) (v : Value) (m : Fields) :
  other <> key -> lookup other (store key v m) = lookup other m.
Proof.
  intros Hne. induction m as [|[k old] rest IH]; cbn [store lookup].
  - destruct (String.eqb_spec key other); [congruence|reflexivity].
  - destruct (String.eqb_spec k key) as [->|Hk]; cbn [lookup].
    + destruct (String.eqb_spec key other); [congruence|reflexivity].
    + rewrite IH. reflexivity.
Qed.

Lemma length_store (key : string) (v : Value) (m : Fields) :
  List.length (store key v m)
  = match lookup key m with
    | Some _ => List.length m
    | None => S (List.length m)
    end.
Proof.
  induction m as [|[k old] rest IH]; cbn [store lookup]; [reflexivity|].
  destruct (String.eqb k key); cbn [List.length]; [reflexivity|].
  rewrite IH. destruct (lookup key rest); reflexivity.
Qed.

Lemma heapGet_heapSet (a : nat) (m : Fields) :
  forall h : Heap, (a < List.length h)%nat -> heapGet a (heapSet a m h) = m.
Proof.
  unfold heapGet. induction a as [|a IH]; intros [|x h] Hlt;
    cbn [List.length] in Hlt; try lia; cbn [heapSet nth]; [reflexivity|].
  apply IH. lia.
Qed.

Lemma heapGet_heapSet_other (a b : nat) (m : Fields) :
  forall h : Heap, a <> b -> heapGet b (heapSet a m h) = heapGet b h.
Proof.
  unfold heapGet. intros h. revert a b.
  induction h as [|x h IH]; intros a b Hne.
  - destruct a; reflexivity.
  - destruct a as [|a], b as [|b]; cbn [heapSet nth]; try reflexivity.
    + congruence.
    + apply IH. congruence.
Qed.

Lemma length_heapSet (a : nat) (m : Fields) :
  forall h : Heap, List.length (heapSet a m h) = List.length h.
Proof.
  induction a as [|a IH]; intros [|x h]; cbn [heapSet List.length];
    try reflexivity.
  rewrite IH. reflexivity.
Qed.

Lemma heapGet_grown (a : nat) (h more : Heap) :
  (a < List.length h)%nat -> heapGet a (h ++ more) = heapGet a h.
Proof. intros Hlt. unfold heapGet. apply app_nth1. exact Hlt. Qed.

Lemma heapGet_fresh (h : Heap) : heapGet (List.length h) (h ++ [[]]) = [].
Proof. unfold heapGet. rewrite app_nth2, Nat.sub_diag by lia. reflexivity. Qed.

(** Every [Add] method is an assignment to the map. *)
Lemma perform_assign (c : AddCall) (key : string) (e : JSONEncoder)
  (h : Heap) :
  perform' c key e h = assign key (stored' c) e h.
Proof.
  destruct c as [v|v|v|v|v|v|v|v|v|v|v|v|v|v|v|v|v|v|v|v|[msg|]];
    cbn [perform stored]; try reflexivity.
  unfold AddReflected. destruct (assign key v e h); reflexivity.
Qed.

Lemma json_add_value_helper (c : AddCall) (key : string) (e : JSONEncoder)
  (h : Heap) :
  allocated e h ->
  exists h' : Heap,
    perform' c key e h = Returns h' /\ ValueOf key e h' = stored' c.
Proof.
  intros (a & Ha & Hlt). rewrite perform_assign.
  unfold assign, ValueOf. rewrite Ha.
  eexists. split; [reflexivity|].
  rewrite (heapGet_heapSet a _ h Hlt), lookup_store_same. reflexivity.
Qed.

(** What is added can be read back.  On an encoder that holds a map, an
    [Add] returns, [Value] then gives for the key what the method stored,
    the last one when the key was added before: the argument, but the
    formatted text, a string, after [AddTime], and the number of
    milliseconds, a [float64], after [AddDuration].  Every other key keeps
    its value, and the number of fields grows by one exactly when the key is
    new. *)
Theorem json_add_then_value (c : AddCall) (key : string)
  (e : JSONEncoder) (h : Heap) :
  allocated e h ->
  exists h' : Heap,
    perform' c key e h = Returns h'
    /\ ValueOf key e h' = stored' c
    /\ (forall t : Time,
          c = CTime t -> ValueOf key e h' = VString (formatRFC3339Nano t))
    /\ (forall d : Duration,
          c = CDuration d ->
          ValueOf key e h' = VNum TFloat64 (millisFloat d))
    /\ (forall other : string,
          other <> key -> ValueOf other e h' = ValueOf other e h)
    /\ size e h'
       = match lookup key (entries (Values e) h) with
         | Some _ => size e h
         | None => S (size e h)
         end
    /\ allocated e h'.
Proof.
  intros (a & Ha & Hlt). rewrite perform_assign.
  unfold assign, ValueOf, size, Values, entries.
  rewrite Ha. eexists. split; [reflexivity|].
  rewrite (heapGet_heapSet a _ h Hlt).
  split; [rewrite lookup_store_same; reflexivity|].
  split; [intros t ->; rewrite lookup_store_same; reflexivity|].
  split; [intros d ->; rewrite lookup_store_same; reflexivity|].
  split; [intros other Hne; rewrite lookup_store_other by exact Hne;
          reflexivity|].
  split; [apply length_store|].
  exists a. split; [exact Ha|]. rewrite length_heapSet. exact Hlt.
Qed.

(** [AddError] with a [nil] error makes the key present with a [nil]
    value: [Value] answers [nil] as it does for a key that was never added,
    but the key is among [Values]. *)
Theorem json_nil_error_is_a_field (key : string) (e : JSONEncoder)
  (h : Heap) :
  allocated e h ->
  (forall missing : string,
      lookup missing (entries (Values e) h) = None ->
      ValueOf missing e h = VNil)
  /\ exists h' : Heap,
       AddError key None e h = Returns h'
       /\ ValueOf key e h' = VNil
       /\ lookup key (entries (Values e) h') = Some VNil.
Proof.
  intros (a & Ha & Hlt). split.
  - intros missing Hm. unfold ValueOf, Values, entries in *.
    rewrite Ha in *. rewrite Hm. reflexivity.
  - cbn [perform]. unfold AddError, assign, ValueOf, Values, entries.
    rewrite Ha.
    eexists. split; [reflexivity|].
    rewrite (heapGet_heapSet a _ h Hlt), lookup_store_same.
    split; reflexivity.
Qed.


(** A [JSONEncoder] whose map is [nil] panics on every [Add], answers [nil]
    to every [Value], and is repaired by [Reset]. *)
Theorem json_nil_map (c : AddCall) (key : string) (e : JSONEncoder)
  (h : Heap) :
  kv e = None ->
  perform' c key e h = Panics
  /\ ValueOf key e h = VNil
  /\ size e h = O
  /\ allocated (fst (Reset e h)) (snd (Reset e h))
  /\ exists h' : Heap,
       perform' c key (fst (Reset e h)) (snd (Reset e h)) = Returns h'
       /\ ValueOf key (fst (Reset e h)) h' = stored' c.
Proof.
  intros Hnil. rewrite perform_assign.
  unfold assign at 1, ValueOf at 1, size. rewrite Hnil.
  split; [reflexivity|]. split; [reflexivity|]. split; [reflexivity|].
  assert (Hall : allocated (fst (Reset e h)) (snd (Reset e h))).
  { exists (List.length h). unfold Reset, makeMap. cbn [fst snd kv].
    split; [reflexivity|]. rewrite List.length_app. cbn [List.length]. lia. }
  split; [exact Hall|].
  destruct (json_add_value_helper c key _ _ Hall) as (h' & Hret & Hval).
  exists h'. split; assumption.
Qed.

End JsonFacts.

Lemma sampleJSON_allocated :
  JsonEnc.allocated JsonEnc.sampleJSON JsonEnc.sampleHeap.
Proof. exists O. split; [reflexivity|]. cbn. lia. Qed.

Lemma json_add_then_value_witness :
  JsonEnc.allocated JsonEnc.sampleJSON JsonEnc.sampleHeap
  /\ exists h' : JsonEnc.Heap,
       JsonEnc.perform JsonEnc.sampleMillis JsonEnc.sampleFormat
         (JsonEnc.CString "GET") "method" JsonEnc.sampleJSON
         JsonEnc.sampleHeap = Returns h'
       /\ JsonEnc.ValueOf "method" JsonEnc.sampleJSON h'
          = JsonEnc.VString "GET".
Proof.
  split; [exact sampleJSON_allocated|].
  destruct (json_add_then_value JsonEnc.sampleMillis JsonEnc.sampleFormat
              (JsonEnc.CString "GET") "method"
              JsonEnc.sampleJSON JsonEnc.sampleHeap sampleJSON_allocated)
    as (h' & Hret & Hval & _).
  exists h'. split; [exact Hret|exact Hval].
Defined.

Lemma json_nil_error_is_a_field_witness :
  JsonEnc.allocated JsonEnc.sampleJSON JsonEnc.sampleHeap
  /\ JsonEnc.ValueOf "err" JsonEnc.sampleJSON JsonEnc.sampleHeap
     = JsonEnc.VNil
  /\ exists h' : JsonEnc.Heap,
       JsonEnc.AddError "err" None JsonEnc.sampleJSON JsonEnc.sampleHeap
       = Returns h'
       /\ JsonEnc.lookup "err"
            (JsonEnc.entries (JsonEnc.Values JsonEnc.sampleJSON) h')
          = Some JsonEnc.VNil.
Proof.
  destruct (json_nil_error_is_a_field "err" JsonEnc.sampleJSON
              JsonEnc.sampleHeap sampleJSON_allocated)
    as (Hmiss & h' & Hret & _ & Hin).
  split; [exact sampleJSON_allocated|].
  split; [exact (Hmiss "err"%string eq_refl)|].
  exists h'. split; [exact Hret|exact Hin].
Defined.


Lemma json_nil_map_witness :
  JsonEnc.kv (JsonEnc.mkJSON None []) = None
  /\ JsonEnc.perform JsonEnc.sampleMillis JsonEnc.sampleFormat
       (JsonEnc.CInt 7) "n" (JsonEnc.mkJSON None []) []
     = Panics.
Proof.
  split; [reflexivity|].
  exact (proj1 (json_nil_map JsonEnc.sampleMillis JsonEnc.sampleFormat
                  (JsonEnc.CInt 7) "n" (JsonEnc.mkJSON None []) [] eq_refl)).
Defined.

(** * The pool of encoders *)

Section PoolFacts.

Import EncPool.

Context {E : Type} `{FieldEncoder E}.

Hypothesis Reset_idempotent : forall e : E, Reset (Reset e) = Reset e.

Lemma store_length (a : Addr) (e : E) (h : list E) :
  List.length (store a e h) = List.length h.
Proof.
  revert a. induction h as [|x h IH]; intros [|a]; cbn [store List.length];
    try reflexivity.
  rewrite IH. reflexivity.
Qed.

Lemma load_store_same (a : Addr) (e : E) (h : list E) :
  (a < List.length h)%nat -> load a (store a e h) = Some e.
Proof.
  unfold load. revert a. induction h as [|x h IH]; intros [|a] Ha;
    cbn [store nth_error List.length] in *; try lia; [reflexivity|].
  apply IH. lia.
Qed.

Lemma load_store_other (a b : Addr) (e : E) (h : list E) :
  a <> b -> load b (store a e h) = load b h.
Proof.
  unfold load. revert a b.
  induction h as [|x h IH]; intros [|a] [|b] Hab;
    cbn [store nth_error]; try reflexivity; try congruence.
  apply IH. congruence.
Qed.

Lemma modify_length (a : Addr) (f : E -> E) (h : list E) :
  List.length (modify a f h) = List.length h.
Proof.
  unfold modify. destruct (load a h); [apply store_length|reflexivity].
Qed.

Lemma load_modify_same (a : Addr) (f : E -> E) (h : list E) (e : E) :
  load a h = Some e -> load a (modify a f h) = Some (f e).
Proof.
  intros Hl. unfold modify. rewrite Hl. apply load_store_same.
  apply nth_error_Some. unfold load in Hl. congruence.
Qed.

Lemma load_modify_other (a b : Addr) (f : E -> E) (h : list E) :
  a <> b -> load b (modify a f h) = load b h.
Proof.
  intros Hab. unfold modify.
  destruct (load a h); [apply load_store_other, Hab|reflexivity].
Qed.

Lemma load_grown (a : Addr) (e x : E) (h : list E) :
  load a h = Some e -> load a (h ++ [x]) = Some e.
Proof.
  unfold load. intros Hl. rewrite nth_error_app1; [exact Hl|].
  apply nth_error_Some. congruence.
Qed.

Lemma load_fresh (x : E) (h : list E) :
  load (List.length h) (h ++ [x]) = Some x.
Proof.
  unfold load. rewrite nth_error_app2, Nat.sub_diag by lia. reflexivity.
Qed.

Lemma load_valid (a : Addr) (e : E) (h : list E) :
  load a h = Some e -> (a < List.length h)%nat.
Proof. unfold load. intros Hl. apply nth_error_Some. congruence. Qed.

Lemma In_without (i : nat) (l : list Addr) (x : Addr) :
  In x (without i l) -> In x l.
Proof.
  unfold without. revert i. induction l as [|y l IH]; intros i.
  - destruct i; cbn [firstn skipn app]; intros [].
  - destruct i as [|i]; cbn [firstn skipn app].
    + intros Hin. right. exact Hin.
    + intros [Heq|Hin]; [left; exact Heq|right; exact (IH i Hin)].
Qed.

Lemma NoDup_without (i : nat) (l : list Addr) :
  NoDup l -> NoDup (without i l).
Proof.
  unfold without. revert i. induction l as [|y l IH]; intros i Hnd.
  - destruct i; constructor.
  - inversion Hnd as [|? ? Hy Hl]; subst.
    destruct i as [|i]; cbn [firstn skipn app]; [exact Hl|].
    constructor; [|apply IH, Hl].
    intros Hin. apply Hy. apply (In_without i l y). exact Hin.
Qed.

Lemma picked_gone (i : nat) (l : list Addr) (a : Addr) :
  NoDup l -> nth_error l i = Some a -> ~ In a (without i l).
Proof.
  unfold without. revert i. induction l as [|y l IH]; intros i Hnd Hn.
  - destruct i; discriminate Hn.
  - inversion Hnd as [|? ? Hy Hl]; subst.
    destruct i as [|i]; cbn [firstn skipn app nth_error] in *.
    + injection Hn as <-. exact Hy.
    + intros [Heq|Hin].
      * subst y. apply Hy. eapply nth_error_In, Hn.
      * exact (IH i Hl Hn Hin).
Qed.

(** An allocation keeps the pool settled and gives the new encoder to the
    caller. *)
Lemma settled_grown (st : PoolState) (owned : list Addr) (x : E) :
  settled st owned ->
  settled (mkPoolState (heap st ++ [x]) (items st) (newFn st))
    (List.length (heap st) :: owned).
Proof.
  intros (Hnd & Hclean & Hown). split; [exact Hnd|]. split.
  - intros a Ha. destruct (Hclean a Ha) as (e & Hl & He).
    exists e. split; [apply load_grown, Hl|exact He].
  - cbn [heap items]. intros a [<-|Ha].
    + split; [rewrite length_app; cbn [List.length]; lia|].
      intros Hin. destruct (Hclean _ Hin) as (e & Hl & _).
      apply load_valid in Hl. lia.
    + destruct (Hown a Ha) as [Hv Hni].
      split; [rewrite length_app; lia|exact Hni].
Qed.

(** Dropping or handing out an item keeps the pool settled. *)
Lemma settled_without (st : PoolState) (owned : list Addr) (i : nat) :
  settled st owned ->
  settled (mkPoolState (heap st) (without i (items st)) (newFn st)) owned.
Proof.
  intros (Hnd & Hclean & Hown). split; [apply NoDup_without, Hnd|]. split.
  - intros a Ha. apply Hclean. exact (In_without _ _ _ Ha).
  - intros a Ha. destruct (Hown a Ha) as [Hv Hni]. split; [exact Hv|].
    intros Hin. apply Hni. exact (In_without _ _ _ Hin).
Qed.

Lemma step_settled (ev : Event) (st : PoolState) (owned : list Addr) :
  (forall e : E, newFn st tt = Some e -> clean e) ->
  settled st owned -> holds ev owned ->
  match step ev st with
  | Panics => True
  | Returns (got, st') =>
      newFn st' = newFn st
      /\ settled st' (ownedAfter ev got owned)
      /\ match ev, got with
         | EvGet _, Some a =>
             exists e : E, load a (heap st') = Some e /\ clean e
         | _, _ => True
         end
  end.
Proof.
  intros Hnew Hset Hholds.
  assert (Hfresh : match newFn st tt with
                   | Some e =>
                       settled
                         (mkPoolState (heap st ++ [e]) (items st) (newFn st))
                         (List.length (heap st) :: owned)
                       /\ exists e' : E,
                           load (List.length (heap st)) (heap st ++ [e])
                           = Some e' /\ clean e'
                   | None => True
                   end).
  { destruct (newFn st tt) as [e|] eqn:En; [|exact I].
    split; [apply settled_grown, Hset|].
    exists e. split; [apply load_fresh|apply Hnew; reflexivity]. }
  destruct ev as [pick|enc|x|a f|i]; cbn [step].
  - unfold Get. destruct pick as [i|].
    + destruct (nth_error (items st) i) as [a|] eqn:En.
      * cbn [ownedAfter newFn heap]. split; [reflexivity|].
        destruct Hset as (Hnd & Hclean & Hown).
        assert (Hin : In a (items st)) by (eapply nth_error_In, En).
        split; [|apply Hclean, Hin].
        destruct (settled_without st owned i (conj Hnd (conj Hclean Hown)))
          as (Hnd' & Hclean' & Hown').
        split; [exact Hnd'|]. split; [exact Hclean'|].
        cbn [heap items] in *. intros b [<-|Hb]; [|apply Hown', Hb].
        split; [|apply picked_gone; assumption].
        destruct (Hclean a Hin) as (e & Hl & _).
        exact (load_valid _ _ _ Hl).
      * destruct (newFn st tt) as [e|]; [|exact I].
        cbn [ownedAfter newFn heap]. destruct Hfresh as [Hs He].
        split; [reflexivity|]. split; [exact Hs|exact He].
    + destruct (newFn st tt) as [e|]; [|exact I].
      cbn [ownedAfter newFn heap]. destruct Hfresh as [Hs He].
      split; [reflexivity|]. split; [exact Hs|exact He].
  - destruct enc as [a|]; cbn [Put]; [|exact I].
    cbn [ownedAfter newFn holds] in *. split; [reflexivity|].
    split; [|exact I].
    destruct Hset as (Hnd & Hclean & Hown).
    destruct (Hown a Hholds) as [Hv Hni].
    destruct (nth_error (heap st) a) as [e0|] eqn:E0;
      [|apply nth_error_None in E0; lia].
    split; [|split]; cbn [heap items].
    + apply NoDup_app; [exact Hnd|repeat constructor; intros []|].
      intros b Hb [<-|[]]. exact (Hni Hb).
    + intros b Hb. apply in_app_or in Hb. destruct Hb as [Hb|[<-|[]]].
      * destruct (Hclean b Hb) as (e & Hl & He). exists e.
        split; [|exact He]. rewrite load_modify_other; [exact Hl|].
        intros ->. exact (Hni Hb).
      * exists (Reset e0).
        split; [apply load_modify_same, E0|apply Reset_idempotent].
    + intros b Hb. apply in_remove in Hb. destruct Hb as [Hb Hne].
      destruct (Hown b Hb) as [Hbv Hbn].
      split; [rewrite modify_length; exact Hbv|].
      intros Hin. apply in_app_or in Hin.
      destruct Hin as [Hin|[Heq|[]]]; [exact (Hbn Hin)|].
      apply Hne. symmetry. exact Heq.
  - cbn [ownedAfter newFn]. split; [reflexivity|].
    split; [apply settled_grown, Hset|exact I].
  - cbn [ownedAfter newFn holds] in *. split; [reflexivity|].
    split; [|exact I].
    destruct Hset as (Hnd & Hclean & Hown).
    destruct (Hown a Hholds) as [Hv Hni].
    split; [exact Hnd|]. split; cbn [heap items].
    + intros b Hb. destruct (Hclean b Hb) as (e & Hl & He). exists e.
      split; [|exact He]. rewrite load_modify_other; [exact Hl|].
      intros ->. exact (Hni Hb).
    + intros b Hb. destruct (Hown b Hb) as [Hbv Hbn].
      split; [rewrite modify_length; exact Hbv|exact Hbn].
  - cbn [ownedAfter newFn]. split; [reflexivity|].
    split; [apply settled_without, Hset|exact I].
Qed.

Lemma history_clean (evs : list Event) :
  forall (st : PoolState) (owned : list Addr),
    (forall e : E, newFn st tt = Some e -> clean e) ->
    settled st owned -> disciplined evs st owned ->
    Forall (fun g : Addr * option E =>
              exists e : E, snd g = Some e /\ clean e)
      (fst (history evs st)).
Proof.
  induction evs as [|ev evs IH]; intros st owned Hnew Hset Hdis;
    [constructor|].
  cbn [disciplined] in Hdis. destruct Hdis as [Hholds Hrest].
  pose proof (step_settled ev st owned Hnew Hset Hholds) as Hstep.
  cbn [history].
  destruct (step ev st) as [[got st']|]; [|constructor].
  destruct Hstep as (Hn & Hset' & Hgot).
  assert (Hnew' : forall e : E, newFn st' tt = Some e -> clean e)
    by (rewrite Hn; exact Hnew).
  pose proof (IH st' _ Hnew' Hset' Hrest) as Htail.
  destruct (history evs st') as [gets final]. cbn [fst] in *.
  destruct ev as [pick|enc|x|a f|i]; try exact Htail.
  destruct got as [a|]; [|exact Htail].
  constructor; [exact Hgot|exact Htail].
Qed.


End PoolFacts.

Lemma text_Reset_idempotent (e : TextEnc.TextEncoder) :
  TextEnc.Reset (TextEnc.Reset e) = TextEnc.Reset e.
Proof. reflexivity. Qed.

